(** * Triangle agents: the typed blackboard store and the agent chain

    A shallow embedding of [triangle_agents.c] (module [C]) and of
    [triangle_agents.cpp] (module [Cpp]), and the properties of the store,
    of the two steps and of the pipeline.

    - A [double] is a binary64 float: Rocq's primitive [float], whose
      operations are the IEEE 754 ones the compiled program uses.
    - The store keeps untyped pointers ([void*]); the objects they point to
      live in a heap that is part of the program state, so that a step which
      updates the triangle through the pointer it fetched is seen by every
      later reader of the same key.  A cell of the heap is the storage of a
      variable and is gone when the lifetime of the variable ends.
    - A step returns, stops the process ([exit], an exception), or has no
      defined behaviour: it dereferences a pointer that is null, dangling
      or ill-typed, or it writes past the end of the array of the C
      store. *)

From Stdlib Require Import ZArith List Lia Floats.
From stdpp Require Import base option list sorting gmap strings.

Set Default Proof Using "Type".
(* 0.001 and 1e-9 are not binary64 numbers: such a literal denotes the
   nearest one, as it does in C and C++. *)
Set Warnings "-inexact-float".

(** ** Memory shared by both programs *)

Inductive pointer :=
| NULL
| Addr (l : nat).

Global Instance pointer_eq_dec : EqDecision pointer.
Proof. solve_decision. Defined.

(** The heap is a list of cells; [Addr l] is the cell at index [l].  A
    cell holds the object of a variable as long as the variable exists,
    and [None] once its lifetime has ended: a pointer to it dangles, and
    [load] through it gives nothing.  The programs write through a pointer
    only after they read through it, so [write] is never reached with a
    pointer that [load] rejects. *)
Section Heap.
Context {object : Type}.

Definition load (h : list (option object)) (p : pointer) : option object :=
  match p with
  | NULL => None
  | Addr l => h !! l ≫= id
  end.

Definition write (h : list (option object)) (p : pointer) (o : object)
    : list (option object) :=
  match p with
  | NULL => h
  | Addr l => <[l := Some o]> h
  end.

(** The address of a variable that comes into being: a cell no pointer of
    the current state refers to. *)
Definition alloc (h : list (option object)) (o : object)
    : pointer * list (option object) :=
  (Addr (length h), h ++ [Some o]).

(** The end of the lifetime of the variable at [p]: the function that
    declared it returns.  The cell is not handed out again, so that a
    pointer kept beyond this point stays recognisable as dangling (the
    language standards leave every use of it undefined). *)
Definition release (h : list (option object)) (p : pointer)
    : list (option object) :=
  match p with
  | NULL => h
  | Addr l => <[l := None]> h
  end.
End Heap.

(** ** Outcomes of a computation *)

Section Effects.
Context {state abort event : Type}.

Inductive outcome (A : Type) :=
| Returns (a : A) (s : state) (out : list event)
| Aborts (e : abort) (s : state) (out : list event)
| Undefined.

Definition M (A : Type) : Type := state → outcome A.

Definition ret {A} (a : A) : M A := λ s, Returns A a s [].

Definition bind {A B} (m : M A) (k : A → M B) : M B := λ s,
  match m s with
  | Returns _ a s1 out1 =>
      match k a s1 with
      | Returns _ b s2 out2 => Returns B b s2 (out1 ++ out2)
      | Aborts _ e s2 out2 => Aborts B e s2 (out1 ++ out2)
      | Undefined _ => Undefined B
      end
  | Aborts _ e s1 out1 => Aborts B e s1 out1
  | Undefined _ => Undefined B
  end.

(** Printing appends to the output; the outputs of the steps of a run are
    concatenated in order. *)
Definition emit (e : event) : M unit := λ s, Returns unit tt s [e].

(** The state an outcome ends in, when there is one. *)
Definition final_state {A} (o : outcome A) : option state :=
  match o with
  | Returns _ _ s _ | Aborts _ _ s _ => Some s
  | Undefined _ => None
  end.
End Effects.

Arguments outcome : clear implicits.
Arguments M : clear implicits.
Arguments Returns {state abort event A} a s out.
Arguments Aborts {state abort event A} e s out.
Arguments Undefined {state abort event A}.

Global Instance M_ret {state abort event} : MRet (M state abort event) :=
  λ A, ret.
Global Instance M_bind {state abort event} : MBind (M state abort event) :=
  λ A B k m, bind m k.

Section Frame.
Context {state abort event : Type}.

(** A computation keeps a relation between the state it starts in and the
    state it ends in, whether it returns or stops. *)
Definition keeps (P : state → state → Prop) {A} (m : M state abort event A) : Prop :=
  ∀ s, match m s with
       | Returns _ s1 _ | Aborts _ s1 _ => P s s1
       | Undefined => True
       end.
End Frame.

(** What the programs print: the text of a message, or the message that
    carries the computed angle (its formatting is left out). *)
Inductive message :=
| Text (s : string)
| Calculated_angle (v : float).

Inductive event :=
| sc_log (m : message)
| stderr (s : string).

(** What [print_sc_memory] prints after the key of an entry: the angles of
    a triangle (the value of a known one, its formatting left out; [None]
    stands for the question mark), a truth value, the word RulesSet, or
    nothing. *)
Inductive dump_value :=
| Dump_triangle (angles : list (option float))
| Dump_bool (b : bool)
| Dump_rules
| Dump_nothing.

Inductive dump_line :=
| Dump_header
| Dump_entry (key : string) (v : dump_value)
| Dump_footer.

(** The test that a sum of three angles is 180, up to what the rounding of
    [double] arithmetic can make of it. *)
Definition sum_is_180 (x : float) : bool := (abs (x - 180) <? 1e-9)%float.

(** A value between 0 and 180, the comparisons being those of [double]. *)
Definition in_range (v : float) : Prop :=
  (0 <=? v)%float = true ∧ (v <=? 180)%float = true.

(** The test of the classification step, for an angle that is known. *)
Definition near_90 (v : float) : bool := (abs (v - 90) <? 0.001)%float.

(** * The C program *)
Module C.

Inductive sc_result := SC_RESULT_OK | SC_RESULT_ERROR.

Record sc_memory_entry := {
  addr : string;
  data : pointer;
  type : string;
}.

(** [size] is the length of [entries]; [capacity] is a [size_t]. *)
Record sc_memory_context := {
  entries : list sc_memory_entry;
  capacity : Z;
}.

Definition size (ctx : sc_memory_context) : Z := Z.of_nat (length (entries ctx)).

Definition sc_memory_init (initial_capacity : Z) : sc_memory_context :=
  {| entries := []; capacity := initial_capacity |}.

(** The first loop of [sc_memory_store]: the first entry at [a], if any,
    gets the new pointer and type. *)
Fixpoint update_entry (es : list sc_memory_entry) (a : string) (d : pointer)
    (ty : string) : option (list sc_memory_entry) :=
  match es with
  | [] => None
  | e :: es' =>
      if String.eqb (addr e) a
      then Some ({| addr := addr e; data := d; type := ty |} :: es')
      else cons e <$> update_entry es' a d ty
  end.

(** [sc_memory_store]: the entry of the key is updated where it is;
    otherwise the array is doubled when it is full ([capacity *= 2] on a
    [size_t]) and the new entry is written at index [size].  The array is
    taken to have room for [capacity] entries (the allocation succeeds and
    its byte count, [capacity * sizeof(sc_memory_entry)], does not wrap):
    when the index is not below the capacity, as with a capacity of 0,
    which doubling leaves at 0, the write is past the end of the array and
    has no defined behaviour ([None]). *)
Definition sc_memory_store (ctx : sc_memory_context) (a : string) (d : pointer)
    (ty : string) : option sc_memory_context :=
  match update_entry (entries ctx) a d ty with
  | Some es => Some {| entries := es; capacity := capacity ctx |}
  | None =>
      let capacity' :=
        if (size ctx >=? capacity ctx)%Z
        then (capacity ctx * 2) mod 2 ^ 64
        else capacity ctx in
      if (size ctx <? capacity')%Z then
        Some {| entries := entries ctx ++ [{| addr := a; data := d; type := ty |}];
                capacity := capacity' |}
      else None
  end%Z.

(** The entry the loop of [sc_memory_get] stops at. *)
Definition find_entry (es : list sc_memory_entry) (a : string)
    : option sc_memory_entry :=
  List.find (λ e, String.eqb (addr e) a) es.

(** [sc_memory_get] returns a pointer ([inl]), or prints on stderr and calls
    [exit(EXIT_FAILURE)] ([inr], with the text printed). *)
Definition sc_memory_get (ctx : sc_memory_context) (a : string) (ty : string)
    : pointer + string :=
  match find_entry (entries ctx) a with
  | Some e =>
      if String.eqb (type e) ty then inl (data e)
      else inr ("Type mismatch for SC element: " +:+ a)
  | None => inl NULL
  end.

(** ** Domain structures *)

Record angle := {
  value : float;
  is_known : Z;      (* an [int] used as a truth value *)
}.

(** [angle angles[3]]: A, B and C. *)
Record triangle := {
  angle_A : angle;
  angle_B : angle;
  angle_C : angle;
}.

Definition angles (t : triangle) : list angle := [angle_A t; angle_B t; angle_C t].

(** [tri->angles[i]], read and assigned, for [i] in 0..2. *)
Definition nth_angle (t : triangle) (i : nat) : angle :=
  match i with
  | 0 => angle_A t
  | 1 => angle_B t
  | _ => angle_C t
  end.

Definition set_angle (t : triangle) (i : nat) (a : angle) : triangle :=
  match i with
  | 0 => {| angle_A := a; angle_B := angle_B t; angle_C := angle_C t |}
  | 1 => {| angle_A := angle_A t; angle_B := a; angle_C := angle_C t |}
  | _ => {| angle_A := angle_A t; angle_B := angle_B t; angle_C := a |}
  end.

(** An [int] in a condition. *)
Definition truthy (z : Z) : bool := negb (z =? 0)%Z.

(** What a pointer kept in the store may point to. *)
Inductive object :=
| OTriangle (t : triangle)
| OInt (n : Z).

Record state := {
  memory : sc_memory_context;
  heap : list (option object);
}.

Definition EXIT_FAILURE : Z := 1.

Abbreviation run := (M state Z event).

(** ** Operations of the store and of the heap, as steps of a run *)

Definition memory_get (a ty : string) : run pointer := λ s,
  match sc_memory_get (memory s) a ty with
  | inl p => Returns p s []
  | inr msg => Aborts EXIT_FAILURE s [stderr msg]
  end.

Definition memory_store (a : string) (d : pointer) (ty : string) : run unit := λ s,
  match sc_memory_store (memory s) a d ty with
  | Some m => Returns tt {| memory := m; heap := heap s |} []
  | None => Undefined
  end.

Definition sc_log_event (m : message) : run unit := emit (sc_log m).

(** [*tri] for a [triangle* tri], [*p] for an [int* p]. *)
Definition load_triangle (p : pointer) : run triangle := λ s,
  match load (heap s) p with
  | Some (OTriangle t) => Returns t s []
  | _ => Undefined
  end.

Definition load_int (p : pointer) : run Z := λ s,
  match load (heap s) p with
  | Some (OInt n) => Returns n s []
  | _ => Undefined
  end.

Definition write_triangle (p : pointer) (t : triangle) : run unit := λ s,
  Returns tt {| memory := memory s; heap := write (heap s) p (OTriangle t) |} [].

(** [int is_right = n;] followed by [&is_right]. *)
Definition local_int (n : Z) : run pointer := λ s,
  let '(p, h) := alloc (heap s) (OInt n) in
  Returns p {| memory := memory s; heap := h |} [].

(** The function returns: the lifetime of its variable at [p] ends. *)
Definition end_of_lifetime (p : pointer) : run unit := λ s,
  Returns tt {| memory := memory s; heap := release (heap s) p |} [].

(** ** Agents *)

(** The first loop of [calculate_angles_agent_execute]: one iteration, on
    [(unknown_count, sum_known)]. *)
Definition tally (acc : Z * float) (a : angle) : Z * float :=
  let '(unknown_count, sum_known) := acc in
  if truthy (is_known a) then (unknown_count, (sum_known + value a)%float)
  else ((unknown_count + 1)%Z, sum_known).

Definition tally_angles (t : triangle) : Z * float :=
  fold_left tally (angles t) (0%Z, 0%float).

(** The second loop, over the indices still to visit: the first angle that
    is not known gets its value and the flag, and the loop is left with the
    new triangle and the value; [None] when the loop runs to its end. *)
Fixpoint fill_first_unknown (sum_known : float) (t : triangle) (todo : list nat)
    : option (triangle * float) :=
  match todo with
  | [] => None
  | i :: rest =>
      if negb (truthy (is_known (nth_angle t i))) then
        let v := (180 - sum_known)%float in
        Some (set_angle t i {| value := v; is_known := 1 |}, v)
      else fill_first_unknown sum_known t rest
  end.

Definition calculate_angles_agent_execute : run sc_result :=
  tri ← memory_get "input_triangle" "triangle";
  t ← load_triangle tri;
  let '(unknown_count, sum_known) := tally_angles t in
  match
    if (unknown_count =? 1)%Z then fill_first_unknown sum_known t [0; 1; 2]
    else None
  with
  | Some (t', v) =>
      write_triangle tri t';;
      sc_log_event (Calculated_angle v);;
      mret SC_RESULT_OK
  | None =>
      sc_log_event (Text "Angle calculation error");;
      mret SC_RESULT_ERROR
  end.

(** The test of the loop of [check_right_angle_agent_execute]. *)
Definition is_right_angle (a : angle) : bool :=
  truthy (is_known a) && (abs (value a - 90) <? 0.001)%float.

(** The loop, over the indices still to visit: at the first angle that
    passes the test the step stores the address of a local [is_right] that
    holds 1 and returns; past the last index it stores the address of a
    local that holds 0.  In both places the local is gone when the step
    has returned, and the store keeps its address. *)
Fixpoint check_from (t : triangle) (todo : list nat) : run sc_result :=
  match todo with
  | i :: rest =>
      if is_right_angle (nth_angle t i) then
        is_right ← local_int 1;
        memory_store "is_right_triangle" is_right "int";;
        sc_log_event (Text "Right angle detected (90°)");;
        end_of_lifetime is_right;;
        mret SC_RESULT_OK
      else check_from t rest
  | [] =>
      is_right ← local_int 0;
      memory_store "is_right_triangle" is_right "int";;
      end_of_lifetime is_right;;
      mret SC_RESULT_OK
  end.

Definition check_right_angle_agent_execute : run sc_result :=
  tri ← memory_get "input_triangle" "triangle";
  t ← load_triangle tri;
  check_from t [0; 1; 2].

Definition triangle_processing_agent_execute : run sc_result :=
  sc_log_event (Text "Starting triangle processing");;
  r ← calculate_angles_agent_execute;
  match r with
  | SC_RESULT_ERROR => mret SC_RESULT_ERROR
  | SC_RESULT_OK =>
      r ← check_right_angle_agent_execute;
      match r with
      | SC_RESULT_ERROR => mret SC_RESULT_ERROR
      | SC_RESULT_OK =>
          is_right ← memory_get "is_right_triangle" "int";
          n ← load_int is_right;
          sc_log_event (Text (if truthy n then "Triangle is right-angled"
                              else "Triangle is not right-angled"));;
          mret SC_RESULT_OK
      end
  end.

(** ** What a state holds *)

(** The triangle a reader of the triangle key sees. *)
Definition input_triangle (s : state) : option triangle :=
  match sc_memory_get (memory s) "input_triangle" "triangle" with
  | inl p => match load (heap s) p with
             | Some (OTriangle t) => Some t
             | _ => None
             end
  | inr _ => None
  end.

(** The truth value a reader of the classification key sees. *)
Definition is_right_triangle (s : state) : option bool :=
  match sc_memory_get (memory s) "is_right_triangle" "int" with
  | inl p => match load (heap s) p with
             | Some (OInt n) => Some (truthy n)
             | _ => None
             end
  | inr _ => None
  end.

(** ** Vocabulary of the properties *)

Definition known (a : angle) : Prop := is_known a ≠ 0%Z.

Definition count_unknown (t : triangle) : nat :=
  length (List.filter (λ a, negb (truthy (is_known a))) (angles t)).

Definition fully_known (t : triangle) : Prop :=
  ∀ i, known (nth_angle t i).

(** The two indices beside [i], in increasing order. *)
Definition others (i : nat) : nat * nat :=
  match i with
  | 0 => (1, 2)
  | 1 => (0, 2)
  | _ => (0, 1)
  end.

(** The value the completion step computes when the angle at [i] is the
    unknown one: [sum_known] starts at 0.0 and receives the two known
    values in the order of their indices. *)
Definition completed_value (t : triangle) (i : nat) : float :=
  let '(j, k) := others i in
  (180 - (0 + value (nth_angle t j) + value (nth_angle t k)))%float.

(** The three values added up from A to C. *)
Definition sum_values (t : triangle) : float :=
  (value (angle_A t) + value (angle_B t) + value (angle_C t))%float.

Definition sums_to_180 (t : triangle) : bool := sum_is_180 (sum_values t).

(** A store whose array is within its capacity, the capacity being
    positive and small enough for its double to be a [size_t]: what
    [sc_memory_init] with a positive capacity and the stores that follow
    it leave. *)
Definition within_capacity (ctx : sc_memory_context) : Prop :=
  (0 < capacity ctx < 2 ^ 63)%Z ∧ (size ctx ≤ capacity ctx)%Z.

(** ** The dump of the store *)

Definition dump_angle (a : angle) : option float :=
  if truthy (is_known a) then Some (value a) else None.

(** One iteration of the loop of [print_sc_memory]; [None] when it
    dereferences a pointer that is null or points to an object of another
    type. *)
Definition dump_entry (h : list (option object)) (e : sc_memory_entry) : option dump_line :=
  if String.eqb (type e) "triangle" then
    match load h (data e) with
    | Some (OTriangle t) =>
        Some (Dump_entry (addr e) (Dump_triangle (dump_angle <$> angles t)))
    | _ => None
    end
  else if String.eqb (type e) "int" then
    match load h (data e) with
    | Some (OInt n) => Some (Dump_entry (addr e) (Dump_bool (truthy n)))
    | _ => None
    end
  else if String.eqb (type e) "rules_set" then Some (Dump_entry (addr e) Dump_rules)
  else Some (Dump_entry (addr e) Dump_nothing).

Definition print_sc_memory (s : state) : option (list dump_line) :=
  lines ← mapM (dump_entry (heap s)) (entries (memory s));
  Some (Dump_header :: lines ++ [Dump_footer]).

(** The keys of the store, in the order of the array. *)
Definition keys (ctx : sc_memory_context) : list string := map addr (entries ctx).

(** Every entry tagged as a triangle or as an [int] points to an object of
    that type. *)
Definition well_typed (s : state) : Prop :=
  ∀ e, e ∈ entries (memory s) →
    (type e = "triangle" → ∃ t, load (heap s) (data e) = Some (OTriangle t)) ∧
    (type e = "int" → ∃ n, load (heap s) (data e) = Some (OInt n)).

End C.

(** * The C++ program

    The two C++ files differ in the language of their messages only; the
    texts below are those of the English one. *)
Module Cpp.

Inductive Result := Ok | Error.

Inductive exception := runtime_error (what : string).

(** [std::map::operator[]]: the value at the key, after the key was given
    the default value if it was absent. *)
Definition subscript {V} (m : gmap string V) (k : string) (dflt : V)
    : V * gmap string V :=
  match m !! k with
  | Some v => (v, m)
  | None => (dflt, <[k := dflt]> m)
  end.

Record MemoryContext := {
  data : gmap string pointer;
  types : gmap string string;
}.

(** The types the program instantiates the templates at, and
    [typeid(T).name()], which the implementation chooses. *)
Inductive cpp_type := T_Triangle | T_bool | T_rules.

Section Program.
Variable typeid_name : cpp_type → string.

Definition store (T : cpp_type) (ctx : MemoryContext) (addr : string)
    (value : pointer) : MemoryContext :=
  {| data := <[addr := value]> (data ctx);
     types := <[addr := typeid_name T]> (types ctx) |}.

(** [get] returns a pointer or throws; either way the context is the one
    the two [operator[]] left. *)
Definition get (T : cpp_type) (ctx : MemoryContext) (addr : string)
    : (pointer + exception) * MemoryContext :=
  let '(tag, types') := subscript (types ctx) addr "" in
  if negb (String.eqb tag (typeid_name T)) then
    (inr (runtime_error ("Type mismatch for SC element: " +:+ addr)),
     {| data := data ctx; types := types' |})
  else
    let '(p, data') := subscript (data ctx) addr NULL in
    (inl p, {| data := data'; types := types' |}).

(** ** Domain structures *)

Record Angle := {
  value : float;
  is_known : bool;
}.

Record Triangle := {
  angle_A : Angle;
  angle_B : Angle;
  angle_C : Angle;
}.

Definition angles (t : Triangle) : list Angle := [angle_A t; angle_B t; angle_C t].

Definition nth_angle (t : Triangle) (i : nat) : Angle :=
  match i with
  | 0 => angle_A t
  | 1 => angle_B t
  | _ => angle_C t
  end.

Definition set_angle (t : Triangle) (i : nat) (a : Angle) : Triangle :=
  match i with
  | 0 => {| angle_A := a; angle_B := angle_B t; angle_C := angle_C t |}
  | 1 => {| angle_A := angle_A t; angle_B := a; angle_C := angle_C t |}
  | _ => {| angle_A := angle_A t; angle_B := angle_B t; angle_C := a |}
  end.

Inductive object :=
| OTriangle (t : Triangle)
| OBool (b : bool)
| ORules (r : gmap string string).

Record state := {
  ctx : MemoryContext;
  heap : list (option object);
}.

Abbreviation run := (M state exception event).

(** ** Operations of the store and of the heap, as steps of a run *)

Definition ctx_get (T : cpp_type) (addr : string) : run pointer := λ s,
  match get T (ctx s) addr with
  | (inl p, c) => Returns p {| ctx := c; heap := heap s |} []
  | (inr e, c) => Aborts e {| ctx := c; heap := heap s |} []
  end.

Definition ctx_store (T : cpp_type) (addr : string) (value : pointer) : run unit :=
  λ s, Returns tt {| ctx := store T (ctx s) addr value; heap := heap s |} [].

Definition log_sc_event (m : message) : run unit := emit (sc_log m).

Definition load_triangle (p : pointer) : run Triangle := λ s,
  match load (heap s) p with
  | Some (OTriangle t) => Returns t s []
  | _ => Undefined
  end.

Definition load_bool (p : pointer) : run bool := λ s,
  match load (heap s) p with
  | Some (OBool b) => Returns b s []
  | _ => Undefined
  end.

Definition write_triangle (p : pointer) (t : Triangle) : run unit := λ s,
  Returns tt {| ctx := ctx s; heap := write (heap s) p (OTriangle t) |} [].

(** [bool is_right = b;] followed by [&is_right]. *)
Definition local_bool (b : bool) : run pointer := λ s,
  let '(p, h) := alloc (heap s) (OBool b) in
  Returns p {| ctx := ctx s; heap := h |} [].

(** The function returns: the lifetime of its variable at [p] ends. *)
Definition end_of_lifetime (p : pointer) : run unit := λ s,
  Returns tt {| ctx := ctx s; heap := release (heap s) p |} [].

(** ** Agents *)

Definition tally (acc : Z * float) (a : Angle) : Z * float :=
  let '(unknown_count, sum_known) := acc in
  if is_known a then (unknown_count, (sum_known + value a)%float)
  else ((unknown_count + 1)%Z, sum_known).

Definition tally_angles (t : Triangle) : Z * float :=
  fold_left tally (angles t) (0%Z, 0%float).

Fixpoint fill_first_unknown (sum_known : float) (t : Triangle) (todo : list nat)
    : option (Triangle * float) :=
  match todo with
  | [] => None
  | i :: rest =>
      if negb (is_known (nth_angle t i)) then
        let v := (180 - sum_known)%float in
        Some (set_angle t i {| value := v; is_known := true |}, v)
      else fill_first_unknown sum_known t rest
  end.

Definition CalculateAnglesAgent_execute : run Result :=
  triangle ← ctx_get T_Triangle "input_triangle";
  rules ← ctx_get T_rules "rules_set";
  t ← load_triangle triangle;
  let '(unknown_count, sum_known) := tally_angles t in
  match
    if (unknown_count =? 1)%Z then fill_first_unknown sum_known t [0; 1; 2]
    else None
  with
  | Some (t', v) =>
      write_triangle triangle t';;
      log_sc_event (Calculated_angle v);;
      mret Ok
  | None =>
      log_sc_event (Text "Angle calculation error");;
      mret Error
  end.

Definition is_right_angle (a : Angle) : bool :=
  is_known a && (abs (value a - 90) <? 0.001)%float.

(** As in the C program, the context keeps the address of a local
    [is_right] that is gone when the step has returned. *)
Fixpoint check_from (t : Triangle) (todo : list nat) : run Result :=
  match todo with
  | i :: rest =>
      if is_right_angle (nth_angle t i) then
        is_right ← local_bool true;
        ctx_store T_bool "is_right_triangle" is_right;;
        log_sc_event (Text "Right angle detected (90°)");;
        end_of_lifetime is_right;;
        mret Ok
      else check_from t rest
  | [] =>
      is_right ← local_bool false;
      ctx_store T_bool "is_right_triangle" is_right;;
      end_of_lifetime is_right;;
      mret Ok
  end.

Definition CheckRightAngleAgent_execute : run Result :=
  triangle ← ctx_get T_Triangle "input_triangle";
  rules ← ctx_get T_rules "rules_set";
  t ← load_triangle triangle;
  check_from t [0; 1; 2].

Definition TriangleProcessingAgent_execute : run Result :=
  log_sc_event (Text "Starting triangle processing");;
  r ← CalculateAnglesAgent_execute;
  match r with
  | Error => mret Error
  | Ok =>
      r ← CheckRightAngleAgent_execute;
      match r with
      | Error => mret Error
      | Ok =>
          is_right ← ctx_get T_bool "is_right_triangle";
          b ← load_bool is_right;
          log_sc_event (Text (if b : bool then "Triangle is right-angled"
                              else "Triangle is not right-angled"));;
          mret Ok
      end
  end.

(** ** What a state holds *)

(** The entry at a key: its pointer and its tag, without the side effect of
    [get]. *)
Definition triangle_at (s : state) : option Triangle :=
  match types (ctx s) !! "input_triangle", data (ctx s) !! "input_triangle" with
  | Some tag, Some p =>
      if String.eqb tag (typeid_name T_Triangle) then
        match load (heap s) p with
        | Some (OTriangle t) => Some t
        | _ => None
        end
      else None
  | _, _ => None
  end.

Definition classification_at (s : state) : option bool :=
  match types (ctx s) !! "is_right_triangle", data (ctx s) !! "is_right_triangle" with
  | Some tag, Some p =>
      if String.eqb tag (typeid_name T_bool) then
        match load (heap s) p with
        | Some (OBool b) => Some b
        | _ => None
        end
      else None
  | _, _ => None
  end.

Definition rules_stored (s : state) : Prop :=
  types (ctx s) !! "rules_set" = Some (typeid_name T_rules) ∧
  is_Some (data (ctx s) !! "rules_set").

(** ** The dump of the store *)

Definition dump_angle (a : Angle) : option float :=
  if is_known a then Some (value a) else None.

(** How an iteration of the loop of [print_sc_memory] can fail:
    [ctx.data.at(key)] throws [std::out_of_range] at a key [data] lacks,
    and a pointer that is null or points to an object of another type has
    no defined dereference. *)
Inductive dump_failure := out_of_range | invalid_dereference.

Definition dump_entry (c : MemoryContext) (h : list (option object)) (kt : string * string)
    : dump_line + dump_failure :=
  let '(key, type) := kt in
  if String.eqb type (typeid_name T_Triangle) then
    match data c !! key with
    | None => inr out_of_range
    | Some p =>
        match load h p with
        | Some (OTriangle t) =>
            inl (Dump_entry key (Dump_triangle (dump_angle <$> angles t)))
        | _ => inr invalid_dereference
        end
    end
  else if String.eqb type (typeid_name T_bool) then
    match data c !! key with
    | None => inr out_of_range
    | Some p =>
        match load h p with
        | Some (OBool b) => inl (Dump_entry key (Dump_bool b))
        | _ => inr invalid_dereference
        end
    end
  else if String.eqb type (typeid_name T_rules) then inl (Dump_entry key Dump_rules)
  else inl (Dump_entry key Dump_nothing).

(** The loop stops at the first iteration that fails. *)
Fixpoint dump_entries (c : MemoryContext) (h : list (option object))
    (l : list (string * string)) : list dump_line + dump_failure :=
  match l with
  | [] => inl []
  | kt :: l' =>
      match dump_entry c h kt with
      | inl line =>
          match dump_entries c h l' with
          | inl lines => inl (line :: lines)
          | inr f => inr f
          end
      | inr f => inr f
      end
  end.

(** A [std::map] is visited in the order of its keys, which for
    [std::string] is the lexicographic order of the bytes. *)
Definition key_le (x y : string * string) : Prop := String.leb x.1 y.1 = true.

Global Instance key_le_dec x y : Decision (key_le x y).
Proof. unfold key_le. apply _. Defined.

Definition in_key_order (m : gmap string string) : list (string * string) :=
  merge_sort key_le (map_to_list m).

Definition print_sc_memory (s : state) : list dump_line + dump_failure :=
  match dump_entries (ctx s) (heap s) (in_key_order (types (ctx s))) with
  | inl lines => inl (Dump_header :: lines ++ [Dump_footer])
  | inr f => inr f
  end.

End Program.

(** ** Vocabulary of the properties *)

Definition count_unknown (t : Triangle) : nat :=
  length (List.filter (λ a, negb (is_known a)) (angles t)).

Definition fully_known (t : Triangle) : Prop :=
  ∀ i, is_known (nth_angle t i) = true.

Definition others (i : nat) : nat * nat :=
  match i with
  | 0 => (1, 2)
  | 1 => (0, 2)
  | _ => (0, 1)
  end.

Definition completed_value (t : Triangle) (i : nat) : float :=
  let '(j, k) := others i in
  (180 - (0 + value (nth_angle t j) + value (nth_angle t k)))%float.

Definition sum_values (t : Triangle) : float :=
  (value (angle_A t) + value (angle_B t) + value (angle_C t))%float.

Definition sums_to_180 (t : Triangle) : bool := sum_is_180 (sum_values t).

(** What a reader finds at a key: the tag, and the object pointed to. *)
Definition entry_at (s : state) (k : string)
    : option string * option (option object) :=
  (types (ctx s) !! k, load (heap s) <$> data (ctx s) !! k).

(** The tag and the pointer at a key are the same in both states. *)
Definition same_entry (k : string) (s s1 : state) : Prop :=
  types (ctx s1) !! k = types (ctx s) !! k ∧
  data (ctx s1) !! k = data (ctx s) !! k.

(** The two maps go together: a key with a pointer has a tag, and a key
    with a tag other than the empty one has a pointer. *)
Definition consistent (c : MemoryContext) : Prop :=
  (∀ k, is_Some (data c !! k) → is_Some (types c !! k)) ∧
  (∀ k tag, types c !! k = Some tag → tag ≠ "" → is_Some (data c !! k)).

End Cpp.

(** * Concrete data for the examples *)

(** [typeid(T).name()] as the Itanium C++ ABI spells it (GCC, Clang). *)
Definition itanium_name (T : Cpp.cpp_type) : string :=
  match T with
  | Cpp.T_Triangle => "8Triangle"
  | Cpp.T_bool => "b"
  | Cpp.T_rules =>
      "St3mapINSt7__cxx1112basic_stringIcSt11char_traitsIcESaIcEEES5_St4lessIS5_ESaISt4pairIKS5_S5_EEE"
  end.

Definition empty_context : Cpp.MemoryContext :=
  {| Cpp.data := ∅; Cpp.types := ∅ |}.

(** The stores [main] builds before it runs the pipeline ([sc_memory_init]
    with capacity 10, then the two stores): the triangle is the first
    object of the heap and the rule set the second. *)
Definition C_example_memory : C.sc_memory_context :=
  {| C.entries :=
       [{| C.addr := "input_triangle"; C.data := Addr 0; C.type := "triangle" |};
        {| C.addr := "rules_set"; C.data := Addr 1; C.type := "rules_set" |}];
     C.capacity := 10 |}.

Definition Cpp_example_context : Cpp.MemoryContext :=
  Cpp.store itanium_name Cpp.T_rules
    (Cpp.store itanium_name Cpp.T_Triangle empty_context "input_triangle" (Addr 0))
    "rules_set" (Addr 1).

(** The states [main] builds, for a given triangle. *)
Definition C_state_of (t : C.triangle) : C.state :=
  {| C.memory := C_example_memory;
     C.heap := [Some (C.OTriangle t); Some (C.OInt 0)] |}.

Definition Cpp_state_of (t : Cpp.Triangle) : Cpp.state :=
  {| Cpp.ctx := Cpp_example_context;
     Cpp.heap := [Some (Cpp.OTriangle t);
                  Some (Cpp.ORules {[ "right_angle_threshold" := "90.0" ]})] |}.

Definition C_triangle (a b c : float * Z) : C.triangle :=
  {| C.angle_A := {| C.value := a.1; C.is_known := a.2 |};
     C.angle_B := {| C.value := b.1; C.is_known := b.2 |};
     C.angle_C := {| C.value := c.1; C.is_known := c.2 |} |}.

Definition Cpp_triangle (a b c : float * bool) : Cpp.Triangle :=
  {| Cpp.angle_A := {| Cpp.value := a.1; Cpp.is_known := a.2 |};
     Cpp.angle_B := {| Cpp.value := b.1; Cpp.is_known := b.2 |};
     Cpp.angle_C := {| Cpp.value := c.1; Cpp.is_known := c.2 |} |}.

(** A C++ state that holds a triangle and no rule set. *)
Definition Cpp_without_rules (t : Cpp.Triangle) : Cpp.state :=
  {| Cpp.ctx := Cpp.store itanium_name Cpp.T_Triangle empty_context
                  "input_triangle" (Addr 0);
     Cpp.heap := [Some (Cpp.OTriangle t)] |}.

(** States for the examples: a triangle with no unknown angle, with two,
    the three scenarios of the specification, a triangle whose known
    values dwarf 180, and a store whose triangle key holds an [int]. *)
Definition C_complete : C.state :=
  C_state_of (C_triangle (90%float, 1%Z) (45%float, 1%Z) (45%float, 1%Z)).
Definition C_two_unknown : C.state :=
  C_state_of (C_triangle (90%float, 1%Z) (0%float, 0%Z) (0%float, 0%Z)).
Definition C_scenario_A : C.state :=
  C_state_of (C_triangle (90%float, 1%Z) (45%float, 1%Z) (0%float, 0%Z)).
Definition C_scenario_B : C.state :=
  C_state_of (C_triangle (60%float, 1%Z) (60%float, 1%Z) (0%float, 0%Z)).
Definition C_scenario_C : C.state :=
  C_state_of (C_triangle (90%float, 1%Z) (90%float, 1%Z) (0%float, 0%Z)).
Definition C_huge : C.state :=
  C_state_of (C_triangle ((-1e20)%float, 1%Z) (0%float, 1%Z) (0%float, 0%Z)).
Definition C_mistyped : C.state :=
  {| C.memory :=
       {| C.entries :=
            [{| C.addr := "input_triangle"; C.data := Addr 0; C.type := "int" |}];
          C.capacity := 10 |};
     C.heap := [Some (C.OInt 7)] |}.

Definition Cpp_complete : Cpp.state :=
  Cpp_state_of (Cpp_triangle (90%float, true) (45%float, true) (45%float, true)).
Definition Cpp_two_unknown : Cpp.state :=
  Cpp_state_of (Cpp_triangle (90%float, true) (0%float, false) (0%float, false)).
Definition Cpp_scenario_A : Cpp.state :=
  Cpp_state_of (Cpp_triangle (90%float, true) (45%float, true) (0%float, false)).
Definition Cpp_scenario_B : Cpp.state :=
  Cpp_state_of (Cpp_triangle (60%float, true) (60%float, true) (0%float, false)).
Definition Cpp_scenario_C : Cpp.state :=
  Cpp_state_of (Cpp_triangle (90%float, true) (90%float, true) (0%float, false)).
Definition Cpp_huge : Cpp.state :=
  Cpp_state_of (Cpp_triangle ((-1e20)%float, true) (0%float, true) (0%float, false)).
Definition Cpp_empty : Cpp.state :=
  {| Cpp.ctx := empty_context; Cpp.heap := [] |}.

(** * Doubles through their specification

    [Prim2SF] maps a [double] to its sign, mantissa and exponent; the
    axioms of the standard library state that the primitive operations
    compute what the specification ([SFadd], [SFsub], ...) says.  The
    value of a finite double is an integer number of units of 2^-1074. *)
Definition SFunits (x : spec_float) : Z :=
  match x with
  | S754_finite s m e => cond_Zopp s (Zpos m * 2 ^ (e + 1074))
  | _ => 0
  end%Z.

Definition SFfinite (x : spec_float) : bool :=
  match x with
  | S754_zero _ | S754_finite _ _ _ => true
  | _ => false
  end.

Definition double_units (x : float) : Z := SFunits (Prim2SF x).
Definition double_finite (x : float) : Prop := SFfinite (Prim2SF x) = true.

(** The bounds below are multiples of 2^992 units; one addition or
    subtraction of doubles below 512 is off by at most [rounding_error]. *)
Definition unit_992 : Z := 2 ^ 992.
Definition rounding_error : Z := 3 * 2 ^ 38 * unit_992.

(** * Properties *)

(** ** The heap *)
Section Heap_facts.
Context {object : Type}.
Implicit Types (h : list (option object)) (p q : pointer) (o : object).

Lemma load_write_eq h p o :
  is_Some (load h p) → load (write h p o) p = Some o.
Proof.
  destruct p as [|l]; simpl; intros [x Hx]; [discriminate|].
  destruct (h !! l) as [c|] eqn:E; [|done].
  rewrite list_lookup_insert_eq; [done|by eapply lookup_lt_Some].
Qed.

Lemma load_write_ne h p q o :
  p ≠ q → load (write h p o) q = load h q.
Proof.
  destruct p as [|l], q as [|l']; simpl; try done.
  intros Hne. rewrite list_lookup_insert_ne; [done|congruence].
Qed.

Lemma length_write h p o : length (write h p o) = length h.
Proof. destruct p; simpl; [done|apply length_insert]. Qed.

(** A cell that comes after the others leaves them readable. *)
Lemma load_app_old h (c : option object) p :
  is_Some (load h p) → load (h ++ [c]) p = load h p.
Proof.
  destruct p as [|l]; simpl; intros [x Hx]; [discriminate|].
  destruct (h !! l) as [c'|] eqn:E; [|done].
  by rewrite (lookup_app_l_Some _ _ _ _ E).
Qed.

Lemma load_alloc_old h o p :
  is_Some (load h p) → load (alloc h o).2 p = load h p.
Proof. apply load_app_old. Qed.

Lemma load_alloc_new h o : load (alloc h o).2 (alloc h o).1 = Some o.
Proof.
  simpl. rewrite lookup_app_r by done. by rewrite Nat.sub_diag.
Qed.

(** The cell of a variable that came last, once its lifetime has ended. *)
Lemma release_alloc h o : release (alloc h o).2 (alloc h o).1 = h ++ [None].
Proof.
  simpl. rewrite insert_app_r_alt by done. by rewrite Nat.sub_diag.
Qed.

(** A pointer to it dangles. *)
Lemma load_dangling h : load (h ++ [None]) (Addr (length h)) = None.
Proof.
  simpl. rewrite lookup_app_r by done. by rewrite Nat.sub_diag.
Qed.
End Heap_facts.

(** ** The store of the C program *)
Section C_store.
Import C.
Implicit Types (ctx : sc_memory_context) (es : list sc_memory_entry).
Implicit Types (a ty : string) (d : pointer).

Lemma find_entry_addr es a e : find_entry es a = Some e → addr e = a.
Proof.
  unfold find_entry. intros H. apply find_some in H as [_ H].
  by apply String.eqb_eq.
Qed.

Lemma update_entry_Some es a d ty es' :
  update_entry es a d ty = Some es' →
  ∃ e, find_entry es a = Some e ∧
       find_entry es' a = Some {| addr := addr e; data := d; type := ty |}.
Proof.
  revert es'. induction es as [|e es IH]; intros es' H; simpl in *; [done|].
  unfold find_entry in *. simpl.
  destruct (String.eqb (addr e) a) eqn:E.
  - injection H as <-. exists e. simpl. by rewrite E.
  - destruct (update_entry es a d ty) as [es1|]; [|done].
    injection H as <-. destruct (IH es1 eq_refl) as (e1 & H1 & H2).
    exists e1. simpl. by rewrite E.
Qed.

Lemma update_entry_None es a d ty :
  update_entry es a d ty = None ↔ find_entry es a = None.
Proof.
  unfold find_entry.
  induction es as [|e es IH]; simpl; [done|].
  destruct (String.eqb (addr e) a); [done|].
  destruct (update_entry es a d ty); simpl; split; try done.
  - intros H. by apply IH in H.
  - intros _. by apply IH.
Qed.

Lemma find_entry_app_new es a e :
  find_entry es a = None → addr e = a → find_entry (es ++ [e]) a = Some e.
Proof.
  unfold find_entry. intros H <-.
  induction es as [|e' es IH]; simpl in *.
  - by rewrite String.eqb_refl.
  - destruct (String.eqb (addr e') (addr e)); [done|]. by apply IH.
Qed.

Lemma update_entry_find_ne es a b d ty es' :
  a ≠ b → update_entry es a d ty = Some es' →
  find_entry es' b = find_entry es b.
Proof.
  intros Hne. revert es'.
  induction es as [|e es IH]; intros es' H; simpl in *; [done|].
  unfold find_entry in *. simpl.
  destruct (String.eqb (addr e) a) eqn:E.
  - injection H as <-. simpl. apply String.eqb_eq in E.
    destruct (String.eqb (addr e) b) eqn:E'; [|done].
    apply String.eqb_eq in E'. congruence.
  - destruct (update_entry es a d ty) as [es1|]; [|done].
    injection H as <-. simpl. destruct (String.eqb (addr e) b); [done|].
    by apply IH.
Qed.

Lemma find_entry_app_ne es b e :
  addr e ≠ b → find_entry (es ++ [e]) b = find_entry es b.
Proof.
  unfold find_entry. intros Hne.
  induction es as [|e' es IH]; simpl.
  - destruct (String.eqb (addr e) b) eqn:E; [|done].
    by apply String.eqb_eq in E.
  - by destruct (String.eqb (addr e') b).
Qed.

Lemma update_entry_addrs es a d ty es' :
  update_entry es a d ty = Some es' → map addr es' = map addr es.
Proof.
  revert es'. induction es as [|e es IH]; intros es' H; simpl in *; [done|].
  destruct (String.eqb (addr e) a).
  - by injection H as <-.
  - destruct (update_entry es a d ty) as [es1|]; [|done].
    injection H as <-. simpl. f_equal. by apply IH.
Qed.

Lemma find_entry_elem es k e : find_entry es k = Some e → e ∈ es.
Proof.
  unfold find_entry. intros H. apply find_some in H as [H _].
  by apply list_elem_of_In.
Qed.

(** The two ways a store is carried out: the entry of the key is updated
    where it is, or a new entry is written at an index below the capacity
    the array then has. *)
Lemma sc_memory_store_Some ctx a d ty ctx' :
  sc_memory_store ctx a d ty = Some ctx' →
  (update_entry (entries ctx) a d ty = Some (entries ctx') ∧
   capacity ctx' = capacity ctx) ∨
  (find_entry (entries ctx) a = None ∧
   entries ctx' = entries ctx ++ [{| addr := a; data := d; type := ty |}] ∧
   (size ctx < capacity ctx')%Z ∧
   capacity ctx' = if (size ctx >=? capacity ctx)%Z
                   then ((capacity ctx * 2) mod 2 ^ 64)%Z else capacity ctx).
Proof.
  unfold sc_memory_store.
  destruct (update_entry (entries ctx) a d ty) as [es|] eqn:E.
  - intros [= <-]. by left.
  - apply update_entry_None in E. cbv zeta.
    destruct (Z.ltb_spec (size ctx)
                (if (size ctx >=? capacity ctx)%Z
                 then ((capacity ctx * 2) mod 2 ^ 64)%Z else capacity ctx));
      [|done].
    intros [= <-]. by right.
Qed.

(** The entry a key has after a store. *)
Lemma find_entry_store_eq ctx a d ty ctx' :
  sc_memory_store ctx a d ty = Some ctx' →
  ∃ e, find_entry (entries ctx') a = Some e ∧ data e = d ∧ type e = ty.
Proof.
  intros [[H _]|(H & -> & _)]%sc_memory_store_Some.
  - apply update_entry_Some in H as (e & _ & ->). eauto.
  - eexists; split; [by apply find_entry_app_new|done].
Qed.

(** A store at one key leaves the entries at the other keys alone. *)
Lemma find_entry_store_ne ctx a b d ty ctx' :
  a ≠ b → sc_memory_store ctx a d ty = Some ctx' →
  find_entry (entries ctx') b = find_entry (entries ctx) b.
Proof.
  intros Hne [[H _]|(H & -> & _)]%sc_memory_store_Some.
  - by eapply update_entry_find_ne.
  - by apply find_entry_app_ne.
Qed.

Lemma sc_memory_get_store_eq ctx a d ty ctx' :
  sc_memory_store ctx a d ty = Some ctx' → sc_memory_get ctx' a ty = inl d.
Proof.
  intros H. unfold sc_memory_get.
  destruct (find_entry_store_eq ctx a d ty ctx' H) as (e & -> & <- & <-).
  by rewrite String.eqb_refl.
Qed.

Lemma sc_memory_get_store_ne ctx a b d ty ty' ctx' :
  a ≠ b → sc_memory_store ctx a d ty = Some ctx' →
  sc_memory_get ctx' b ty' = sc_memory_get ctx b ty'.
Proof.
  intros Hne H. unfold sc_memory_get. by rewrite (find_entry_store_ne ctx a b d ty).
Qed.

Lemma update_entry_length es a d ty es' :
  update_entry es a d ty = Some es' → length es' = length es.
Proof.
  intros H. apply update_entry_addrs in H.
  by rewrite <-(length_map addr es'), H, length_map.
Qed.


(** Within its capacity the array has room for every store, which leaves
    it within the capacity it then has. *)
Lemma sc_memory_store_capacity ctx a d ty :
  (0 < capacity ctx < 2 ^ 63)%Z → (size ctx ≤ capacity ctx)%Z →
  ∃ ctx', sc_memory_store ctx a d ty = Some ctx' ∧
          (size ctx' ≤ capacity ctx')%Z ∧
          (capacity ctx ≤ capacity ctx')%Z.
Proof.
  intros Hc Hs. unfold sc_memory_store.
  destruct (update_entry (entries ctx) a d ty) as [es|] eqn:E.
  - eexists. split; [done|]. unfold size in *. simpl.
    rewrite (update_entry_length _ _ _ _ _ E). lia.
  - cbv zeta. destruct (Z.geb_spec (size ctx) (capacity ctx)).
    + rewrite Z.mod_small by lia.
      destruct (Z.ltb_spec (size ctx) (capacity ctx * 2)); [|lia].
      eexists. split; [done|]. unfold size in *. simpl.
      rewrite length_app. simpl. lia.
    + destruct (Z.ltb_spec (size ctx) (capacity ctx)); [|lia].
      eexists. split; [done|]. unfold size in *. simpl.
      rewrite length_app. simpl. lia.
Qed.
End C_store.

(** ** The store of the C++ program *)
Section Cpp_store.
Import Cpp.
Variable typeid_name : cpp_type → string.
Implicit Types (ctx : MemoryContext) (k : string) (v : pointer) (T : cpp_type).

Lemma get_absent T ctx k :
  types ctx !! k = None → typeid_name T ≠ "" →
  get typeid_name T ctx k =
    (inr (runtime_error ("Type mismatch for SC element: " +:+ k)),
     {| data := data ctx; types := <[k := ""]> (types ctx) |}).
Proof.
  intros Hk HT. unfold get, subscript. rewrite Hk.
  destruct (String.eqb "" (typeid_name T)) eqn:E; [|done].
  apply String.eqb_eq in E. congruence.
Qed.

Lemma get_mismatch T ctx k tag :
  types ctx !! k = Some tag → tag ≠ typeid_name T →
  get typeid_name T ctx k =
    (inr (runtime_error ("Type mismatch for SC element: " +:+ k)), ctx).
Proof.
  intros Hk HT. unfold get, subscript. rewrite Hk.
  destruct (String.eqb tag (typeid_name T)) eqn:E.
  - apply String.eqb_eq in E. congruence.
  - simpl. by destruct ctx.
Qed.

Lemma get_match T ctx k p :
  types ctx !! k = Some (typeid_name T) → data ctx !! k = Some p →
  get typeid_name T ctx k = (inl p, ctx).
Proof.
  intros Hk Hp. unfold get, subscript. rewrite Hk, Hp, String.eqb_refl.
  simpl. by destruct ctx.
Qed.

Lemma get_match_no_data T ctx k :
  types ctx !! k = Some (typeid_name T) → data ctx !! k = None →
  get typeid_name T ctx k =
    (inl NULL, {| data := <[k := NULL]> (data ctx); types := types ctx |}).
Proof.
  intros Hk Hp. unfold get, subscript. by rewrite Hk, Hp, String.eqb_refl.
Qed.

End Cpp_store.

(** ** Storing and retrieving *)




(** C4, as the programs have it.  A retrieval has one failure, the type
    mismatch, and no failure of its own for an absent key:
    - in C, an absent key gives the null pointer and no failure; an entry
      with another tag prints the mismatch and stops the process; an entry
      with the requested tag gives its pointer;
    - in C++, an absent key gets the empty tag and the retrieval throws the
      same mismatch error as for an entry with another tag; an entry with
      the requested tag gives its pointer. *)
Theorem get_failure_modes (typeid_name : Cpp.cpp_type → string) :
  (∀ ctx k ty,
     C.find_entry (C.entries ctx) k = None →
     C.sc_memory_get ctx k ty = inl NULL) ∧
  (∀ ctx k ty e,
     C.find_entry (C.entries ctx) k = Some e → C.type e ≠ ty →
     C.sc_memory_get ctx k ty = inr ("Type mismatch for SC element: " +:+ k)) ∧
  (∀ ctx k ty e,
     C.find_entry (C.entries ctx) k = Some e → C.type e = ty →
     C.sc_memory_get ctx k ty = inl (C.data e)) ∧
  (∀ T ctx k,
     Cpp.types ctx !! k = None → typeid_name T ≠ "" →
     Cpp.get typeid_name T ctx k =
       (inr (Cpp.runtime_error ("Type mismatch for SC element: " +:+ k)),
        {| Cpp.data := Cpp.data ctx; Cpp.types := <[k := ""]> (Cpp.types ctx) |})) ∧
  (∀ T ctx k tag,
     Cpp.types ctx !! k = Some tag → tag ≠ typeid_name T →
     Cpp.get typeid_name T ctx k =
       (inr (Cpp.runtime_error ("Type mismatch for SC element: " +:+ k)), ctx)) ∧
  (∀ T ctx k tag,
     Cpp.types ctx !! k = Some tag → tag = typeid_name T →
     (Cpp.get typeid_name T ctx k).1 = inl (default NULL (Cpp.data ctx !! k))).
Proof.
  repeat split.
  - intros ctx k ty Hk. unfold C.sc_memory_get. by rewrite Hk.
  - intros ctx k ty e Hk Hty. unfold C.sc_memory_get. rewrite Hk.
    by destruct (String.eqb_spec (C.type e) ty).
  - intros ctx k ty e Hk Hty. unfold C.sc_memory_get. rewrite Hk.
    by destruct (String.eqb_spec (C.type e) ty).
  - intros. by apply get_absent.
  - intros. by eapply get_mismatch.
  - intros T ctx k tag Hk ->.
    destruct (Cpp.data ctx !! k) as [p|] eqn:Hp.
    + by erewrite get_match.
    + by erewrite get_match_no_data.
Qed.

Lemma get_failure_modes_witness :
  C.sc_memory_get C_example_memory "is_right_triangle" "int" = inl NULL ∧
  C.sc_memory_get C_example_memory "input_triangle" "int" =
    inr "Type mismatch for SC element: input_triangle" ∧
  C.sc_memory_get C_example_memory "input_triangle" "triangle" = inl (Addr 0) ∧
  (Cpp.get itanium_name Cpp.T_bool empty_context "k").1 =
    inr (Cpp.runtime_error "Type mismatch for SC element: k") ∧
  (Cpp.get itanium_name Cpp.T_bool Cpp_example_context "input_triangle").1 =
    inr (Cpp.runtime_error "Type mismatch for SC element: input_triangle") ∧
  (Cpp.get itanium_name Cpp.T_Triangle Cpp_example_context "input_triangle").1 =
    inl (Addr 0).
Proof.
  destruct (get_failure_modes itanium_name) as (H1 & H2 & H3 & H4 & H5 & H6).
  pose (e := {| C.addr := "input_triangle"; C.data := Addr 0;
               C.type := "triangle" |}).
  split; [by apply H1|].
  split; [by apply (H2 C_example_memory "input_triangle" "int" e)|].
  split; [by apply (H3 C_example_memory "input_triangle" "triangle" e)|].
  split; [by rewrite (H4 Cpp.T_bool empty_context "k")|].
  split.
  - by rewrite (H5 Cpp.T_bool Cpp_example_context "input_triangle" "8Triangle").
  - by rewrite (H6 Cpp.T_Triangle Cpp_example_context "input_triangle" "8Triangle").
Defined.

(** On an empty store the C retrieval does not fail at all, and the C++
    one fails with the mismatch error: neither reports a missing key. *)
Lemma get_absent_key_counterexample :
  C.find_entry (C.entries (C.sc_memory_init 10)) "k" = None ∧
  C.sc_memory_get (C.sc_memory_init 10) "k" "int" = inl NULL ∧
  Cpp.types empty_context !! "k" = None ∧
  (Cpp.get itanium_name Cpp.T_bool empty_context "k").1 =
    inr (Cpp.runtime_error "Type mismatch for SC element: k").
Proof. repeat split. Qed.

(** C10. In the C++ store a retrieval at an absent key is not read-only:
    [types[addr]] gives the key an entry with the empty tag before the
    comparison fails, so the context after the failed retrieval differs
    from the one before. *)
Theorem get_absent_key_inserts_tag (typeid_name : Cpp.cpp_type → string) T ctx k :
  Cpp.types ctx !! k = None → typeid_name T ≠ "" →
  ∃ ctx',
    Cpp.get typeid_name T ctx k =
      (inr (Cpp.runtime_error ("Type mismatch for SC element: " +:+ k)), ctx') ∧
    Cpp.types ctx' = <[k := ""]> (Cpp.types ctx) ∧
    Cpp.types ctx' !! k = Some "" ∧
    Cpp.data ctx' = Cpp.data ctx ∧
    ctx' ≠ ctx.
Proof.
  intros Hk HT. eexists. split; [by apply get_absent|]. simpl.
  split; [done|]. split; [apply lookup_insert_eq|]. split; [done|].
  intros Heq. apply (f_equal (λ c, Cpp.types c !! k)) in Heq. simpl in Heq.
  rewrite lookup_insert_eq, Hk in Heq. discriminate.
Qed.

Lemma get_absent_key_inserts_tag_witness :
  Cpp.types empty_context !! "input_triangle" = None ∧
  itanium_name Cpp.T_Triangle ≠ "" ∧
  ∃ ctx',
    Cpp.get itanium_name Cpp.T_Triangle empty_context "input_triangle" =
      (inr (Cpp.runtime_error "Type mismatch for SC element: input_triangle"), ctx') ∧
    Cpp.types ctx' = <["input_triangle" := ""]> (Cpp.types empty_context) ∧
    Cpp.types ctx' !! "input_triangle" = Some "" ∧
    Cpp.data ctx' = Cpp.data empty_context ∧
    ctx' ≠ empty_context.
Proof.
  split; [reflexivity|]. split; [discriminate|].
  apply (get_absent_key_inserts_tag itanium_name Cpp.T_Triangle empty_context
           "input_triangle"); [reflexivity|discriminate].
Defined.

(** ** The steps of the C program *)
Section C_steps.
Import C.
Implicit Types (s : state) (t : triangle) (p : pointer) (a : angle).

Lemma input_triangle_Some s t :
  input_triangle s = Some t ↔
  ∃ p, sc_memory_get (memory s) "input_triangle" "triangle" = inl p ∧
       load (heap s) p = Some (OTriangle t).
Proof.
  unfold input_triangle. split.
  - destruct (sc_memory_get _ _ _) as [p|]; [|done].
    destruct (load (heap s) p) as [[t'|]|] eqn:E; try done.
    intros [= ->]. eauto.
  - intros (p & -> & ->). done.
Qed.

(** The run of the completion step on a state that holds a triangle. *)
Lemma calculate_angles_run s p t :
  sc_memory_get (memory s) "input_triangle" "triangle" = inl p →
  load (heap s) p = Some (OTriangle t) →
  calculate_angles_agent_execute s =
    match
      (let '(unknown_count, sum_known) := tally_angles t in
       if (unknown_count =? 1)%Z then fill_first_unknown sum_known t [0; 1; 2]
       else None)
    with
    | Some (t', v) =>
        Returns SC_RESULT_OK
          {| memory := memory s; heap := write (heap s) p (OTriangle t') |}
          [sc_log (Calculated_angle v)]
    | None =>
        Returns SC_RESULT_ERROR s [sc_log (Text "Angle calculation error")]
    end.
Proof.
  intros Hget Hload.
  unfold calculate_angles_agent_execute, mbind, M_bind, bind, memory_get.
  rewrite Hget. unfold load_triangle. rewrite Hload.
  destruct (tally_angles t) as [n sum].
  destruct (if (n =? 1)%Z then _ else _) as [[t' v]|]; reflexivity.
Qed.

Lemma truthy_known a : truthy (is_known a) = true ↔ known a.
Proof.
  unfold truthy, known. destruct (Z.eqb_spec (is_known a) 0); simpl; split; try done.
Qed.

Lemma truthy_unknown a : truthy (is_known a) = false ↔ ¬ known a.
Proof. rewrite <- truthy_known. by destruct (truthy _). Qed.

(** What the two loops compute, by the number of unknown angles. *)
Lemma completion_loops t :
  match
    (let '(unknown_count, sum_known) := tally_angles t in
     if (unknown_count =? 1)%Z then fill_first_unknown sum_known t [0; 1; 2]
     else None)
  with
  | Some (t', v) =>
      count_unknown t = 1 ∧
      ∃ i, i < 3 ∧ ¬ known (nth_angle t i) ∧
           v = completed_value t i ∧
           t' = set_angle t i {| value := v; is_known := 1 |}
  | None => count_unknown t ≠ 1
  end.
Proof.
  destruct t as [[va ka] [vb kb] [vc kc]].
  unfold tally_angles, count_unknown, angles, tally, completed_value. simpl.
  destruct (truthy ka) eqn:Ea, (truthy kb) eqn:Eb, (truthy kc) eqn:Ec; simpl;
    rewrite ?Ea, ?Eb, ?Ec; simpl; try done.
  - split; [done|]. exists 2.
    split; [lia|]. split; [by apply truthy_unknown|]. by split.
  - split; [done|]. exists 1.
    split; [lia|]. split; [by apply truthy_unknown|]. by split.
  - split; [done|]. exists 0.
    split; [lia|]. split; [by apply truthy_unknown|]. by split.
Qed.

Lemma count_unknown_others t i j :
  count_unknown t = 1 → i < 3 → ¬ known (nth_angle t i) →
  j < 3 → j ≠ i → known (nth_angle t j).
Proof.
  destruct t as [[va ka] [vb kb] [vc kc]].
  unfold count_unknown, angles. simpl.
  intros Hc Hi Hu Hj Hne.
  destruct i as [|[|[|i]]], j as [|[|[|j]]]; try lia; simpl in *;
    apply truthy_unknown in Hu; simpl in Hu; rewrite Hu in Hc; simpl in Hc;
    apply truthy_known; simpl.
  all: destruct (truthy ka) eqn:Ea, (truthy kb) eqn:Eb, (truthy kc) eqn:Ec;
    simpl in *; congruence.
Qed.

Lemma set_angle_fully_known t i v :
  i < 3 → (∀ j, j < 3 → j ≠ i → known (nth_angle t j)) →
  fully_known (set_angle t i {| value := v; is_known := 1 |}).
Proof.
  intros Hi H j.
  assert (known {| value := v; is_known := 1 |}) as Hk by (by unfold known).
  pose proof (H 0) as H0. pose proof (H 1) as H1. pose proof (H 2) as H2.
  destruct i as [|[|[|i]]], j as [|[|[|j]]]; try lia; simpl in *; auto with lia.
Qed.

Lemma set_angle_other t i j a :
  ¬ known (nth_angle t i) → known (nth_angle t j) →
  nth_angle (set_angle t i a) j = nth_angle t j.
Proof.
  intros Hi Hj.
  destruct i as [|[|i]], j as [|[|j]]; simpl in *; done.
Qed.

(** The run of the classification step on a state that holds a triangle:
    it ends with the address of the dead [is_right] in the store, when the
    array of the store has room for the key. *)
Lemma check_right_angle_run s p t :
  sc_memory_get (memory s) "input_triangle" "triangle" = inl p →
  load (heap s) p = Some (OTriangle t) →
  check_right_angle_agent_execute s =
    let b := existsb is_right_angle (angles t) in
    match sc_memory_store (memory s) "is_right_triangle"
            (Addr (length (heap s))) "int" with
    | Some m =>
        Returns SC_RESULT_OK {| memory := m; heap := heap s ++ [None] |}
          (if b then [sc_log (Text "Right angle detected (90°)")] else [])
    | None => Undefined
    end.
Proof.
  intros Hget Hload.
  unfold check_right_angle_agent_execute, mbind, M_bind, bind, memory_get.
  rewrite Hget. unfold load_triangle. rewrite Hload.
  unfold angles. cbn [existsb check_from nth_angle].
  assert ((is_right ← local_int 0;
           memory_store "is_right_triangle" is_right "int";;
           end_of_lifetime is_right;;
           mret SC_RESULT_OK) s =
          match sc_memory_store (memory s) "is_right_triangle"
                  (Addr (length (heap s))) "int" with
          | Some m => Returns SC_RESULT_OK {| memory := m; heap := heap s ++ [None] |} []
          | None => Undefined
          end) as Hno.
  { unfold mbind, M_bind, bind, local_int, memory_store. simpl.
    destruct (sc_memory_store _ _ _ _) as [m|]; [|done]. simpl.
    rewrite insert_app_r_alt by done. by rewrite Nat.sub_diag. }
  assert ((is_right ← local_int 1;
           memory_store "is_right_triangle" is_right "int";;
           sc_log_event (Text "Right angle detected (90°)");;
           end_of_lifetime is_right;;
           mret SC_RESULT_OK) s =
          match sc_memory_store (memory s) "is_right_triangle"
                  (Addr (length (heap s))) "int" with
          | Some m =>
              Returns SC_RESULT_OK {| memory := m; heap := heap s ++ [None] |}
                [sc_log (Text "Right angle detected (90°)")]
          | None => Undefined
          end) as Hyes.
  { unfold mbind, M_bind, bind, local_int, memory_store. simpl.
    destruct (sc_memory_store _ _ _ _) as [m|]; [|done]. simpl.
    rewrite insert_app_r_alt by done. by rewrite Nat.sub_diag. }
  destruct (is_right_angle (angle_A t)), (is_right_angle (angle_B t)),
    (is_right_angle (angle_C t)); cbn [orb]; rewrite ?Hyes, ?Hno;
    by destruct (sc_memory_store _ _ _ _).
Qed.

(** A store at the classification key and a cell that comes after the
    others leave the triangle where it was. *)
Lemma input_triangle_after_check s m d ty c :
  is_Some (input_triangle s) →
  sc_memory_store (memory s) "is_right_triangle" d ty = Some m →
  input_triangle {| memory := m; heap := heap s ++ [c] |} = input_triangle s.
Proof.
  intros [t Ht] Hm. rewrite Ht.
  apply input_triangle_Some in Ht as (p & Hget & Hload).
  apply input_triangle_Some. exists p. simpl. split.
  - by rewrite (sc_memory_get_store_ne (memory s) "is_right_triangle"
                  "input_triangle" d ty "triangle" m).
  - rewrite <- Hload. apply load_app_old. by rewrite Hload.
Qed.

(** The pointer the classification step leaves in the store dangles: a
    reader of the classification key finds no truth value. *)
Lemma is_right_triangle_after_check s m :
  sc_memory_store (memory s) "is_right_triangle" (Addr (length (heap s))) "int"
    = Some m →
  sc_memory_get m "is_right_triangle" "int" = inl (Addr (length (heap s))) ∧
  load (heap s ++ [None]) (Addr (length (heap s))) = @None object ∧
  is_right_triangle {| memory := m; heap := heap s ++ [None] |} = None.
Proof.
  intros Hm. pose proof (sc_memory_get_store_eq _ _ _ _ _ Hm) as Hget.
  pose proof (load_dangling (heap s)) as Hd.
  split; [done|]. split; [done|].
  unfold is_right_triangle. cbn [memory heap]. by rewrite Hget, Hd.
Qed.

(** The pipeline, once the completion step returned. *)
Lemma pipeline_after_calculate s :
  triangle_processing_agent_execute s =
    match calculate_angles_agent_execute s with
    | Returns SC_RESULT_ERROR s1 out1 =>
        Returns SC_RESULT_ERROR s1
          (sc_log (Text "Starting triangle processing") :: out1)
    | Returns SC_RESULT_OK s1 out1 =>
        match check_right_angle_agent_execute s1 with
        | Returns SC_RESULT_ERROR s2 out2 =>
            Returns SC_RESULT_ERROR s2
              (sc_log (Text "Starting triangle processing") :: out1 ++ out2)
        | Returns SC_RESULT_OK s2 out2 =>
            match sc_memory_get (memory s2) "is_right_triangle" "int" with
            | inl q =>
                match load (heap s2) q with
                | Some (OInt n) =>
                    Returns SC_RESULT_OK s2
                      (sc_log (Text "Starting triangle processing") ::
                       out1 ++ out2 ++
                       [sc_log (Text (if truthy n then "Triangle is right-angled"
                                      else "Triangle is not right-angled"))])
                | _ => Undefined
                end
            | inr msg =>
                Aborts EXIT_FAILURE s2
                  (sc_log (Text "Starting triangle processing") ::
                   out1 ++ out2 ++ [stderr msg])
            end
        | Aborts e s2 out2 =>
            Aborts e s2 (sc_log (Text "Starting triangle processing") :: out1 ++ out2)
        | Undefined => Undefined
        end
    | Aborts e s1 out1 =>
        Aborts e s1 (sc_log (Text "Starting triangle processing") :: out1)
    | Undefined => Undefined
    end.
Proof.
  unfold triangle_processing_agent_execute, mbind, M_bind, bind.
  unfold sc_log_event, emit at 1.
  destruct (calculate_angles_agent_execute s) as [[] s1 out1|e s1 out1|];
    simpl; try reflexivity.
  destruct (check_right_angle_agent_execute s1) as [[] s2 out2|e s2 out2|];
    simpl; try reflexivity.
  - unfold memory_get.
    destruct (sc_memory_get (memory s2) "is_right_triangle" "int") as [q|msg];
      simpl; [|reflexivity].
    unfold load_int. by destruct (load (heap s2) q) as [[t|n]|].
  - by rewrite app_nil_r.
  - by rewrite app_nil_r.
Qed.

(** Once both steps have returned, the pipeline reads the classification
    through the pointer the classification step left, which dangles. *)
Lemma pipeline_after_calculate_OK s s1 out :
  calculate_angles_agent_execute s = Returns SC_RESULT_OK s1 out →
  is_Some (input_triangle s1) →
  triangle_processing_agent_execute s = Undefined.
Proof.
  intros Hcalc [t Ht]. rewrite pipeline_after_calculate, Hcalc.
  apply input_triangle_Some in Ht as (p & Hget & Hload).
  rewrite (check_right_angle_run s1 p t Hget Hload). cbv zeta.
  destruct (sc_memory_store _ _ _ _) as [m|] eqn:Hm; [|done].
  destruct (is_right_triangle_after_check s1 m Hm) as (Hg & Hd & _).
  cbn [memory heap]. by rewrite Hg, Hd.
Qed.
End C_steps.
(** ** The steps of the C++ program *)
Section Cpp_steps.
Import Cpp.
Variable typeid_name : cpp_type → string.
Implicit Types (s : state) (t : Triangle) (p : pointer) (a : Angle).

Local Abbreviation triangle_at := (triangle_at typeid_name).
Local Abbreviation classification_at := (classification_at typeid_name).
Local Abbreviation rules_stored := (rules_stored typeid_name).
Local Abbreviation Calculate := (CalculateAnglesAgent_execute typeid_name).
Local Abbreviation Check := (CheckRightAngleAgent_execute typeid_name).
Local Abbreviation Pipeline := (TriangleProcessingAgent_execute typeid_name).

Lemma triangle_at_Some s t :
  triangle_at s = Some t ↔
  ∃ p, types (ctx s) !! "input_triangle" = Some (typeid_name T_Triangle) ∧
       data (ctx s) !! "input_triangle" = Some p ∧
       load (heap s) p = Some (OTriangle t).
Proof.
  unfold Cpp.triangle_at. split.
  - destruct (types (ctx s) !! "input_triangle") as [tag|]; [|done].
    destruct (data (ctx s) !! "input_triangle") as [p|]; [|done].
    destruct (String.eqb_spec tag (typeid_name T_Triangle)) as [->|]; [|done].
    destruct (load (heap s) p) as [[t'| |]|] eqn:E; try done.
    intros [= ->]. eauto.
  - intros (p & -> & -> & ->). by rewrite String.eqb_refl.
Qed.

(** A retrieval leaves the entries at the other keys alone. *)
Lemma get_other T c k k' :
  k ≠ k' →
  types (get typeid_name T c k).2 !! k' = types c !! k' ∧
  data (get typeid_name T c k).2 !! k' = data c !! k'.
Proof.
  intros Hne. unfold get, subscript.
  destruct (types c !! k) as [tag|], (data c !! k) as [p|]; simpl;
    destruct (negb _); simpl; rewrite ?lookup_insert_ne by done; done.
Qed.

Lemma ctx_get_stored T k s p :
  types (ctx s) !! k = Some (typeid_name T) → data (ctx s) !! k = Some p →
  ctx_get typeid_name T k s = Returns p s [].
Proof.
  intros Ht Hd. unfold ctx_get. erewrite get_match by done. by destruct s.
Qed.

Lemma Calculate_run s p t :
  types (ctx s) !! "input_triangle" = Some (typeid_name T_Triangle) →
  data (ctx s) !! "input_triangle" = Some p →
  load (heap s) p = Some (OTriangle t) →
  rules_stored s →
  Calculate s =
    match
      (let '(unknown_count, sum_known) := tally_angles t in
       if (unknown_count =? 1)%Z then fill_first_unknown sum_known t [0; 1; 2]
       else None)
    with
    | Some (t', v) =>
        Returns Ok {| ctx := ctx s; heap := write (heap s) p (OTriangle t') |}
          [sc_log (Calculated_angle v)]
    | None => Returns Error s [sc_log (Text "Angle calculation error")]
    end.
Proof.
  intros Ht Hd Hload [Hr [q Hq]].
  unfold CalculateAnglesAgent_execute, mbind, M_bind, bind.
  rewrite (ctx_get_stored _ _ _ p), (ctx_get_stored _ _ _ q) by done.
  unfold load_triangle. rewrite Hload.
  destruct (tally_angles t) as [n sum].
  destruct (if (n =? 1)%Z then _ else _) as [[t' v]|]; reflexivity.
Qed.

Lemma Cpp_completion_loops t :
  match
    (let '(unknown_count, sum_known) := tally_angles t in
     if (unknown_count =? 1)%Z then fill_first_unknown sum_known t [0; 1; 2]
     else None)
  with
  | Some (t', v) =>
      count_unknown t = 1 ∧
      ∃ i, i < 3 ∧ is_known (nth_angle t i) = false ∧
           v = completed_value t i ∧
           t' = set_angle t i {| value := v; is_known := true |}
  | None => count_unknown t ≠ 1
  end.
Proof.
  destruct t as [[va [|]] [vb [|]] [vc [|]]];
    unfold tally_angles, count_unknown, angles, tally, completed_value; simpl;
    try done.
  - split; [done|]. exists 2. split; [lia|]. by repeat split.
  - split; [done|]. exists 1. split; [lia|]. by repeat split.
  - split; [done|]. exists 0. split; [lia|]. by repeat split.
Qed.

Lemma Cpp_count_unknown_others t i j :
  count_unknown t = 1 → i < 3 → is_known (nth_angle t i) = false →
  j < 3 → j ≠ i → is_known (nth_angle t j) = true.
Proof.
  destruct t as [[va [|]] [vb [|]] [vc [|]]];
    unfold count_unknown, angles; simpl; intros Hc Hi Hu Hj Hne;
    destruct i as [|[|[|i]]], j as [|[|[|j]]]; simpl in *; try lia; congruence.
Qed.

Lemma Cpp_set_angle_fully_known t i v :
  i < 3 → (∀ j, j < 3 → j ≠ i → is_known (nth_angle t j) = true) →
  fully_known (set_angle t i {| value := v; is_known := true |}).
Proof.
  intros Hi H j.
  pose proof (H 0) as H0. pose proof (H 1) as H1. pose proof (H 2) as H2.
  destruct i as [|[|[|i]]], j as [|[|[|j]]]; try lia; simpl in *; auto with lia.
Qed.

Lemma Cpp_set_angle_other t i j a :
  is_known (nth_angle t i) = false → is_known (nth_angle t j) = true →
  nth_angle (set_angle t i a) j = nth_angle t j.
Proof.
  intros Hi Hj.
  destruct i as [|[|i]], j as [|[|j]]; simpl in *; congruence.
Qed.

(** The loop of the classification step: it ends with the address of the
    dead [is_right] in the context. *)
Lemma check_from_run t s :
  check_from typeid_name t [0; 1; 2] s =
    let b := existsb is_right_angle (angles t) in
    Returns Ok
      {| ctx := store typeid_name T_bool (ctx s) "is_right_triangle"
                  (Addr (length (heap s)));
         heap := heap s ++ [None] |}
      (if b then [sc_log (Text "Right angle detected (90°)")] else []).
Proof.
  unfold angles. cbn [existsb check_from nth_angle].
  assert (∀ b,
            (is_right ← local_bool b;
             ctx_store typeid_name T_bool "is_right_triangle" is_right;;
             end_of_lifetime is_right;;
             mret Ok) s =
            Returns Ok
              {| ctx := store typeid_name T_bool (ctx s) "is_right_triangle"
                          (Addr (length (heap s)));
                 heap := heap s ++ [None] |} []) as Hno.
  { intros b. unfold mbind, M_bind, bind, local_bool, ctx_store. simpl.
    rewrite insert_app_r_alt by done. by rewrite Nat.sub_diag. }
  assert (∀ b,
            (is_right ← local_bool b;
             ctx_store typeid_name T_bool "is_right_triangle" is_right;;
             log_sc_event (Text "Right angle detected (90°)");;
             end_of_lifetime is_right;;
             mret Ok) s =
            Returns Ok
              {| ctx := store typeid_name T_bool (ctx s) "is_right_triangle"
                          (Addr (length (heap s)));
                 heap := heap s ++ [None] |}
              [sc_log (Text "Right angle detected (90°)")]) as Hyes.
  { intros b. unfold mbind, M_bind, bind, local_bool, ctx_store. simpl.
    rewrite insert_app_r_alt by done. by rewrite Nat.sub_diag. }
  destruct (is_right_angle (angle_A t)), (is_right_angle (angle_B t)),
    (is_right_angle (angle_C t)); cbn [orb]; by rewrite ?Hyes, ?Hno.
Qed.

Lemma Check_run s p t :
  types (ctx s) !! "input_triangle" = Some (typeid_name T_Triangle) →
  data (ctx s) !! "input_triangle" = Some p →
  load (heap s) p = Some (OTriangle t) →
  rules_stored s →
  Check s =
    let b := existsb is_right_angle (angles t) in
    Returns Ok
      {| ctx := store typeid_name T_bool (ctx s) "is_right_triangle"
                  (Addr (length (heap s)));
         heap := heap s ++ [None] |}
      (if b then [sc_log (Text "Right angle detected (90°)")] else []).
Proof.
  intros Ht Hd Hload [Hr [q Hq]].
  unfold CheckRightAngleAgent_execute, mbind, M_bind, bind.
  rewrite (ctx_get_stored _ _ _ p), (ctx_get_stored _ _ _ q) by done.
  unfold load_triangle. rewrite Hload, check_from_run. cbv zeta.
  by destruct (existsb _ _).
Qed.

Lemma triangle_at_after_Check s c :
  is_Some (triangle_at s) →
  triangle_at
    {| ctx := store typeid_name T_bool (ctx s) "is_right_triangle"
                (Addr (length (heap s)));
       heap := heap s ++ [c] |} = triangle_at s.
Proof.
  intros [t Ht]. rewrite Ht.
  apply triangle_at_Some in Ht as (p & Htag & Hp & Hload).
  apply triangle_at_Some. exists p. simpl.
  rewrite !lookup_insert_ne by done. repeat split; try done.
  rewrite <- Hload. apply load_app_old. by rewrite Hload.
Qed.

(** The pointer the classification step leaves in the context dangles: a
    reader of the classification key finds no truth value. *)
Lemma classification_at_after_Check c h :
  classification_at
    {| ctx := store typeid_name T_bool c "is_right_triangle" (Addr (length h));
       heap := h ++ [None] |} = None.
Proof.
  unfold Cpp.classification_at. cbn [ctx heap types data store].
  rewrite !lookup_insert_eq, String.eqb_refl.
  by rewrite (load_dangling (object := object) h).
Qed.

Lemma Pipeline_after_Calculate s :
  Pipeline s =
    match Calculate s with
    | Returns Error s1 out1 =>
        Returns Error s1 (sc_log (Text "Starting triangle processing") :: out1)
    | Returns Ok s1 out1 =>
        match Check s1 with
        | Returns Error s2 out2 =>
            Returns Error s2
              (sc_log (Text "Starting triangle processing") :: out1 ++ out2)
        | Returns Ok s2 out2 =>
            match ctx_get typeid_name T_bool "is_right_triangle" s2 with
            | Returns q s3 out3 =>
                match load (heap s3) q with
                | Some (OBool b) =>
                    Returns Ok s3
                      (sc_log (Text "Starting triangle processing") ::
                       out1 ++ out2 ++ out3 ++
                       [sc_log (Text (if b then "Triangle is right-angled"
                                      else "Triangle is not right-angled"))])
                | _ => Undefined
                end
            | Aborts e s3 out3 =>
                Aborts e s3
                  (sc_log (Text "Starting triangle processing") ::
                   out1 ++ out2 ++ out3)
            | Undefined => Undefined
            end
        | Aborts e s2 out2 =>
            Aborts e s2 (sc_log (Text "Starting triangle processing") :: out1 ++ out2)
        | Undefined => Undefined
        end
    | Aborts e s1 out1 =>
        Aborts e s1 (sc_log (Text "Starting triangle processing") :: out1)
    | Undefined => Undefined
    end.
Proof.
  unfold TriangleProcessingAgent_execute, mbind, M_bind, bind.
  unfold log_sc_event, emit at 1.
  destruct (Calculate s) as [[] s1 out1|e s1 out1|]; simpl; try reflexivity.
  destruct (Check s1) as [[] s2 out2|e s2 out2|]; simpl; try reflexivity.
  - destruct (ctx_get typeid_name T_bool "is_right_triangle" s2)
      as [q s3 out3|e s3 out3|]; simpl; try reflexivity.
    unfold load_bool. by destruct (load (heap s3) q) as [[t|b|r]|].
  - by rewrite app_nil_r.
  - by rewrite app_nil_r.
Qed.

(** Once both steps have returned, the pipeline reads the classification
    through the pointer the classification step left, which dangles. *)
Lemma Pipeline_after_Check s s1 out1 c h out2 :
  Calculate s = Returns Ok s1 out1 →
  Check s1 =
    Returns Ok
      {| ctx := store typeid_name T_bool c "is_right_triangle" (Addr (length h));
         heap := h ++ [None] |} out2 →
  Pipeline s = Undefined.
Proof.
  intros Hcalc Hcheck. rewrite Pipeline_after_Calculate, Hcalc, Hcheck.
  unfold ctx_get. cbn [ctx heap].
  rewrite (get_match typeid_name T_bool _ "is_right_triangle" (Addr (length h)))
    by (simpl; apply lookup_insert_eq).
  cbn [heap]. by rewrite (load_dangling (object := object) h).
Qed.
End Cpp_steps.

(** ** Frames of the steps *)
Section C_frames.
Import C.
Implicit Types (s : state) (t : triangle).

(** The completion step leaves the state as it was unless it returns
    success, and never touches the store itself. *)
Lemma calculate_angles_frame s :
  match calculate_angles_agent_execute s with
  | Returns SC_RESULT_OK s1 _ =>
      memory s1 = memory s ∧ is_Some (input_triangle s)
  | Returns SC_RESULT_ERROR s1 out =>
      s1 = s ∧ out = [sc_log (Text "Angle calculation error")] ∧
      is_Some (input_triangle s)
  | Aborts _ s1 _ => s1 = s
  | Undefined => True
  end.
Proof.
  destruct (sc_memory_get (memory s) "input_triangle" "triangle") as [p|msg] eqn:Hget.
  - destruct (load (heap s) p) as [[t|n]|] eqn:Hload.
    + assert (input_triangle s = Some t) as Ht
        by (apply input_triangle_Some; eauto).
      rewrite (calculate_angles_run s p t Hget Hload), Ht.
      destruct (let '(_, _) := tally_angles t in _) as [[t' v]|]; simpl; eauto.
    + unfold calculate_angles_agent_execute, mbind, M_bind, bind, memory_get.
      rewrite Hget. unfold load_triangle. by rewrite Hload.
    + unfold calculate_angles_agent_execute, mbind, M_bind, bind, memory_get.
      rewrite Hget. unfold load_triangle. by rewrite Hload.
  - unfold calculate_angles_agent_execute, mbind, M_bind, bind, memory_get.
    by rewrite Hget.
Qed.

Lemma check_right_angle_frame s :
  match check_right_angle_agent_execute s with
  | Returns r s1 _ =>
      r = SC_RESULT_OK ∧ input_triangle s1 = input_triangle s ∧
      is_Some (input_triangle s) ∧ length (heap s1) = S (length (heap s))
  | Aborts _ s1 _ => s1 = s
  | Undefined => True
  end.
Proof.
  destruct (sc_memory_get (memory s) "input_triangle" "triangle") as [p|msg] eqn:Hget.
  - destruct (load (heap s) p) as [[t|n]|] eqn:Hload.
    + assert (input_triangle s = Some t) as Ht
        by (apply input_triangle_Some; eauto).
      rewrite (check_right_angle_run s p t Hget Hload). cbv zeta.
      destruct (sc_memory_store _ _ _ _) as [m|] eqn:Hm; [|done].
      rewrite (input_triangle_after_check s m _ _ None) by (by rewrite ?Ht).
      cbn [heap]. rewrite length_app. simpl. repeat split; eauto with lia.
    + unfold check_right_angle_agent_execute, mbind, M_bind, bind, memory_get.
      rewrite Hget. unfold load_triangle. by rewrite Hload.
    + unfold check_right_angle_agent_execute, mbind, M_bind, bind, memory_get.
      rewrite Hget. unfold load_triangle. by rewrite Hload.
  - unfold check_right_angle_agent_execute, mbind, M_bind, bind, memory_get.
    by rewrite Hget.
Qed.
End C_frames.

Section Cpp_frames.
Import Cpp.
Variable typeid_name : cpp_type → string.
Implicit Types (s : state) (t : Triangle).

Local Abbreviation triangle_at := (triangle_at typeid_name).
Local Abbreviation Calculate := (CalculateAnglesAgent_execute typeid_name).
Local Abbreviation Check := (CheckRightAngleAgent_execute typeid_name).

(** The state a retrieval at another key leaves holds the same triangle. *)
Lemma triangle_at_get T s k :
  k ≠ "input_triangle" →
  triangle_at {| ctx := (get typeid_name T (ctx s) k).2; heap := heap s |}
  = triangle_at s.
Proof.
  intros Hne. unfold Cpp.triangle_at. simpl.
  by destruct (get_other typeid_name T (ctx s) k "input_triangle" Hne) as [-> ->].
Qed.

(** The completion step on a state that holds a triangle, whether or not
    the rule set is there. *)
Lemma Calculate_run_triangle s p t :
  types (ctx s) !! "input_triangle" = Some (typeid_name T_Triangle) →
  data (ctx s) !! "input_triangle" = Some p →
  load (heap s) p = Some (OTriangle t) →
  Calculate s =
    match get typeid_name T_rules (ctx s) "rules_set" with
    | (inl q, c) =>
        match
          (let '(unknown_count, sum_known) := tally_angles t in
           if (unknown_count =? 1)%Z then fill_first_unknown sum_known t [0; 1; 2]
           else None)
        with
        | Some (t', v) =>
            Returns Ok {| ctx := c; heap := write (heap s) p (OTriangle t') |}
              [sc_log (Calculated_angle v)]
        | None =>
            Returns Error {| ctx := c; heap := heap s |}
              [sc_log (Text "Angle calculation error")]
        end
    | (inr e, c) => Aborts e {| ctx := c; heap := heap s |} []
    end.
Proof.
  intros Ht Hd Hload.
  unfold CalculateAnglesAgent_execute, mbind, M_bind, bind.
  rewrite (ctx_get_stored _ _ _ _ p) by done.
  unfold ctx_get at 1.
  destruct (get typeid_name T_rules (ctx s) "rules_set") as [[q|e] c]; [|done].
  unfold load_triangle. simpl. rewrite Hload.
  destruct (tally_angles t) as [n sum].
  destruct (if (n =? 1)%Z then _ else _) as [[t' v]|]; reflexivity.
Qed.

Lemma Check_run_triangle s p t :
  types (ctx s) !! "input_triangle" = Some (typeid_name T_Triangle) →
  data (ctx s) !! "input_triangle" = Some p →
  load (heap s) p = Some (OTriangle t) →
  Check s =
    match get typeid_name T_rules (ctx s) "rules_set" with
    | (inl q, c) =>
        let b := existsb is_right_angle (angles t) in
        Returns Ok
          {| ctx := store typeid_name T_bool c "is_right_triangle"
                      (Addr (length (heap s)));
             heap := heap s ++ [None] |}
          (if b then [sc_log (Text "Right angle detected (90°)")] else [])
    | (inr e, c) => Aborts e {| ctx := c; heap := heap s |} []
    end.
Proof.
  intros Ht Hd Hload.
  unfold CheckRightAngleAgent_execute, mbind, M_bind, bind.
  rewrite (ctx_get_stored _ _ _ _ p) by done.
  unfold ctx_get at 1.
  destruct (get typeid_name T_rules (ctx s) "rules_set") as [[q|e] c]; [|done].
  unfold load_triangle. cbn [heap]. rewrite Hload, check_from_run. cbv zeta.
  cbn [heap ctx]. by destruct (existsb _ _).
Qed.

(** The completion step never touches the entry of the classification key,
    and leaves the heap as it was unless it returns success. *)
Lemma Calculate_frame s :
  match Calculate s with
  | Returns Ok s1 _ =>
      types (ctx s1) !! "is_right_triangle" = types (ctx s) !! "is_right_triangle" ∧
      data (ctx s1) !! "is_right_triangle" = data (ctx s) !! "is_right_triangle"
  | Returns Error s1 _ | Aborts _ s1 _ =>
      types (ctx s1) !! "is_right_triangle" = types (ctx s) !! "is_right_triangle" ∧
      data (ctx s1) !! "is_right_triangle" = data (ctx s) !! "is_right_triangle" ∧
      heap s1 = heap s
  | Undefined => True
  end.
Proof.
  unfold CalculateAnglesAgent_execute, mbind, M_bind, bind, ctx_get.
  assert ("input_triangle" ≠ "is_right_triangle") as Hne1 by done.
  assert ("rules_set" ≠ "is_right_triangle") as Hne2 by done.
  pose proof (get_other typeid_name T_Triangle (ctx s) _ _ Hne1) as [H1 H1'].
  destruct (get typeid_name T_Triangle (ctx s) "input_triangle") as [[p|e] c1];
    simpl in *; [|done].
  pose proof (get_other typeid_name T_rules c1 _ _ Hne2) as [H2 H2'].
  destruct (get typeid_name T_rules c1 "rules_set") as [[q|e] c2];
    simpl in *; [|by rewrite H2, H2'].
  unfold load_triangle. simpl.
  destruct (load (heap s) p) as [[t| |]|]; try done.
  destruct (tally_angles t) as [n sum].
  destruct (if (n =? 1)%Z then _ else _) as [[t' v]|]; simpl;
    by rewrite H2, H2'.
Qed.

(** A run of the classification step that returns leaves a new cell in the
    heap: a state with the heap it started from has not been through it. *)
Lemma Check_frame s :
  match Check s with
  | Returns r s1 _ => r = Ok ∧ length (heap s1) = S (length (heap s))
  | Aborts _ s1 _ => heap s1 = heap s
  | Undefined => True
  end.
Proof.
  unfold CheckRightAngleAgent_execute, mbind, M_bind, bind, ctx_get.
  destruct (get typeid_name T_Triangle (ctx s) "input_triangle") as [[p|e] c1];
    [|done].
  cbn [ctx heap].
  destruct (get typeid_name T_rules c1 "rules_set") as [[q|e] c2]; [|done].
  unfold load_triangle. cbn [heap].
  destruct (load (heap s) p) as [[t| |]|]; try done.
  rewrite check_from_run. cbv zeta. cbn [heap].
  rewrite length_app. simpl. split; (done || lia).
Qed.
End Cpp_frames.

(** ** The completion step fails without a trace *)

(** C5, as the programs have it.  When the triangle has no unknown angle,
    or two or more, the completion step of the C program returns failure
    and the state it leaves is the state it started from: the angles are
    unchanged and no key of the store is written.  So does the step of the
    C++ program when the rule set is stored.  The C++ step fetches the rule
    set before it counts the angles: when the rule-set key is absent it
    throws the mismatch error instead of returning failure, and the failed
    retrieval has given that key the empty tag; the triangle and the entry
    of the classification key are as before. *)
Theorem completion_failure_leaves_state (typeid_name : Cpp.cpp_type → string) :
  (∀ s t,
     C.input_triangle s = Some t →
     C.count_unknown t = 0 ∨ 2 ≤ C.count_unknown t →
     C.calculate_angles_agent_execute s =
       Returns C.SC_RESULT_ERROR s [sc_log (Text "Angle calculation error")]) ∧
  (∀ s t,
     Cpp.triangle_at typeid_name s = Some t →
     Cpp.rules_stored typeid_name s →
     Cpp.count_unknown t = 0 ∨ 2 ≤ Cpp.count_unknown t →
     Cpp.CalculateAnglesAgent_execute typeid_name s =
       Returns Cpp.Error s [sc_log (Text "Angle calculation error")]) ∧
  (∀ s t,
     Cpp.triangle_at typeid_name s = Some t →
     Cpp.types (Cpp.ctx s) !! "rules_set" = None →
     typeid_name Cpp.T_rules ≠ "" →
     let s' := {| Cpp.ctx := {| Cpp.data := Cpp.data (Cpp.ctx s);
                                Cpp.types := <["rules_set" := ""]>
                                               (Cpp.types (Cpp.ctx s)) |};
                  Cpp.heap := Cpp.heap s |} in
     Cpp.CalculateAnglesAgent_execute typeid_name s =
       Aborts (Cpp.runtime_error "Type mismatch for SC element: rules_set") s' [] ∧
     Cpp.triangle_at typeid_name s' = Some t ∧
     Cpp.entry_at s' "is_right_triangle" = Cpp.entry_at s "is_right_triangle").
Proof.
  split; [|split].
  - intros s t Ht Hc. apply input_triangle_Some in Ht as (p & Hget & Hload).
    rewrite (calculate_angles_run s p t Hget Hload).
    pose proof (completion_loops t) as H.
    destruct (let '(_, _) := C.tally_angles t in _) as [[t' v]|]; [|done].
    destruct H as [H _]. lia.
  - intros s t Ht Hr Hc.
    apply triangle_at_Some in Ht as (p & Htag & Hp & Hload).
    rewrite (Calculate_run typeid_name s p t Htag Hp Hload Hr).
    pose proof (Cpp_completion_loops t) as H.
    destruct (let '(_, _) := Cpp.tally_angles t in _) as [[t' v]|]; [|done].
    destruct H as [H _]. lia.
  - intros s t Ht Hk HT s'.
    apply triangle_at_Some in Ht as (p & Htag & Hp & Hload).
    split; [|split].
    + rewrite (Calculate_run_triangle typeid_name s p t Htag Hp Hload).
      by rewrite (get_absent typeid_name _ _ _ Hk HT).
    + apply triangle_at_Some. exists p. simpl.
      by rewrite lookup_insert_ne by done.
    + unfold Cpp.entry_at. simpl. by rewrite lookup_insert_ne by done.
Qed.

Lemma completion_failure_leaves_state_witness :
  C.calculate_angles_agent_execute C_complete =
    Returns C.SC_RESULT_ERROR C_complete
      [sc_log (Text "Angle calculation error")] ∧
  Cpp.CalculateAnglesAgent_execute itanium_name Cpp_two_unknown =
    Returns Cpp.Error Cpp_two_unknown [sc_log (Text "Angle calculation error")] ∧
  Cpp.CalculateAnglesAgent_execute itanium_name
    (Cpp_without_rules
       (Cpp_triangle (90%float, true) (0%float, false) (0%float, false))) =
    Aborts (Cpp.runtime_error "Type mismatch for SC element: rules_set")
      {| Cpp.ctx :=
           {| Cpp.data := {[ "input_triangle" := Addr 0 ]};
              Cpp.types := <["rules_set" := ""]>
                             {[ "input_triangle" := "8Triangle" ]} |};
         Cpp.heap :=
           [Some (Cpp.OTriangle
                    (Cpp_triangle (90%float, true) (0%float, false)
                       (0%float, false)))] |} [].
Proof.
  destruct (completion_failure_leaves_state itanium_name) as (H1 & H2 & H3).
  split; [|split].
  - eapply H1; [reflexivity|]. left. reflexivity.
  - eapply H2; [reflexivity| |].
    + split; [reflexivity|]. eexists. reflexivity.
    + right. vm_compute. lia.
  - refine (proj1 (H3 (Cpp_without_rules _) _ _ _ _)); [reflexivity|reflexivity|done].
Defined.

(** On a fully known triangle stored without a rule set the C++ step does
    not return failure: it throws, and the state it leaves is not the one
    it started from, the rule-set key having got the empty tag. *)
Lemma completion_failure_counterexample :
  Cpp.triangle_at itanium_name
    (Cpp_without_rules
       (Cpp_triangle (90%float, true) (45%float, true) (45%float, true))) =
    Some (Cpp_triangle (90%float, true) (45%float, true) (45%float, true)) ∧
  Cpp.count_unknown
    (Cpp_triangle (90%float, true) (45%float, true) (45%float, true)) = 0 ∧
  ∃ s1,
    Cpp.CalculateAnglesAgent_execute itanium_name
      (Cpp_without_rules
         (Cpp_triangle (90%float, true) (45%float, true) (45%float, true))) =
      Aborts (Cpp.runtime_error "Type mismatch for SC element: rules_set") s1 [] ∧
    Cpp.types (Cpp.ctx s1) !! "rules_set" = Some "" ∧
    Cpp.types
      (Cpp.ctx
         (Cpp_without_rules
            (Cpp_triangle (90%float, true) (45%float, true) (45%float, true))))
      !! "rules_set" = None ∧
    s1 ≠ Cpp_without_rules
           (Cpp_triangle (90%float, true) (45%float, true) (45%float, true)).
Proof.
  split; [reflexivity|]. split; [reflexivity|].
  eexists. split; [reflexivity|]. split; [reflexivity|]. split; [reflexivity|].
  intros H. apply (f_equal (λ s, Cpp.types (Cpp.ctx s) !! "rules_set")) in H.
  vm_compute in H. discriminate.
Qed.

(** ** The pipeline stops at a failed completion *)

(** C6. Whenever the completion step fails, the pipeline hands the failure
    to its caller in the state the step left, with nothing printed after
    the step's own output: the classification step is not run (it would
    have left a new cell in the heap, see [check_right_angle_frame] and
    [Check_frame]; the heap is the initial one), and the entry of the
    classification key is the one the initial store had.  The same holds
    when the step stops the process or throws. *)
Theorem pipeline_stops_on_completion_failure (typeid_name : Cpp.cpp_type → string) :
  (∀ s s1 out,
     C.calculate_angles_agent_execute s = Returns C.SC_RESULT_ERROR s1 out →
     C.triangle_processing_agent_execute s =
       Returns C.SC_RESULT_ERROR s1
         (sc_log (Text "Starting triangle processing") :: out) ∧
     s1 = s) ∧
  (∀ s e s1 out,
     C.calculate_angles_agent_execute s = Aborts e s1 out →
     C.triangle_processing_agent_execute s =
       Aborts e s1 (sc_log (Text "Starting triangle processing") :: out) ∧
     s1 = s) ∧
  (∀ s s1 out,
     Cpp.CalculateAnglesAgent_execute typeid_name s = Returns Cpp.Error s1 out →
     Cpp.TriangleProcessingAgent_execute typeid_name s =
       Returns Cpp.Error s1 (sc_log (Text "Starting triangle processing") :: out) ∧
     Cpp.heap s1 = Cpp.heap s ∧
     Cpp.entry_at s1 "is_right_triangle" = Cpp.entry_at s "is_right_triangle") ∧
  (∀ s e s1 out,
     Cpp.CalculateAnglesAgent_execute typeid_name s = Aborts e s1 out →
     Cpp.TriangleProcessingAgent_execute typeid_name s =
       Aborts e s1 (sc_log (Text "Starting triangle processing") :: out) ∧
     Cpp.heap s1 = Cpp.heap s ∧
     Cpp.entry_at s1 "is_right_triangle" = Cpp.entry_at s "is_right_triangle").
Proof.
  repeat split.
  - by rewrite pipeline_after_calculate, H.
  - pose proof (calculate_angles_frame s) as Hf. rewrite H in Hf. by destruct Hf.
  - by rewrite pipeline_after_calculate, H.
  - pose proof (calculate_angles_frame s) as Hf. by rewrite H in Hf.
  - by rewrite Pipeline_after_Calculate, H.
  - pose proof (Calculate_frame typeid_name s) as Hf. rewrite H in Hf.
    by destruct Hf as (Ht & Hd & Hh).
  - pose proof (Calculate_frame typeid_name s) as Hf. rewrite H in Hf.
    destruct Hf as (Ht & Hd & Hh). unfold Cpp.entry_at. by rewrite Ht, Hd, Hh.
  - by rewrite Pipeline_after_Calculate, H.
  - pose proof (Calculate_frame typeid_name s) as Hf. rewrite H in Hf.
    by destruct Hf as (Ht & Hd & Hh).
  - pose proof (Calculate_frame typeid_name s) as Hf. rewrite H in Hf.
    destruct Hf as (Ht & Hd & Hh). unfold Cpp.entry_at. by rewrite Ht, Hd, Hh.
Qed.

Lemma pipeline_stops_on_completion_failure_witness :
  C.triangle_processing_agent_execute C_complete =
    Returns C.SC_RESULT_ERROR C_complete
      [sc_log (Text "Starting triangle processing");
       sc_log (Text "Angle calculation error")] ∧
  C.triangle_processing_agent_execute C_mistyped =
    Aborts C.EXIT_FAILURE C_mistyped
      [sc_log (Text "Starting triangle processing");
       stderr "Type mismatch for SC element: input_triangle"] ∧
  Cpp.TriangleProcessingAgent_execute itanium_name Cpp_two_unknown =
    Returns Cpp.Error Cpp_two_unknown
      [sc_log (Text "Starting triangle processing");
       sc_log (Text "Angle calculation error")] ∧
  Cpp.TriangleProcessingAgent_execute itanium_name Cpp_empty =
    Aborts (Cpp.runtime_error "Type mismatch for SC element: input_triangle")
      {| Cpp.ctx := {| Cpp.data := ∅;
                       Cpp.types := {[ "input_triangle" := "" ]} |};
         Cpp.heap := [] |}
      [sc_log (Text "Starting triangle processing")].
Proof.
  destruct (pipeline_stops_on_completion_failure itanium_name)
    as (H1 & H2 & H3 & H4).
  split; [|split; [|split]].
  - by apply (H1 C_complete C_complete [sc_log (Text "Angle calculation error")]).
  - by apply (H2 C_mistyped C.EXIT_FAILURE C_mistyped
                [stderr "Type mismatch for SC element: input_triangle"]).
  - by apply (H3 Cpp_two_unknown Cpp_two_unknown
                [sc_log (Text "Angle calculation error")]).
  - by apply (H4 Cpp_empty
                (Cpp.runtime_error "Type mismatch for SC element: input_triangle")
                _ []).
Defined.

(** ** Known angles stay as they are *)

(** C7. Whatever an execution of either step does, an angle that was known
    before is known after it with the same value: the state the step ends
    in holds a triangle that agrees with the initial one at every known
    angle.  The step always ends in a state when a triangle is stored; for
    the classification step of the C program, which appends to the array
    of the store, that needs the array to be within its capacity. *)
Theorem known_angles_immutable (typeid_name : Cpp.cpp_type → string) :
  (∀ s t,
     C.input_triangle s = Some t →
     ∃ s1 t1,
       final_state (C.calculate_angles_agent_execute s) = Some s1 ∧
       C.input_triangle s1 = Some t1 ∧
       ∀ i, C.known (C.nth_angle t i) → C.nth_angle t1 i = C.nth_angle t i) ∧
  (∀ s t,
     C.input_triangle s = Some t →
     (∀ s1, final_state (C.check_right_angle_agent_execute s) = Some s1 →
            C.input_triangle s1 = Some t) ∧
     (C.within_capacity (C.memory s) →
      ∃ s1, final_state (C.check_right_angle_agent_execute s) = Some s1)) ∧
  (∀ s t,
     Cpp.triangle_at typeid_name s = Some t →
     ∃ s1 t1,
       final_state (Cpp.CalculateAnglesAgent_execute typeid_name s) = Some s1 ∧
       Cpp.triangle_at typeid_name s1 = Some t1 ∧
       ∀ i, Cpp.is_known (Cpp.nth_angle t i) = true →
            Cpp.nth_angle t1 i = Cpp.nth_angle t i) ∧
  (∀ s t,
     Cpp.triangle_at typeid_name s = Some t →
     ∃ s1,
       final_state (Cpp.CheckRightAngleAgent_execute typeid_name s) = Some s1 ∧
       Cpp.triangle_at typeid_name s1 = Some t).
Proof.
  split; [|split; [|split]].
  - intros s t Ht. pose proof Ht as Ht'.
    apply input_triangle_Some in Ht' as (p & Hget & Hload).
    rewrite (calculate_angles_run s p t Hget Hload).
    pose proof (completion_loops t) as H.
    destruct (let '(_, _) := C.tally_angles t in _) as [[t' v]|]; simpl.
    + destruct H as (_ & i & Hi & Hu & -> & ->).
      eexists _, _. split; [done|]. split.
      * apply input_triangle_Some. exists p. simpl. split; [done|].
        apply load_write_eq. by rewrite Hload.
      * intros j Hj. by apply set_angle_other.
    + by exists s, t.
  - intros s t Ht. pose proof Ht as Ht'.
    apply input_triangle_Some in Ht' as (p & Hget & Hload).
    rewrite (check_right_angle_run s p t Hget Hload). cbv zeta. split.
    + intros s1.
      destruct (C.sc_memory_store _ _ _ _) as [m|] eqn:Hm; [|done].
      intros [= <-].
      rewrite (input_triangle_after_check s m _ _ None ltac:(by rewrite Ht) Hm).
      done.
    + intros [Hc Hs].
      destruct (sc_memory_store_capacity (C.memory s) "is_right_triangle"
                  (Addr (length (C.heap s))) "int" Hc Hs) as (m & Hm & _).
      rewrite Hm. by eexists.
  - intros s t Ht. pose proof Ht as Ht'.
    apply triangle_at_Some in Ht' as (p & Htag & Hp & Hload).
    rewrite (Calculate_run_triangle typeid_name s p t Htag Hp Hload).
    pose proof (triangle_at_get typeid_name Cpp.T_rules s "rules_set") as Hg.
    pose proof (get_other typeid_name Cpp.T_rules (Cpp.ctx s) "rules_set"
                  "input_triangle" ltac:(done)) as [Hty Hda].
    destruct (Cpp.get typeid_name Cpp.T_rules (Cpp.ctx s) "rules_set")
      as [[q|e] c]; simpl in *.
    + pose proof (Cpp_completion_loops t) as H.
      destruct (let '(_, _) := Cpp.tally_angles t in _) as [[t' v]|]; simpl.
      * destruct H as (_ & i & Hi & Hu & -> & ->).
        eexists _, _. split; [done|]. split.
        -- apply triangle_at_Some. exists p. simpl.
           rewrite Hty, Hda. repeat split; try done.
           apply load_write_eq. by rewrite Hload.
        -- intros j Hj. by apply Cpp_set_angle_other.
      * eexists _, t. split; [done|]. split; [|done].
        rewrite Hg by done. done.
    + eexists _, t. split; [done|]. split; [|done]. by rewrite Hg.
  - intros s t Ht. pose proof Ht as Ht'.
    apply triangle_at_Some in Ht' as (p & Htag & Hp & Hload).
    rewrite (Check_run_triangle typeid_name s p t Htag Hp Hload).
    pose proof (triangle_at_get typeid_name Cpp.T_rules s "rules_set") as Hg.
    destruct (Cpp.get typeid_name Cpp.T_rules (Cpp.ctx s) "rules_set")
      as [[q|e] c]; simpl in *.
    + eexists. split; [done|].
      rewrite <- Ht, <- Hg by done.
      apply (triangle_at_after_Check typeid_name
               {| Cpp.ctx := c; Cpp.heap := Cpp.heap s |}).
      rewrite Hg by done. by rewrite Ht.
    + eexists. split; [done|]. by rewrite Hg.
Qed.

Lemma known_angles_immutable_witness :
  (∃ s1 t1,
     final_state (C.calculate_angles_agent_execute C_scenario_A) = Some s1 ∧
     C.input_triangle s1 = Some t1 ∧
     ∀ i, C.known
            (C.nth_angle
               (C_triangle (90%float, 1%Z) (45%float, 1%Z) (0%float, 0%Z)) i) →
          C.nth_angle t1 i =
          C.nth_angle (C_triangle (90%float, 1%Z) (45%float, 1%Z) (0%float, 0%Z)) i) ∧
  (∃ s1,
     final_state (C.check_right_angle_agent_execute C_scenario_A) = Some s1 ∧
     C.input_triangle s1 =
       Some (C_triangle (90%float, 1%Z) (45%float, 1%Z) (0%float, 0%Z))) ∧
  (∃ s1 t1,
     final_state (Cpp.CalculateAnglesAgent_execute itanium_name Cpp_scenario_A)
       = Some s1 ∧
     Cpp.triangle_at itanium_name s1 = Some t1 ∧
     ∀ i, Cpp.is_known
            (Cpp.nth_angle
               (Cpp_triangle (90%float, true) (45%float, true) (0%float, false)) i)
          = true →
          Cpp.nth_angle t1 i =
          Cpp.nth_angle
            (Cpp_triangle (90%float, true) (45%float, true) (0%float, false)) i) ∧
  (∃ s1,
     final_state (Cpp.CheckRightAngleAgent_execute itanium_name Cpp_scenario_A)
       = Some s1 ∧
     Cpp.triangle_at itanium_name s1 =
       Some (Cpp_triangle (90%float, true) (45%float, true) (0%float, false))).
Proof.
  destruct (known_angles_immutable itanium_name) as (H1 & H2 & H3 & H4).
  split; [|split; [|split]].
  - by apply (H1 C_scenario_A).
  - destruct (H2 C_scenario_A _ eq_refl) as [Hkeep Hends].
    destruct Hends as [s1 Hs1].
    { split; [simpl; lia|]. unfold C.size. simpl. lia. }
    exists s1. split; [exact Hs1|]. by apply Hkeep.
  - by apply (H3 Cpp_scenario_A).
  - by apply (H4 Cpp_scenario_A).
Defined.

(** ** The classification step *)

Lemma C_existsb_right_angle t :
  existsb C.is_right_angle (C.angles t) = true ↔
  ∃ i, i < 3 ∧ C.known (C.nth_angle t i) ∧
       (abs (C.value (C.nth_angle t i) - 90) <? 0.001)%float = true.
Proof.
  unfold C.angles, C.is_right_angle. simpl. rewrite orb_false_r. split.
  - rewrite !orb_true_iff, !andb_true_iff, !truthy_known.
    intros [H|[H|H]]; [exists 0|exists 1|exists 2]; simpl; split; (lia || done).
  - intros (i & Hi & Hk & Hv). apply truthy_known in Hk.
    destruct i as [|[|[|i]]]; try lia; simpl in *; rewrite Hk, Hv; simpl;
      by rewrite ?orb_true_r.
Qed.

Lemma Cpp_existsb_right_angle t :
  existsb Cpp.is_right_angle (Cpp.angles t) = true ↔
  ∃ i, i < 3 ∧ Cpp.is_known (Cpp.nth_angle t i) = true ∧
       (abs (Cpp.value (Cpp.nth_angle t i) - 90) <? 0.001)%float = true.
Proof.
  unfold Cpp.angles, Cpp.is_right_angle. simpl. rewrite orb_false_r. split.
  - rewrite !orb_true_iff, !andb_true_iff.
    intros [H|[H|H]]; [exists 0|exists 1|exists 2]; simpl; split; (lia || done).
  - intros (i & Hi & Hk & Hv).
    destruct i as [|[|[|i]]]; try lia; simpl in *; rewrite Hk, Hv; simpl;
      by rewrite ?orb_true_r.
Qed.

(** Whenever the classification step returns, it returns success, and the
    pointer it has left under the classification key dangles. *)
Lemma check_leaves_dangling s r s1 out :
  C.check_right_angle_agent_execute s = Returns r s1 out →
  r = C.SC_RESULT_OK ∧
  C.sc_memory_get (C.memory s1) "is_right_triangle" "int" =
    inl (Addr (length (C.heap s))) ∧
  load (C.heap s1) (Addr (length (C.heap s))) = None ∧
  C.is_right_triangle s1 = None.
Proof.
  intros H. pose proof (check_right_angle_frame s) as Hf. rewrite H in Hf.
  destruct Hf as (-> & _ & [t Ht] & _).
  apply input_triangle_Some in Ht as (p & Hget & Hload).
  rewrite (check_right_angle_run s p t Hget Hload) in H. cbv zeta in H.
  destruct (C.sc_memory_store _ _ _ _) as [m|] eqn:Hm; [|done].
  injection H as <- _.
  destruct (is_right_triangle_after_check s m Hm) as (H1 & H2 & H3). done.
Qed.

Lemma Check_leaves_dangling (typeid_name : Cpp.cpp_type → string) s r s1 out :
  Cpp.CheckRightAngleAgent_execute typeid_name s = Returns r s1 out →
  r = Cpp.Ok ∧
  (∃ c, Cpp.ctx s1 =
          Cpp.store typeid_name Cpp.T_bool c "is_right_triangle"
            (Addr (length (Cpp.heap s)))) ∧
  Cpp.heap s1 = Cpp.heap s ++ [None] ∧
  load (Cpp.heap s1) (Addr (length (Cpp.heap s))) = None ∧
  Cpp.classification_at typeid_name s1 = None.
Proof.
  unfold Cpp.CheckRightAngleAgent_execute, mbind, M_bind, bind, Cpp.ctx_get.
  destruct (Cpp.get typeid_name Cpp.T_Triangle (Cpp.ctx s) "input_triangle")
    as [[p|e] c1]; [|done].
  cbn [Cpp.ctx Cpp.heap].
  destruct (Cpp.get typeid_name Cpp.T_rules c1 "rules_set") as [[q|e] c2]; [|done].
  unfold Cpp.load_triangle. cbn [Cpp.heap].
  destruct (load (Cpp.heap s) p) as [[t| |]|]; try done.
  rewrite check_from_run. cbv zeta. cbn [Cpp.heap Cpp.ctx].
  intros [= <- <- _]. split; [done|]. split; [by eexists|]. split; [done|].
  cbn [Cpp.heap]. split; [apply load_dangling|].
  apply classification_at_after_Check.
Qed.

(** C2.  The classification step run on the store [main] builds, with the
    triangle 90, 45, 45 (all known): it returns success and prints that it
    detected a right angle, and what it leaves under the classification
    key is the address of its local [is_right], tagged as an [int].  The
    lifetime of that variable has ended with the step: the pointer dangles,
    a reader of the key finds no truth value, and dereferencing the pointer
    has no defined behaviour.  No truth value is stored. *)
Theorem classification_is_left_dangling :
  (∃ s1,
     C.check_right_angle_agent_execute C_complete =
       Returns C.SC_RESULT_OK s1 [sc_log (Text "Right angle detected (90°)")] ∧
     C.sc_memory_get (C.memory s1) "is_right_triangle" "int" = inl (Addr 2) ∧
     load (C.heap s1) (Addr 2) = None ∧
     C.is_right_triangle s1 = None ∧
     C.load_int (Addr 2) s1 = Undefined) ∧
  (∃ s1,
     Cpp.CheckRightAngleAgent_execute itanium_name Cpp_complete =
       Returns Cpp.Ok s1 [sc_log (Text "Right angle detected (90°)")] ∧
     (Cpp.get itanium_name Cpp.T_bool (Cpp.ctx s1) "is_right_triangle").1 =
       inl (Addr 2) ∧
     load (Cpp.heap s1) (Addr 2) = None ∧
     Cpp.classification_at itanium_name s1 = None ∧
     Cpp.load_bool (Addr 2) s1 = Undefined).
Proof.
  split.
  - eexists. split; [reflexivity|]. repeat split; reflexivity.
  - eexists. split; [reflexivity|]. repeat split; reflexivity.
Qed.

(** ** The pipeline after a completion that succeeded *)

Lemma calculate_returns_OK s s1 out :
  C.calculate_angles_agent_execute s = Returns C.SC_RESULT_OK s1 out →
  ∃ p t t',
    C.sc_memory_get (C.memory s) "input_triangle" "triangle" = inl p ∧
    load (C.heap s) p = Some (C.OTriangle t) ∧
    s1 = {| C.memory := C.memory s;
            C.heap := write (C.heap s) p (C.OTriangle t') |} ∧
    C.input_triangle s1 = Some t'.
Proof.
  intros H. pose proof (calculate_angles_frame s) as Hf. rewrite H in Hf.
  destruct Hf as [_ [t Ht]].
  apply input_triangle_Some in Ht as (p & Hget & Hload).
  rewrite (calculate_angles_run s p t Hget Hload) in H.
  destruct (let '(_, _) := C.tally_angles t in _) as [[t' v]|]; [|done].
  injection H as <- _. exists p, t, t'. repeat split; try done.
  apply input_triangle_Some. exists p. simpl. split; [done|].
  apply load_write_eq. by rewrite Hload.
Qed.

(** The pipeline of the C program never gets past the two steps: once the
    completion step has returned success, the classification step writes
    past the array of the store or returns, and then the pipeline
    dereferences the dangling pointer. *)
Lemma pipeline_after_completion s s1 out :
  C.calculate_angles_agent_execute s = Returns C.SC_RESULT_OK s1 out →
  C.triangle_processing_agent_execute s = Undefined.
Proof.
  intros H. destruct (calculate_returns_OK s s1 out H) as (p & t & t' & _ & _ & _ & Ht).
  apply (pipeline_after_calculate_OK s s1 out H). by rewrite Ht.
Qed.

Section Cpp_after_completion.
Import Cpp.
Variable typeid_name : cpp_type → string.

Lemma get_inl T c k p c' :
  get typeid_name T c k = (inl p, c') →
  types c' !! k = Some (typeid_name T) ∧ data c' !! k = Some p.
Proof.
  unfold get, subscript.
  destruct (types c !! k) as [tag|] eqn:Ht.
  - destruct (String.eqb_spec tag (typeid_name T)) as [->|]; simpl; [|done].
    destruct (data c !! k) as [q|] eqn:Hq.
    + by intros [= <- <-].
    + intros [= <- <-]. simpl. by rewrite lookup_insert_eq.
  - destruct (String.eqb_spec "" (typeid_name T)) as [E|]; simpl; [|done].
    destruct (data c !! k) as [q|] eqn:Hq.
    + intros [= <- <-]. simpl. by rewrite lookup_insert_eq, E.
    + intros [= <- <-]. simpl. by rewrite !lookup_insert_eq, E.
Qed.

Lemma Calculate_returns_Ok s s1 out :
  CalculateAnglesAgent_execute typeid_name s = Returns Ok s1 out →
  is_Some (triangle_at typeid_name s1) ∧ rules_stored typeid_name s1.
Proof.
  unfold CalculateAnglesAgent_execute, mbind, M_bind, bind, ctx_get.
  destruct (get typeid_name T_Triangle (ctx s) "input_triangle")
    as [[p|e] c1] eqn:H1; [|done].
  cbn [ctx heap].
  destruct (get typeid_name T_rules c1 "rules_set") as [[q|e] c2] eqn:H2; [|done].
  unfold load_triangle. cbn [heap].
  destruct (load (heap s) p) as [[t| |]|] eqn:Hload; try done.
  apply get_inl in H1 as [Ht Hp].
  pose proof (get_other typeid_name T_rules c1 "rules_set" "input_triangle"
                ltac:(done)) as [Ht' Hp'].
  rewrite H2 in Ht', Hp'. cbn [snd] in Ht', Hp'.
  apply get_inl in H2 as [Hr Hq].
  destruct (tally_angles t) as [n sum].
  destruct (if (n =? 1)%Z then _ else _) as [[t' v]|]; [|done].
  unfold write_triangle, log_sc_event, emit. simpl.
  intros [= <- _]. split.
  - exists t'. apply triangle_at_Some. exists p. simpl.
    rewrite Ht', Hp'. repeat split; try done.
    apply load_write_eq. by rewrite Hload.
  - split; simpl; [done|by eexists].
Qed.

(** So does the pipeline of the C++ program. *)
Lemma Pipeline_after_completion s s1 out :
  CalculateAnglesAgent_execute typeid_name s = Returns Ok s1 out →
  TriangleProcessingAgent_execute typeid_name s = Undefined.
Proof.
  intros H. destruct (Calculate_returns_Ok s s1 out H) as [[t Ht] Hr].
  apply triangle_at_Some in Ht as (p & Htag & Hp & Hload).
  eapply Pipeline_after_Check; [exact H|].
  apply (Check_run typeid_name s1 p t Htag Hp Hload Hr).
Qed.
End Cpp_after_completion.

(** ** The scenarios of the specification *)

(** C9.  Scenario C on the states [main] builds, with the triangle 90, 90
    and an unknown angle.  The completion step returns success and
    completes the missing angle to 180 − (90 + 90) = 0.0, with no check
    that the triangle is plausible; the classification step returns
    success, prints that it detected a right angle, and leaves under the
    classification key the address of its dead local [is_right]; the
    pipeline then dereferences that pointer to choose its last message and
    its result, which has no defined behaviour: no classification can be
    read and the pipeline does not return success in any defined way. *)
Theorem scenario_C_reads_a_dangling_pointer :
  (∃ s1 s2,
     C.calculate_angles_agent_execute C_scenario_C =
       Returns C.SC_RESULT_OK s1 [sc_log (Calculated_angle 0%float)] ∧
     C.input_triangle s1 =
       Some (C_triangle (90%float, 1%Z) (90%float, 1%Z) (0%float, 1%Z)) ∧
     C.check_right_angle_agent_execute s1 =
       Returns C.SC_RESULT_OK s2 [sc_log (Text "Right angle detected (90°)")] ∧
     C.sc_memory_get (C.memory s2) "is_right_triangle" "int" = inl (Addr 2) ∧
     C.load_int (Addr 2) s2 = Undefined ∧
     C.is_right_triangle s2 = None ∧
     C.triangle_processing_agent_execute C_scenario_C = Undefined) ∧
  (∃ s1 s2,
     Cpp.CalculateAnglesAgent_execute itanium_name Cpp_scenario_C =
       Returns Cpp.Ok s1 [sc_log (Calculated_angle 0%float)] ∧
     Cpp.triangle_at itanium_name s1 =
       Some (Cpp_triangle (90%float, true) (90%float, true) (0%float, true)) ∧
     Cpp.CheckRightAngleAgent_execute itanium_name s1 =
       Returns Cpp.Ok s2 [sc_log (Text "Right angle detected (90°)")] ∧
     (Cpp.get itanium_name Cpp.T_bool (Cpp.ctx s2) "is_right_triangle").1 =
       inl (Addr 2) ∧
     Cpp.load_bool (Addr 2) s2 = Undefined ∧
     Cpp.classification_at itanium_name s2 = None ∧
     Cpp.TriangleProcessingAgent_execute itanium_name Cpp_scenario_C = Undefined).
Proof.
  split.
  - eexists _, _. split; [reflexivity|]. split; [reflexivity|].
    split; [reflexivity|]. repeat split; reflexivity.
  - eexists _, _. split; [reflexivity|]. split; [reflexivity|].
    split; [reflexivity|]. repeat split; reflexivity.
Qed.

(** ** Running the classification step again *)

(** C8.  The classification step run twice on the store [main] builds,
    with the fully known triangle 90, 45, 45.  Both runs return success and
    print the same, and the triangle is as before; but after either run the
    classification key holds the address of a local [is_right] whose
    lifetime has ended, a new one each time: neither run has stored a
    truth value, so there is no stored boolean for the second run to
    repeat, and a reader of the key finds none in either state. *)
Theorem classification_twice_is_left_dangling :
  (∃ s1 s2 out,
     C.check_right_angle_agent_execute C_complete =
       Returns C.SC_RESULT_OK s1 out ∧
     C.check_right_angle_agent_execute s1 = Returns C.SC_RESULT_OK s2 out ∧
     C.input_triangle s2 =
       Some (C_triangle (90%float, 1%Z) (45%float, 1%Z) (45%float, 1%Z)) ∧
     C.sc_memory_get (C.memory s1) "is_right_triangle" "int" = inl (Addr 2) ∧
     load (C.heap s1) (Addr 2) = None ∧
     C.is_right_triangle s1 = None ∧
     C.sc_memory_get (C.memory s2) "is_right_triangle" "int" = inl (Addr 3) ∧
     load (C.heap s2) (Addr 3) = None ∧
     C.is_right_triangle s2 = None) ∧
  (∃ s1 s2 out,
     Cpp.CheckRightAngleAgent_execute itanium_name Cpp_complete =
       Returns Cpp.Ok s1 out ∧
     Cpp.CheckRightAngleAgent_execute itanium_name s1 = Returns Cpp.Ok s2 out ∧
     Cpp.triangle_at itanium_name s2 =
       Some (Cpp_triangle (90%float, true) (45%float, true) (45%float, true)) ∧
     Cpp.data (Cpp.ctx s1) !! "is_right_triangle" = Some (Addr 2) ∧
     load (Cpp.heap s1) (Addr 2) = None ∧
     Cpp.classification_at itanium_name s1 = None ∧
     Cpp.data (Cpp.ctx s2) !! "is_right_triangle" = Some (Addr 3) ∧
     load (Cpp.heap s2) (Addr 3) = None ∧
     Cpp.classification_at itanium_name s2 = None).
Proof.
  split.
  - eexists _, _, _. split; [reflexivity|]. split; [reflexivity|].
    repeat split; reflexivity.
  - eexists _, _, _. split; [reflexivity|]. split; [reflexivity|].
    repeat split; reflexivity.
Qed.

(** ** Rounding of double arithmetic

    The error of one addition or subtraction is bounded from the
    specification of binary64 ([SFadd], [SFsub], built on
    [binary_round_aux]), which the primitive operations satisfy by the
    axioms of the standard library ([add_spec], [sub_spec], ...). *)
Section Double_arithmetic.
Local Open Scope Z_scope.

(** A mantissa of [d] binary digits lies between 2^(d-1) and 2^d. *)
Lemma digits2_pos_bounds m :
  2 ^ (Zpos (digits2_pos m) - 1) <= Zpos m < 2 ^ Zpos (digits2_pos m).
Proof.
  induction m as [p IH|p IH|]; simpl digits2_pos.
  - rewrite Pos2Z.inj_succ, Pos2Z.inj_xI.
    replace (Z.succ (Zpos (digits2_pos p)) - 1) with (Z.succ (Zpos (digits2_pos p) - 1)) by lia.
    rewrite !Z.pow_succ_r by lia.
    lia.
  - rewrite Pos2Z.inj_succ. change (Z.pos p~0) with (2 * Z.pos p).
    replace (Z.succ (Zpos (digits2_pos p)) - 1) with (Z.succ (Zpos (digits2_pos p) - 1)) by lia.
    rewrite !Z.pow_succ_r by lia.
    lia.
  - simpl. lia.
Qed.

Lemma shr_1_m mrs : 0 <= shr_m mrs -> shr_m (shr_1 mrs) = shr_m mrs / 2.
Proof.
  destruct mrs as [m r s]. cbn [shr_m]. intros Hm.
  destruct m as [|[p|p|]|]; cbn [shr_1 shr_m]; try lia; try reflexivity.
  - apply Z.div_unique with 1; lia.
  - apply Z.div_unique with 0; lia.
Qed.

(** Shifting a mantissa right by [p] places divides it by 2^p. *)
Lemma iter_pos_shr_m p : forall mrs,
  0 <= shr_m mrs ->
  shr_m (SpecFloat.iter_pos shr_1 p mrs) = shr_m mrs / 2 ^ Zpos p.
Proof.
  induction p as [p IH|p IH|]; intros mrs Hm; simpl SpecFloat.iter_pos.
  - assert (0 <= shr_m (shr_1 mrs)) as H1.
    { rewrite shr_1_m by done. apply Z.div_pos; lia. }
    assert (0 <= shr_m (SpecFloat.iter_pos shr_1 p (shr_1 mrs))) as H2.
    { rewrite IH by done. apply Z.div_pos; [done|]. apply Z.pow_pos_nonneg; lia. }
    rewrite IH, IH, shr_1_m by done.
    rewrite !Z.div_div by (try apply Z.pow_pos_nonneg; lia).
    f_equal. rewrite Pos2Z.inj_xI.
    replace (2 * Zpos p + 1) with (1 + Zpos p + Zpos p) by lia.
    rewrite !Z.pow_add_r by lia. change (2 ^ 1) with 2. ring.
  - assert (0 <= shr_m (SpecFloat.iter_pos shr_1 p mrs)) as H2.
    { rewrite IH by done. apply Z.div_pos; [done|]. apply Z.pow_pos_nonneg; lia. }
    rewrite IH, IH by done.
    rewrite !Z.div_div by (try apply Z.pow_pos_nonneg; lia).
    f_equal. change (Z.pos p~0) with (2 * Z.pos p).
    replace (2 * Zpos p) with (Zpos p + Zpos p) by lia.
    rewrite !Z.pow_add_r by lia. ring.
  - by rewrite shr_1_m.
Qed.

Lemma fexp_eq d : fexp prec emax d = Z.max (d - 53) (-1074).
Proof. reflexivity. Qed.


Lemma digits_le_of_bound (mp : positive) e K :
  -1074 <= e ->
  Zpos mp * 2 ^ (e + 1074) < 2 ^ (K + 1074) ->
  Zpos (digits2_pos mp) + e <= K.
Proof.
  intros He Hlt. pose proof (digits2_pos_bounds mp) as [Hd _].
  assert (1 <= Zpos (digits2_pos mp)) as Hd1 by lia.
  set (d := Zpos (digits2_pos mp)) in *. clearbody d.
  assert (0 < 2 ^ (e + 1074)) as HP by (apply Z.pow_pos_nonneg; lia).
  assert (0 <= K + 1074) as HK.
  { destruct (Z_lt_le_dec (K + 1074) 0) as [Hneg|]; [|done].
    rewrite (Z.pow_neg_r 2 (K + 1074)) in Hlt by done.
    pose proof (Z.mul_pos_pos (Zpos mp) (2 ^ (e + 1074)) ltac:(lia) HP). lia. }
  assert (2 ^ (d - 1 + (e + 1074)) < 2 ^ (K + 1074)) as H.
  { rewrite Z.pow_add_r by lia.
    apply Z.le_lt_trans with (Zpos mp * 2 ^ (e + 1074)); [|done].
    apply Z.mul_le_mono_nonneg_r; lia. }
  apply Z.pow_lt_mono_r_iff in H; lia.
Qed.

(** One normalisation step on a value below 2^K: either nothing moves, or
    the mantissa is truncated at an exponent of at most K - 53, and the value
    lies between the truncated one and the next. *)
Lemma shr_fexp_step (K : Z) m e l :
  0 <= m -> -1074 <= e -> m * 2 ^ (e + 1074) < 2 ^ (K + 1074) -> -1021 <= K ->
  exists mrs e',
    shr_fexp prec emax m e l = (mrs, e') /\
    0 <= shr_m mrs /\
    shr_m mrs * 2 ^ (e' + 1074) <= m * 2 ^ (e + 1074) < (shr_m mrs + 1) * 2 ^ (e' + 1074) /\
    ((e' = e /\ mrs = shr_record_of_loc m l) \/ (e < e' /\ e' <= K - 53)).
Proof.
  intros Hm He Hlt HK. unfold shr_fexp, shr.
  assert (shr_m (shr_record_of_loc m l) = m) as Hrec.
  { by destruct l as [|[]]. }
  assert (0 < 2 ^ (e + 1074)) as HP by (apply Z.pow_pos_nonneg; lia).
  destruct (fexp prec emax (Zdigits2 m + e) - e) as [|n|n] eqn:En.
  - eexists _, _. split; [reflexivity|]. rewrite Hrec.
    split; [done|]. split; [nia|]. by left.
  - eexists _, _. split; [reflexivity|].
    rewrite iter_pos_shr_m, Hrec by (by rewrite Hrec).
    assert (0 < 2 ^ Zpos n) as Hn by (apply Z.pow_pos_nonneg; lia).
    pose proof (Z.mul_div_le m (2 ^ Zpos n) Hn) as H1.
    pose proof (Z.mul_succ_div_gt m (2 ^ Zpos n) Hn) as H2.
    split; [apply Z.div_pos; lia|].
    replace (e + Zpos n + 1074) with (Zpos n + (e + 1074)) by lia.
    rewrite Z.pow_add_r by lia.
    split; [nia|]. right. split; [lia|].
    rewrite fexp_eq in En.
    destruct m as [|mp|mp]; [simpl in En; lia| |lia].
    pose proof (digits_le_of_bound mp e K He Hlt) as Hd. simpl in En. lia.
  - eexists _, _. split; [reflexivity|]. rewrite Hrec.
    split; [done|]. split; [nia|]. by left.
Qed.

Lemma round_nearest_even_bounds q l :
  q <= round_nearest_even q l <= q + 1.
Proof.
  destruct l as [|[]]; simpl; try lia. destruct (Z.even q); lia.
Qed.

Lemma round_nearest_even_of_loc m l :
  round_nearest_even (shr_m (shr_record_of_loc m l))
    (loc_of_shr_record (shr_record_of_loc m l)) = round_nearest_even m l.
Proof. by destruct l as [|[]]. Qed.

Lemma pow2_le_1030 e : -1074 <= e -> e <= -44 -> 0 < 2 ^ (e + 1074) <= 2 ^ 1030.
Proof.
  intros. split; [apply Z.pow_pos_nonneg; lia|].
  apply Z.pow_le_mono_r; lia.
Qed.

Lemma pow2_le_1031 e : -1074 <= e -> e <= -43 -> 0 < 2 ^ (e + 1074) <= 2 ^ 1031.
Proof.
  intros. split; [apply Z.pow_pos_nonneg; lia|].
  apply Z.pow_le_mono_r; lia.
Qed.

Lemma exponent_lt_of_bound (mp : positive) e K :
  -1074 <= e -> Zpos mp * 2 ^ (e + 1074) < 2 ^ (K + 1074) -> e < K.
Proof.
  intros He Hlt. pose proof (digits_le_of_bound mp e K He Hlt). lia.
Qed.

Lemma abs_cond_Zopp s a b :
  Z.abs (cond_Zopp s a - cond_Zopp s b) = Z.abs (a - b).
Proof. destruct s; simpl; lia. Qed.

(** Rounding a value below 512 gives a finite double within
    3 * 2^1030 units, that is 3 * 2^-44, of it. *)
Lemma binary_round_aux_bound sx mp e :
  -1074 <= e -> Zpos mp * 2 ^ (e + 1074) < 2 ^ 1083 ->
  SFfinite (binary_round_aux prec emax sx (Zpos mp) e loc_Exact) = true /\
  Z.abs (SFunits (binary_round_aux prec emax sx (Zpos mp) e loc_Exact)
         - cond_Zopp sx (Zpos mp * 2 ^ (e + 1074))) <= 3 * 2 ^ 1030.
Proof.
  intros He HX. unfold binary_round_aux.
  set (X := Zpos mp * 2 ^ (e + 1074)) in *.
  assert (e < 9) as He9 by (apply (exponent_lt_of_bound mp e 9 He HX)).
  destruct (shr_fexp_step 9 (Zpos mp) e loc_Exact) as (mrs1 & e1 & -> & Hm1 & Hb1 & Hc1);
    [lia|done|done|lia|].
  set (m1 := round_nearest_even (shr_m mrs1) (loc_of_shr_record mrs1)).
  pose proof (round_nearest_even_bounds (shr_m mrs1) (loc_of_shr_record mrs1)) as Hr.
  fold m1 in Hr.
  assert (-1074 <= e1 <= 8 /\ 0 <= m1 /\
          Z.abs (m1 * 2 ^ (e1 + 1074) - X) <= 2 ^ 1030) as (He1 & Hm1' & HY).
  { destruct Hc1 as [[-> ->]|[Hlt Hle]].
    - unfold m1. rewrite round_nearest_even_of_loc. simpl. fold X. lia.
    - pose proof (pow2_le_1030 e1 ltac:(lia) ltac:(lia)) as HP.
      split; [lia|]. split; [lia|]. nia. }
  assert (m1 * 2 ^ (e1 + 1074) < 2 ^ (10 + 1074)) as HY'.
  { change (2 ^ (10 + 1074)) with (2 * 2 ^ 1083).
    assert (2 ^ 1030 <= 2 ^ 1083) by (apply Z.pow_le_mono_r; lia). lia. }
  destruct (shr_fexp_step 10 m1 e1 loc_Exact) as (mrs2 & e2 & -> & Hm2 & Hb2 & Hc2);
    [lia|lia|done|lia|].
  assert (e2 <= 8 /\ -1074 <= e2 /\
          Z.abs (shr_m mrs2 * 2 ^ (e2 + 1074) - X) <= 3 * 2 ^ 1030) as (He2 & He2' & HZ).
  { destruct Hc2 as [[-> ->]|[Hlt Hle]].
    - simpl. lia.
    - pose proof (pow2_le_1031 e2 ltac:(lia) ltac:(lia)) as HP.
      change (2 ^ 1031) with (2 * 2 ^ 1030) in HP. split; [lia|]. split; [lia|]. lia. }
  destruct (shr_m mrs2) as [|p|p] eqn:Ep; [| |lia].
  - split; [done|]. rewrite Z.mul_0_l in HZ. cbn [SFunits]. destruct sx; simpl; lia.
  - change (emax - prec) with 971.
    destruct (Z.leb_spec e2 971) as [_|Hbad]; [|lia].
    split; [done|]. cbn [SFunits]. by rewrite abs_cond_Zopp.
Qed.

Lemma pos_iter_xO mx d : Zpos (Pos.iter xO mx d) = Zpos mx * 2 ^ Zpos d.
Proof.
  induction d as [|d IH] using Pos.peano_ind.
  - simpl. change (Z.pos mx~0) with (2 * Z.pos mx). change (2 ^ 1) with 2. lia.
  - rewrite Pos.iter_succ, Pos2Z.inj_succ, Z.pow_succ_r by lia.
    change (Z.pos (Pos.iter xO mx d)~0) with (2 * Z.pos (Pos.iter xO mx d)).
    rewrite IH. ring.
Qed.

Lemma shl_align_value mx ex ex' :
  -1074 <= ex' -> -1074 <= ex ->
  Zpos (fst (shl_align mx ex ex')) * 2 ^ (snd (shl_align mx ex ex') + 1074)
    = Zpos mx * 2 ^ (ex + 1074) /\
  -1074 <= snd (shl_align mx ex ex') /\
  snd (shl_align mx ex ex') = Z.min ex ex'.
Proof.
  intros He' He. unfold shl_align.
  destruct (ex' - ex) as [|d|d] eqn:Ed; cbn [fst snd].
  - split; [done|]. split; lia.
  - split; [done|]. split; lia.
  - rewrite pos_iter_xO. split; [|split; lia].
    replace (ex + 1074) with (Zpos d + (ex' + 1074)) by lia.
    rewrite (Z.pow_add_r 2 (Zpos d) (ex' + 1074)) by lia. ring.
Qed.

Lemma binary_round_bound sx mx ex :
  -1074 <= ex -> Zpos mx * 2 ^ (ex + 1074) < 2 ^ 1083 ->
  SFfinite (binary_round prec emax sx mx ex) = true /\
  Z.abs (SFunits (binary_round prec emax sx mx ex)
         - cond_Zopp sx (Zpos mx * 2 ^ (ex + 1074))) <= 3 * 2 ^ 1030.
Proof.
  intros He HX. unfold binary_round.
  pose proof (shl_align_value mx ex (fexp prec emax (Zpos (digits2_pos mx) + ex)))
    as (Hv & Hs & _); [rewrite fexp_eq; lia|done|].
  destruct (shl_align mx ex _) as [mz ez]. simpl in Hv, Hs.
  rewrite <- Hv. apply binary_round_aux_bound; [done|]. by rewrite Hv.
Qed.

Lemma binary_normalize_bound M e sz :
  -1074 <= e -> Z.abs M * 2 ^ (e + 1074) < 2 ^ 1083 ->
  SFfinite (binary_normalize prec emax M e sz) = true /\
  Z.abs (SFunits (binary_normalize prec emax M e sz) - M * 2 ^ (e + 1074))
    <= 3 * 2 ^ 1030.
Proof.
  intros He HX. destruct M as [|m|m]; simpl binary_normalize.
  - split; [done|]. simpl. lia.
  - apply (binary_round_bound false m e He HX).
  - pose proof (binary_round_bound true m e He HX) as [H1 H2].
    split; [done|]. simpl in H2.
    replace (Z.neg m * 2 ^ (e + 1074)) with (- (Z.pos m * 2 ^ (e + 1074))) by lia.
    done.
Qed.

Lemma valid_finite s m e :
  valid_binary (S754_finite s m e) = true ->
  -1074 <= e <= 971 /\ Zpos (digits2_pos m) <= 53 /\
  (-1074 < e -> Zpos (digits2_pos m) = 53).
Proof.
  unfold SpecFloat.valid_binary, bounded, canonical_mantissa.
  rewrite fexp_eq. intros [H1 H2]%andb_prop.
  apply Z.eqb_eq in H1. apply Z.leb_le in H2.
  change (emax - prec) with 971 in H2. lia.
Qed.


Lemma cond_Zopp_mul s a b : cond_Zopp s a * b = cond_Zopp s (a * b).
Proof. destruct s; simpl; lia. Qed.

Lemma aligned_sum sx mx ex sy my ey (op : Z -> Z -> Z) :
  (forall a b c, op a b * c = op (a * c) (b * c)) ->
  -1074 <= ex -> -1074 <= ey ->
  op (cond_Zopp sx (Zpos (fst (shl_align mx ex (Z.min ex ey)))))
     (cond_Zopp sy (Zpos (fst (shl_align my ey (Z.min ex ey)))))
    * 2 ^ (Z.min ex ey + 1074)
  = op (SFunits (S754_finite sx mx ex)) (SFunits (S754_finite sy my ey)).
Proof.
  intros Hop Hex Hey. rewrite Hop, !cond_Zopp_mul. simpl.
  pose proof (shl_align_value mx ex (Z.min ex ey)) as (H1 & _ & H1'); [lia|lia|].
  pose proof (shl_align_value my ey (Z.min ex ey)) as (H2 & _ & H2'); [lia|lia|].
  replace (Z.min ex (Z.min ex ey)) with (Z.min ex ey) in H1' by lia.
  replace (Z.min ey (Z.min ex ey)) with (Z.min ex ey) in H2' by lia.
  rewrite H1' in H1. rewrite H2' in H2. by rewrite H1, H2.
Qed.

(** The sum of two finite doubles, when it is below 512 in magnitude, is a
    finite double within 3 * 2^-44 of the exact sum; likewise the
    difference. *)
Lemma SFadd_bound x y :
  valid_binary x = true -> valid_binary y = true ->
  SFfinite x = true -> SFfinite y = true ->
  Z.abs (SFunits x + SFunits y) < 2 ^ 1083 ->
  SFfinite (SF64add x y) = true /\
  Z.abs (SFunits (SF64add x y) - (SFunits x + SFunits y)) <= 3 * 2 ^ 1030.
Proof.
  intros Vx Vy Fx Fy Hb.
  assert (0 < 2 ^ 1030) as HU by (by apply Z.pow_pos_nonneg).
  destruct x as [sx|sx| |sx mx ex], y as [sy|sy| |sy my ey]; try done.
  - split; [by destruct sx, sy|]. destruct sx, sy; simpl; lia.
  - split; [done|]. simpl. lia.
  - split; [done|]. simpl. lia.
  - apply valid_finite in Vx as (Hex & _). apply valid_finite in Vy as (Hey & _).
    unfold SF64add, SFadd.
    rewrite <- (aligned_sum sx mx ex sy my ey Z.add) in * by (done || lia).
    rewrite Z.abs_mul, (Z.abs_eq (2 ^ _)) in Hb by (apply Z.pow_nonneg; lia).
    apply binary_normalize_bound; [lia|done].
Qed.

Lemma SFsub_bound x y :
  valid_binary x = true -> valid_binary y = true ->
  SFfinite x = true -> SFfinite y = true ->
  Z.abs (SFunits x - SFunits y) < 2 ^ 1083 ->
  SFfinite (SF64sub x y) = true /\
  Z.abs (SFunits (SF64sub x y) - (SFunits x - SFunits y)) <= 3 * 2 ^ 1030.
Proof.
  intros Vx Vy Fx Fy Hb.
  assert (0 < 2 ^ 1030) as HU by (by apply Z.pow_pos_nonneg).
  destruct x as [sx|sx| |sx mx ex], y as [sy|sy| |sy my ey]; try done.
  - split; [by destruct sx, sy|]. destruct sx, sy; simpl; lia.
  - split; [done|]. cbn [SF64sub SFsub SFunits]. destruct sy; simpl; lia.
  - split; [done|]. simpl. lia.
  - apply valid_finite in Vx as (Hex & _). apply valid_finite in Vy as (Hey & _).
    unfold SF64sub, SFsub.
    rewrite <- (aligned_sum sx mx ex sy my ey Z.sub) in * by (done || lia).
    rewrite Z.abs_mul, (Z.abs_eq (2 ^ _)) in Hb by (apply Z.pow_nonneg; lia).
    apply binary_normalize_bound; [lia|done].
Qed.

Lemma units_sign s m e :
  -1074 <= e -> 0 <= SFunits (S754_finite s m e) -> s = false.
Proof.
  intros He. destruct s; [|done]. simpl.
  pose proof (Z.pow_pos_nonneg 2 (e + 1074) ltac:(lia) ltac:(lia)). nia.
Qed.

Lemma canonical_lt m1 e1 m2 e2 :
  valid_binary (S754_finite false m1 e1) = true ->
  valid_binary (S754_finite false m2 e2) = true ->
  e1 < e2 ->
  Zpos m1 * 2 ^ (e1 + 1074) < Zpos m2 * 2 ^ (e2 + 1074).
Proof.
  intros (He1 & Hd1 & _)%valid_finite (He2 & _ & Hd2)%valid_finite Hlt.
  specialize (Hd2 ltac:(lia)).
  pose proof (digits2_pos_bounds m1) as [_ H1].
  pose proof (digits2_pos_bounds m2) as [H2 _]. rewrite Hd2 in H2.
  assert (Zpos m1 < 2 ^ 53) as H1'.
  { eapply Z.lt_le_trans; [exact H1|]. apply Z.pow_le_mono_r; lia. }
  change (2 ^ (53 - 1)) with (2 ^ 52) in H2.
  replace (e2 + 1074) with ((e2 - e1 - 1) + 1 + (e1 + 1074)) by lia.
  rewrite (Z.pow_add_r 2 (e2 - e1 - 1 + 1) (e1 + 1074)),
    (Z.pow_add_r 2 (e2 - e1 - 1) 1) by lia.
  change (2 ^ 1) with 2.
  assert (0 < 2 ^ (e1 + 1074)) as HP by (apply Z.pow_pos_nonneg; lia).
  assert (1 <= 2 ^ (e2 - e1 - 1)) as HQ.
  { change 1 with (2 ^ 0). apply Z.pow_le_mono_r; lia. }
  change (2 ^ 53) with (2 * 2 ^ 52) in H1'.
  set (P := 2 ^ (e1 + 1074)) in *. set (Q := 2 ^ (e2 - e1 - 1)) in *.
  set (T := 2 ^ 52) in *. clearbody P Q T.
  assert (Zpos m1 * P < 2 * T * P) as A1 by (apply Z.mul_lt_mono_pos_r; lia).
  assert (2 * T * P <= 2 * Zpos m2 * P) as A2
    by (apply Z.mul_le_mono_nonneg_r; lia).
  assert (2 * Zpos m2 * P * 1 <= 2 * Zpos m2 * P * Q) as A3
    by (apply Z.mul_le_mono_nonneg_l; lia).
  replace (Zpos m2 * (Q * 2 * P)) with (2 * Zpos m2 * P * Q) by ring. lia.
Qed.

(** On finite doubles that are not negative the comparison of the
    specification is the comparison of the values. *)
Lemma SFcompare_units x y :
  valid_binary x = true -> valid_binary y = true ->
  SFfinite x = true -> SFfinite y = true ->
  0 <= SFunits x -> 0 <= SFunits y ->
  SFcompare x y = Some (SFunits x ?= SFunits y).
Proof.
  intros Vx Vy Fx Fy Hx Hy.
  destruct x as [sx|sx| |sx mx ex], y as [sy|sy| |sy my ey]; try done.
  - pose proof (valid_finite _ _ _ Vy) as (Hey & _).
    assert (sy = false) as -> by (apply (units_sign sy my ey); [lia|done]).
    cbn [SFcompare SFunits cond_Zopp].
    pose proof (Z.pow_pos_nonneg 2 (ey + 1074) ltac:(lia) ltac:(lia)).
    f_equal. symmetry. apply Z.compare_lt_iff. nia.
  - pose proof (valid_finite _ _ _ Vx) as (Hex & _).
    assert (sx = false) as -> by (apply (units_sign sx mx ex); [lia|done]).
    cbn [SFcompare SFunits cond_Zopp].
    pose proof (Z.pow_pos_nonneg 2 (ex + 1074) ltac:(lia) ltac:(lia)).
    f_equal. symmetry. apply Z.compare_gt_iff. nia.
  - pose proof (valid_finite _ _ _ Vx) as (Hex & _).
    pose proof (valid_finite _ _ _ Vy) as (Hey & _).
    assert (sx = false) as -> by (apply (units_sign sx mx ex); [lia|done]).
    assert (sy = false) as -> by (apply (units_sign sy my ey); [lia|done]).
    cbn [SFcompare SFunits cond_Zopp]. f_equal.
    destruct (Z.compare_spec ex ey) as [->|Hlt|Hgt].
    + pose proof (Z.pow_pos_nonneg 2 (ey + 1074) ltac:(lia) ltac:(lia)) as HP.
      change (Pos.compare_cont Eq mx my) with (Pos.compare mx my).
      symmetry. destruct (Pos.compare_spec mx my) as [->|Hlt|Hgt].
      * apply Z.compare_refl.
      * apply Z.compare_lt_iff. apply Z.mul_lt_mono_pos_r; lia.
      * apply Z.compare_gt_iff. apply Z.mul_lt_mono_pos_r; lia.
    + symmetry. apply Z.compare_lt_iff. by apply canonical_lt.
    + symmetry. apply Z.compare_gt_iff. by apply canonical_lt.
Qed.

Lemma unit_992_pos : 0 < unit_992.
Proof. by apply Z.pow_pos_nonneg. Qed.

Lemma pow_1083 : 2 ^ 1083 = 2 ^ 91 * unit_992.
Proof. unfold unit_992. by rewrite <- Z.pow_add_r. Qed.

Lemma pow_1030 : 3 * 2 ^ 1030 = rounding_error.
Proof. unfold rounding_error, unit_992. rewrite <- Z.mul_assoc, <- Z.pow_add_r; done. Qed.

(** The same bounds on the primitive operations, for operands known up to
    [dx] and [dy]. *)
Lemma add_approx (x y : float) (X Y dx dy : Z) :
  double_finite x -> double_finite y ->
  Z.abs (double_units x - X) <= dx -> Z.abs (double_units y - Y) <= dy ->
  Z.abs (X + Y) + dx + dy < 2 ^ 91 * unit_992 ->
  double_finite (x + y) /\
  Z.abs (double_units (x + y) - (X + Y)) <= dx + dy + rounding_error.
Proof.
  intros Fx Fy Hx Hy Hb. unfold double_finite, double_units in *. rewrite add_spec.
  destruct (SFadd_bound (Prim2SF x) (Prim2SF y)) as [H1 H2];
    try apply Prim2SF_valid; try done.
  { rewrite pow_1083. lia. }
  split; [done|]. rewrite pow_1030 in H2. lia.
Qed.

Lemma sub_approx (x y : float) (X Y dx dy : Z) :
  double_finite x -> double_finite y ->
  Z.abs (double_units x - X) <= dx -> Z.abs (double_units y - Y) <= dy ->
  Z.abs (X - Y) + dx + dy < 2 ^ 91 * unit_992 ->
  double_finite (x - y) /\
  Z.abs (double_units (x - y) - (X - Y)) <= dx + dy + rounding_error.
Proof.
  intros Fx Fy Hx Hy Hb. unfold double_finite, double_units in *. rewrite sub_spec.
  destruct (SFsub_bound (Prim2SF x) (Prim2SF y)) as [H1 H2];
    try apply Prim2SF_valid; try done.
  { rewrite pow_1083. lia. }
  split; [done|]. rewrite pow_1030 in H2. lia.
Qed.

Lemma abs_units x : double_finite x -> double_finite (abs x) /\ double_units (abs x) = Z.abs (double_units x).
Proof.
  unfold double_finite, double_units. rewrite abs_spec.
  destruct (Prim2SF x) as [s|s| |s m e]; try done.
  intros _. split; [done|]. simpl.
  pose proof (Z.pow_nonneg 2 (e + 1074) ltac:(lia)). destruct s; simpl; lia.
Qed.

Lemma ltb_units x y :
  double_finite x -> double_finite y -> 0 <= double_units x -> 0 <= double_units y ->
  (x <? y)%float = (double_units x <? double_units y).
Proof.
  intros Fx Fy Hx Hy. rewrite ltb_spec. unfold SFltb.
  rewrite SFcompare_units by (try apply Prim2SF_valid; done).
  unfold double_units, Z.ltb. by destruct (_ ?= _).
Qed.

(** A double between 0 and 180 is finite, with a value between 0 and
    180 * 2^1074 units. *)
Lemma range_units a :
  (0 <=? a)%float = true -> (a <=? 180)%float = true ->
  double_finite a /\ 0 <= double_units a <= 180 * 2 ^ 82 * unit_992.
Proof.
  rewrite !leb_spec. unfold double_finite, double_units.
  pose proof (Prim2SF_valid a) as Va.
  assert (Prim2SF 0 = S754_zero false) as -> by (vm_compute; reflexivity).
  assert (Prim2SF 180 = S754_finite false 6333186975989760 (-45)) as H180
    by (vm_compute; reflexivity).
  assert (SFunits (Prim2SF 180) = 180 * 2 ^ 82 * unit_992) as U180
    by (vm_compute; reflexivity).
  pose proof (Prim2SF_valid 180) as V180.
  pose proof unit_992_pos as HW.
  destruct (Prim2SF a) as [s|s| |s m e] eqn:Ea.
  - intros _ _. simpl. split; [done|]. lia.
  - destruct s; [done|]. intros _. rewrite H180. done.
  - done.
  - destruct s; [done|]. intros _ Hle. split; [done|].
    pose proof (valid_finite _ _ _ Va) as (He & _).
    assert (0 <= SFunits (S754_finite false m e)) as Hpos.
    { simpl. pose proof (Z.pow_pos_nonneg 2 (e + 1074) ltac:(lia) ltac:(lia)). lia. }
    split; [done|]. unfold SFleb in Hle.
    rewrite SFcompare_units in Hle by (try done; rewrite U180; lia).
    rewrite U180 in Hle.
    destruct (Z.compare_spec (SFunits (S754_finite false m e))
                (180 * 2 ^ 82 * unit_992)) as [Heq|Hlt|Hgt];
      [lia|lia|discriminate Hle].
Qed.

Lemma finite_180 : double_finite 180 /\ double_units 180 = 180 * 2 ^ 82 * unit_992.
Proof. split; vm_compute; reflexivity. Qed.

Lemma finite_0 : double_finite 0 /\ double_units 0 = 0.
Proof. split; vm_compute; reflexivity. Qed.

Lemma finite_tolerance : double_finite 1e-9 /\ double_units 1e-9 = 4835703278458517 * unit_992.
Proof. split; vm_compute; reflexivity. Qed.

Lemma sum_is_180_of_approx x d :
  double_finite x ->
  Z.abs (double_units x - 180 * 2 ^ 82 * unit_992) <= d ->
  d + rounding_error < 4835703278458517 * unit_992 ->
  sum_is_180 x = true.
Proof.
  intros Fx Hx Hd. pose proof unit_992_pos as HW.
  destruct finite_180 as [F180 U180]. destruct finite_tolerance as [Ft Ut].
  assert (Z.abs (double_units 180 - 180 * 2 ^ 82 * unit_992) <= 0) as H180
    by (rewrite U180; lia).
  assert (rounding_error = 3 * 2 ^ 38 * unit_992) as HE by reflexivity.
  destruct (sub_approx x 180 (180 * 2 ^ 82 * unit_992) (180 * 2 ^ 82 * unit_992) d 0
              Fx F180 Hx H180) as [Fd Hdiff]; [lia|].
  destruct (abs_units (x - 180) Fd) as [Fabs Uabs].
  unfold sum_is_180.
  rewrite (ltb_units _ _ Fabs Ft) by (rewrite ?Uabs, ?Ut; lia).
  apply Z.ltb_lt. rewrite Uabs, Ut. lia.
Qed.

(** For known values [a] and [b] between 0 and 180 and the completed
    value [c], the three values sum to 180 within 1e-9 in each of the three
    orders the position of the unknown angle leads to. *)
Theorem completion_sum_in_range (a b : float) :
  (0 <=? a)%float = true -> (a <=? 180)%float = true ->
  (0 <=? b)%float = true -> (b <=? 180)%float = true ->
  let c := (180 - (0 + a + b))%float in
  sum_is_180 (a + b + c) = true /\
  sum_is_180 (a + c + b) = true /\
  sum_is_180 (c + a + b) = true.
Proof.
  intros Ha0 Ha1 Hb0 Hb1 c.
  destruct (range_units a Ha0 Ha1) as [Fa Ua].
  destruct (range_units b Hb0 Hb1) as [Fb Ub].
  destruct finite_180 as [F180 U180]. destruct finite_0 as [F0 U0].
  pose proof unit_992_pos as HW.
  assert (rounding_error = 3 * 2 ^ 38 * unit_992) as HE by reflexivity.
  assert (Z.abs (double_units a - double_units a) <= 0) as Ha by lia.
  assert (Z.abs (double_units b - double_units b) <= 0) as Hb by lia.
  assert (Z.abs (double_units 0 - 0) <= 0) as H0 by (rewrite U0; lia).
  assert (Z.abs (double_units 180 - 180 * 2 ^ 82 * unit_992) <= 0) as H180
    by (rewrite U180; lia).
  destruct (add_approx 0 a _ _ _ _ F0 Fa H0 Ha) as [F1 H1]; [lia|].
  destruct (add_approx (0 + a) b _ _ _ _ F1 Fb H1 Hb) as [F2 H2]; [lia|].
  destruct (sub_approx 180 (0 + a + b) _ _ _ _ F180 F2 H180 H2)
    as [Fc Hc]; [lia|].
  fold c in Fc, Hc.
  split; [|split].
  - destruct (add_approx a b _ _ _ _ Fa Fb Ha Hb) as [F3 H3]; [lia|].
    destruct (add_approx (a + b) c _ _ _ _ F3 Fc H3 Hc) as [F4 H4]; [lia|].
    apply (sum_is_180_of_approx _ (5 * rounding_error) F4); lia.
  - destruct (add_approx a c _ _ _ _ Fa Fc Ha Hc) as [F3 H3]; [lia|].
    destruct (add_approx (a + c) b _ _ _ _ F3 Fb H3 Hb) as [F4 H4]; [lia|].
    apply (sum_is_180_of_approx _ (5 * rounding_error) F4); lia.
  - destruct (add_approx c a _ _ _ _ Fc Fa Hc Ha) as [F3 H3]; [lia|].
    destruct (add_approx (c + a) b _ _ _ _ F3 Fb H3 Hb) as [F4 H4]; [lia|].
    apply (sum_is_180_of_approx _ (5 * rounding_error) F4); lia.
Qed.
End Double_arithmetic.

(** ** The completion step *)

Lemma C_sums_in_range t i k :
  i < 3 →
  (∀ j, j < 3 → j ≠ i → in_range (C.value (C.nth_angle t j))) →
  C.sums_to_180
    (C.set_angle t i {| C.value := C.completed_value t i; C.is_known := k |}) = true.
Proof.
  intros Hi H. destruct t as [[va ka] [vb kb] [vc kc]].
  pose proof (H 0) as H0. pose proof (H 1) as H1. pose proof (H 2) as H2.
  unfold in_range in *. simpl in H0, H1, H2.
  unfold C.sums_to_180, C.sum_values, C.completed_value.
  destruct i as [|[|[|i]]]; [| | |lia]; simpl.
  - destruct H1 as [? ?]; [lia..|]. destruct H2 as [? ?]; [lia..|].
    by apply (completion_sum_in_range vb vc).
  - destruct H0 as [? ?]; [lia..|]. destruct H2 as [? ?]; [lia..|].
    by apply (completion_sum_in_range va vc).
  - destruct H0 as [? ?]; [lia..|]. destruct H1 as [? ?]; [lia..|].
    by apply (completion_sum_in_range va vb).
Qed.

Lemma Cpp_sums_in_range t i k :
  i < 3 →
  (∀ j, j < 3 → j ≠ i → in_range (Cpp.value (Cpp.nth_angle t j))) →
  Cpp.sums_to_180
    (Cpp.set_angle t i {| Cpp.value := Cpp.completed_value t i; Cpp.is_known := k |})
  = true.
Proof.
  intros Hi H. destruct t as [[va ka] [vb kb] [vc kc]].
  pose proof (H 0) as H0. pose proof (H 1) as H1. pose proof (H 2) as H2.
  unfold in_range in *. simpl in H0, H1, H2.
  unfold Cpp.sums_to_180, Cpp.sum_values, Cpp.completed_value.
  destruct i as [|[|[|i]]]; [| | |lia]; simpl.
  - destruct H1 as [? ?]; [lia..|]. destruct H2 as [? ?]; [lia..|].
    by apply (completion_sum_in_range vb vc).
  - destruct H0 as [? ?]; [lia..|]. destruct H2 as [? ?]; [lia..|].
    by apply (completion_sum_in_range va vc).
  - destruct H0 as [? ?]; [lia..|]. destruct H1 as [? ?]; [lia..|].
    by apply (completion_sum_in_range va vb).
Qed.

(** C1, as the programs have it.  On a stored triangle with exactly one
    unknown angle the completion step sets the value of that angle to
    180.0 minus the sum of the two known values (added to 0.0 in the order
    of their indices, in [double] arithmetic), marks it known, leaves the
    two known angles as they were and returns success, so the triangle a
    reader then finds is fully known.  Its three values sum to 180 within
    the rounding of [double] arithmetic when the two known values lie
    between 0 and 180; the step makes no check of its own on the values
    (in C++ the rule set is stored, as the step fetches it). *)
Theorem angle_completion (typeid_name : Cpp.cpp_type → string) :
  (∀ t, C.count_unknown t = 1 → ∃ i, i < 3 ∧ ¬ C.known (C.nth_angle t i)) ∧
  (∀ s t i,
     C.input_triangle s = Some t → C.count_unknown t = 1 →
     i < 3 → ¬ C.known (C.nth_angle t i) →
     let v := C.completed_value t i in
     let t1 := C.set_angle t i {| C.value := v; C.is_known := 1 |} in
     ∃ s1,
       C.calculate_angles_agent_execute s =
         Returns C.SC_RESULT_OK s1 [sc_log (Calculated_angle v)] ∧
       C.memory s1 = C.memory s ∧
       C.input_triangle s1 = Some t1 ∧
       C.fully_known t1 ∧
       (∀ j, C.known (C.nth_angle t j) → C.nth_angle t1 j = C.nth_angle t j) ∧
       ((∀ j, j < 3 → j ≠ i → in_range (C.value (C.nth_angle t j))) →
        C.sums_to_180 t1 = true)) ∧
  (∀ t, Cpp.count_unknown t = 1 →
        ∃ i, i < 3 ∧ Cpp.is_known (Cpp.nth_angle t i) = false) ∧
  (∀ s t i,
     Cpp.triangle_at typeid_name s = Some t → Cpp.rules_stored typeid_name s →
     Cpp.count_unknown t = 1 →
     i < 3 → Cpp.is_known (Cpp.nth_angle t i) = false →
     let v := Cpp.completed_value t i in
     let t1 := Cpp.set_angle t i {| Cpp.value := v; Cpp.is_known := true |} in
     ∃ s1,
       Cpp.CalculateAnglesAgent_execute typeid_name s =
         Returns Cpp.Ok s1 [sc_log (Calculated_angle v)] ∧
       Cpp.ctx s1 = Cpp.ctx s ∧
       Cpp.triangle_at typeid_name s1 = Some t1 ∧
       Cpp.fully_known t1 ∧
       (∀ j, Cpp.is_known (Cpp.nth_angle t j) = true →
             Cpp.nth_angle t1 j = Cpp.nth_angle t j) ∧
       ((∀ j, j < 3 → j ≠ i → in_range (Cpp.value (Cpp.nth_angle t j))) →
        Cpp.sums_to_180 t1 = true)).
Proof.
  split; [|split; [|split]].
  - intros t Hc. pose proof (completion_loops t) as H.
    destruct (let '(_, _) := C.tally_angles t in _) as [[t' v]|]; [|done].
    destruct H as (_ & i & Hi & Hu & _). eauto.
  - intros s t i Ht Hc Hi Hu v t1.
    apply input_triangle_Some in Ht as (p & Hget & Hload).
    rewrite (calculate_angles_run s p t Hget Hload).
    pose proof (completion_loops t) as H.
    destruct (let '(_, _) := C.tally_angles t in _) as [[t' v']|]; [|done].
    destruct H as (_ & i' & Hi' & Hu' & -> & ->).
    assert (i' = i) as ->.
    { destruct (decide (i' = i)) as [|Hne]; [done|]. exfalso. apply Hu'.
      by apply (count_unknown_others t i i'). }
    eexists. split; [done|]. split; [done|]. split.
    { apply input_triangle_Some. exists p. simpl. split; [done|].
      apply load_write_eq. by rewrite Hload. }
    split.
    { apply set_angle_fully_known; [done|]. intros j Hj Hne.
      by apply (count_unknown_others t i j). }
    split.
    { intros j Hj. by apply set_angle_other. }
    intros Hr. by apply C_sums_in_range.
  - intros t Hc. pose proof (Cpp_completion_loops t) as H.
    destruct (let '(_, _) := Cpp.tally_angles t in _) as [[t' v]|]; [|done].
    destruct H as (_ & i & Hi & Hu & _). eauto.
  - intros s t i Ht Hr Hc Hi Hu v t1.
    apply triangle_at_Some in Ht as (p & Htag & Hp & Hload).
    rewrite (Calculate_run typeid_name s p t Htag Hp Hload Hr).
    pose proof (Cpp_completion_loops t) as H.
    destruct (let '(_, _) := Cpp.tally_angles t in _) as [[t' v']|]; [|done].
    destruct H as (_ & i' & Hi' & Hu' & -> & ->).
    assert (i' = i) as ->.
    { destruct (decide (i' = i)) as [|Hne]; [done|].
      pose proof (Cpp_count_unknown_others t i i' Hc Hi Hu Hi' Hne). congruence. }
    eexists. split; [done|]. split; [done|]. split.
    { apply triangle_at_Some. exists p. simpl. repeat split; try done.
      apply load_write_eq. by rewrite Hload. }
    split.
    { apply Cpp_set_angle_fully_known; [done|]. intros j Hj Hne.
      by apply (Cpp_count_unknown_others t i j). }
    split.
    { intros j Hj. by apply Cpp_set_angle_other. }
    intros Hr'. by apply Cpp_sums_in_range.
Qed.

Lemma angle_completion_witness :
  (∃ s1,
     C.calculate_angles_agent_execute C_scenario_A =
       Returns C.SC_RESULT_OK s1 [sc_log (Calculated_angle 45%float)] ∧
     C.input_triangle s1 =
       Some (C_triangle (90%float, 1%Z) (45%float, 1%Z) (45%float, 1%Z)) ∧
     C.sums_to_180 (C_triangle (90%float, 1%Z) (45%float, 1%Z) (45%float, 1%Z))
       = true) ∧
  (∃ s1,
     Cpp.CalculateAnglesAgent_execute itanium_name Cpp_scenario_B =
       Returns Cpp.Ok s1 [sc_log (Calculated_angle 60%float)] ∧
     Cpp.triangle_at itanium_name s1 =
       Some (Cpp_triangle (60%float, true) (60%float, true) (60%float, true)) ∧
     Cpp.sums_to_180
       (Cpp_triangle (60%float, true) (60%float, true) (60%float, true)) = true).
Proof.
  destruct (angle_completion itanium_name) as (_ & H1 & _ & H2).
  split.
  - destruct (H1 C_scenario_A
                (C_triangle (90%float, 1%Z) (45%float, 1%Z) (0%float, 0%Z)) 2)
      as (s1 & Hrun & _ & Htri & _ & _ & Hsum).
    + reflexivity.
    + reflexivity.
    + lia.
    + intros H. apply H. reflexivity.
    + exists s1. split; [exact Hrun|]. split; [exact Htri|].
      apply Hsum. intros j Hj Hne.
      destruct j as [|[|j]]; [split; reflexivity|split; reflexivity|lia].
  - destruct (H2 Cpp_scenario_B
                (Cpp_triangle (60%float, true) (60%float, true) (0%float, false)) 2)
      as (s1 & Hrun & _ & Htri & _ & _ & Hsum).
    + reflexivity.
    + split; [reflexivity|]. eexists. reflexivity.
    + reflexivity.
    + lia.
    + reflexivity.
    + exists s1. split; [exact Hrun|]. split; [exact Htri|].
      apply Hsum. intros j Hj Hne.
      destruct j as [|[|j]]; [split; reflexivity|split; reflexivity|lia].
Defined.

(** With known values -1e20 and 0 the step still returns success and
    completes the triangle, to 1e20: 180 is lost in the rounding, and the
    three values sum to 0. *)
Lemma completion_sum_counterexample :
  (C.input_triangle C_huge =
     Some (C_triangle ((-1e20)%float, 1%Z) (0%float, 1%Z) (0%float, 0%Z)) ∧
   C.count_unknown
     (C_triangle ((-1e20)%float, 1%Z) (0%float, 1%Z) (0%float, 0%Z)) = 1 ∧
   ∃ s1 t1,
     C.calculate_angles_agent_execute C_huge =
       Returns C.SC_RESULT_OK s1 [sc_log (Calculated_angle 1e20%float)] ∧
     C.input_triangle s1 = Some t1 ∧
     t1 = C_triangle ((-1e20)%float, 1%Z) (0%float, 1%Z) (1e20%float, 1%Z) ∧
     C.sum_values t1 = 0%float ∧
     C.sums_to_180 t1 = false) ∧
  (Cpp.triangle_at itanium_name Cpp_huge =
     Some (Cpp_triangle ((-1e20)%float, true) (0%float, true) (0%float, false)) ∧
   Cpp.count_unknown
     (Cpp_triangle ((-1e20)%float, true) (0%float, true) (0%float, false)) = 1 ∧
   ∃ s1 t1,
     Cpp.CalculateAnglesAgent_execute itanium_name Cpp_huge =
       Returns Cpp.Ok s1 [sc_log (Calculated_angle 1e20%float)] ∧
     Cpp.triangle_at itanium_name s1 = Some t1 ∧
     t1 = Cpp_triangle ((-1e20)%float, true) (0%float, true) (1e20%float, true) ∧
     Cpp.sum_values t1 = 0%float ∧
     Cpp.sums_to_180 t1 = false).
Proof.
  split.
  - split; [reflexivity|]. split; [reflexivity|].
    eexists _, _. split; [reflexivity|]. split; [reflexivity|].
    split; [reflexivity|]. split; reflexivity.
  - split; [reflexivity|]. split; [reflexivity|].
    eexists _, _. split; [reflexivity|]. split; [reflexivity|].
    split; [reflexivity|]. split; reflexivity.
Qed.

(** ** Further runs of the programs *)

(** The store of the examples is the one [main] builds. *)
Example C_example_memory_built :
  (m ← C.sc_memory_store (C.sc_memory_init 10) "input_triangle" (Addr 0) "triangle";
   C.sc_memory_store m "rules_set" (Addr 1) "rules_set") = Some C_example_memory.
Proof. reflexivity. Qed.

(** The two test triangles of [main], on the states it builds: both steps
    return success, and the pipeline, which dereferences the pointer the
    classification step left, has no defined behaviour. *)
Example test_triangles_of_main :
  (∃ s1 s2,
     C.calculate_angles_agent_execute C_scenario_A =
       Returns C.SC_RESULT_OK s1 [sc_log (Calculated_angle 45%float)] ∧
     C.check_right_angle_agent_execute s1 =
       Returns C.SC_RESULT_OK s2 [sc_log (Text "Right angle detected (90°)")] ∧
     C.input_triangle s2 =
       Some (C_triangle (90%float, 1%Z) (45%float, 1%Z) (45%float, 1%Z)) ∧
     C.triangle_processing_agent_execute C_scenario_A = Undefined) ∧
  (∃ s1 s2,
     Cpp.CalculateAnglesAgent_execute itanium_name Cpp_scenario_B =
       Returns Cpp.Ok s1 [sc_log (Calculated_angle 60%float)] ∧
     Cpp.CheckRightAngleAgent_execute itanium_name s1 = Returns Cpp.Ok s2 [] ∧
     Cpp.triangle_at itanium_name s2 =
       Some (Cpp_triangle (60%float, true) (60%float, true) (60%float, true)) ∧
     Cpp.TriangleProcessingAgent_execute itanium_name Cpp_scenario_B = Undefined).
Proof.
  split; eexists _, _; (split; [reflexivity|]); (split; [reflexivity|]);
    split; reflexivity.
Qed.

(** The C++ steps fetch the rule set although they do not use it: on a
    store that holds the triangle alone both throw, and the retrieval
    leaves the empty tag at the rule-set key.  The C steps do not fetch it
    and run on such a store. *)
Example Cpp_steps_need_the_rule_set :
  let s := Cpp_without_rules
             (Cpp_triangle (90%float, true) (45%float, true) (0%float, false)) in
  let s' := {| Cpp.ctx := {| Cpp.data := Cpp.data (Cpp.ctx s);
                             Cpp.types := <["rules_set" := ""]>
                                            (Cpp.types (Cpp.ctx s)) |};
               Cpp.heap := Cpp.heap s |} in
  Cpp.CalculateAnglesAgent_execute itanium_name s =
    Aborts (Cpp.runtime_error "Type mismatch for SC element: rules_set") s' [] ∧
  Cpp.CheckRightAngleAgent_execute itanium_name s =
    Aborts (Cpp.runtime_error "Type mismatch for SC element: rules_set") s' [].
Proof. split; reflexivity. Qed.

Example C_steps_run_without_the_rule_set :
  let s := {| C.memory :=
                {| C.entries :=
                     [{| C.addr := "input_triangle"; C.data := Addr 0;
                         C.type := "triangle" |}];
                   C.capacity := 10 |};
              C.heap := [Some (C.OTriangle
                                 (C_triangle (90%float, 1%Z) (45%float, 1%Z)
                                    (0%float, 0%Z)))] |} in
  ∃ s1 s2,
    C.calculate_angles_agent_execute s =
      Returns C.SC_RESULT_OK s1 [sc_log (Calculated_angle 45%float)] ∧
    C.check_right_angle_agent_execute s1 =
      Returns C.SC_RESULT_OK s2 [sc_log (Text "Right angle detected (90°)")].
Proof. eexists _, _. split; reflexivity. Qed.

(** * Further properties of the store, of the steps and of the dump *)

Section C_store_more.
Import C.
Implicit Types (ctx : sc_memory_context) (es : list sc_memory_entry).
Implicit Types (a ty : string) (d : pointer).

Lemma find_entry_None_keys es a : find_entry es a = None ↔ a ∉ map addr es.
Proof.
  unfold find_entry. induction es as [|e es IH]; simpl.
  - split; [intros _; apply not_elem_of_nil|done].
  - rewrite not_elem_of_cons. destruct (String.eqb_spec (addr e) a) as [E|E].
    + split; [done|]. intros [H _]. by destruct H.
    + rewrite IH. split; [intros H; split; [done|exact H]|by intros [_ H]].
Qed.

Lemma update_entry_twice es a d1 t1 d2 t2 es1 :
  update_entry es a d1 t1 = Some es1 →
  update_entry es1 a d2 t2 = update_entry es a d2 t2.
Proof.
  revert es1. induction es as [|e es IH]; intros es1 H; simpl in *; [done|].
  destruct (String.eqb (addr e) a) eqn:E.
  - injection H as <-. simpl. by rewrite E.
  - destruct (update_entry es a d1 t1) as [es'|]; [|done].
    injection H as <-. simpl. rewrite E. by rewrite (IH es' eq_refl).
Qed.

Lemma update_entry_app_new es a d ty e :
  find_entry es a = None → addr e = a →
  update_entry (es ++ [e]) a d ty =
    Some (es ++ [{| addr := a; data := d; type := ty |}]).
Proof.
  unfold find_entry. intros H <-.
  induction es as [|e' es IH]; simpl in *.
  - by rewrite String.eqb_refl.
  - destruct (String.eqb (addr e') (addr e)); [done|]. by rewrite IH.
Qed.

Lemma keys_store ctx a d ty ctx' :
  sc_memory_store ctx a d ty = Some ctx' →
  keys ctx' = if decide (a ∈ keys ctx) then keys ctx else keys ctx ++ [a].
Proof.
  unfold keys. intros [[H _]|(H & -> & _)]%sc_memory_store_Some.
  - rewrite (update_entry_addrs _ _ _ _ _ H).
    destruct (decide _) as [|Hn]; [done|].
    apply find_entry_None_keys in Hn.
    apply update_entry_None with (d := d) (ty := ty) in Hn. congruence.
  - apply find_entry_None_keys in H. rewrite map_app. simpl.
    by destruct (decide _).
Qed.

End C_store_more.



(** X2. The keys of the C store stay distinct: the store is empty after
    [sc_memory_init], and [sc_memory_store] appends an entry only when its
    first loop found no entry with the key. *)
Theorem store_keeps_keys_distinct :
  (∀ c, NoDup (C.keys (C.sc_memory_init c))) ∧
  (∀ ctx a d ty ctx',
     NoDup (C.keys ctx) → C.sc_memory_store ctx a d ty = Some ctx' →
     NoDup (C.keys ctx')).
Proof.
  split; [intros c; apply NoDup_nil_2|].
  intros ctx a d ty ctx' H Hs. rewrite (keys_store ctx a d ty ctx' Hs).
  destruct (decide _) as [|Hn]; [done|].
  apply NoDup_app. split; [done|]. split; [|apply NoDup_singleton].
  intros x Hx Hx'. apply list_elem_of_singleton in Hx'. by subst.
Qed.

Lemma store_keeps_keys_distinct_witness :
  NoDup (C.keys C_example_memory).
Proof.
  apply (proj2 store_keeps_keys_distinct
           {| C.entries :=
                [{| C.addr := "input_triangle"; C.data := Addr 0;
                    C.type := "triangle" |}];
              C.capacity := 10 |} "rules_set" (Addr 1) "rules_set"
           C_example_memory); [|reflexivity].
  apply (proj2 store_keeps_keys_distinct (C.sc_memory_init 10) "input_triangle"
           (Addr 0) "triangle" _); [|reflexivity].
  apply (proj1 store_keeps_keys_distinct).
Defined.



(** X4. The last store at a key wins: a store that follows another at the
    same key leaves the store the second one alone would have left, the
    capacity of the C array included; and where the second one alone would
    write past the array, so does the first of the two. *)
Theorem store_last_write_wins (typeid_name : Cpp.cpp_type → string) :
  (∀ ctx a d1 t1 d2 t2,
     (ctx1 ← C.sc_memory_store ctx a d1 t1; C.sc_memory_store ctx1 a d2 t2) =
     C.sc_memory_store ctx a d2 t2) ∧
  (∀ T1 T2 ctx a v1 v2,
     Cpp.store typeid_name T2 (Cpp.store typeid_name T1 ctx a v1) a v2 =
     Cpp.store typeid_name T2 ctx a v2).
Proof.
  split.
  - intros ctx a d1 t1 d2 t2.
    destruct (C.sc_memory_store ctx a d1 t1) as [c1|] eqn:H1; simpl.
    + apply sc_memory_store_Some in H1 as [[H Hcap]|(H & He & Hlt & Hcap)].
      * unfold C.sc_memory_store.
        rewrite (update_entry_twice _ _ _ _ d2 t2 _ H), Hcap.
        destruct (C.update_entry (C.entries ctx) a d2 t2) as [es2|] eqn:E2; [done|].
        apply update_entry_None in E2.
        apply (update_entry_None _ _ d1 t1) in E2. congruence.
      * unfold C.sc_memory_store.
        rewrite He, (update_entry_app_new (C.entries ctx) a d2 t2
                       {| C.addr := a; C.data := d1; C.type := t1 |} H eq_refl).
        rewrite (proj2 (update_entry_None _ _ d2 t2) H). cbv zeta.
        rewrite <- Hcap. apply Z.ltb_lt in Hlt. by rewrite Hlt.
    + unfold C.sc_memory_store in *.
      destruct (C.update_entry (C.entries ctx) a d1 t1) as [es1|] eqn:E; [done|].
      apply update_entry_None in E.
      rewrite (proj2 (update_entry_None _ _ d2 t2) E). cbv zeta in *.
      by destruct (C.size ctx <? _)%Z.
  - intros. unfold Cpp.store. simpl. by rewrite !insert_insert_eq.
Qed.



(** X6. A store initialised with capacity 0 never gets room: doubling 0
    gives 0, so a store of a new key writes the entry past the end of the
    array, which has no defined behaviour. *)
Theorem store_zero_capacity ctx a d ty :
  C.capacity ctx = 0%Z → a ∉ C.keys ctx →
  C.sc_memory_store ctx a d ty = None.
Proof.
  intros Hc Ha. apply find_entry_None_keys in Ha.
  apply (update_entry_None _ _ d ty) in Ha.
  unfold C.sc_memory_store, C.size. rewrite Ha, Hc. cbv zeta.
  destruct (Z.geb_spec (Z.of_nat (length (C.entries ctx))) 0); [|lia].
  rewrite Z.mul_0_l, Zmod_0_l.
  by destruct (Z.ltb_spec (Z.of_nat (length (C.entries ctx))) 0); [lia|].
Qed.

Lemma store_zero_capacity_witness :
  C.sc_memory_store (C.sc_memory_init 0) "k" NULL "int" = None.
Proof.
  apply (store_zero_capacity (C.sc_memory_init 0) "k" NULL "int").
  - reflexivity.
  - apply not_elem_of_nil.
Defined.

(** X7. [MemoryContext::get] leaves the context as it was exactly when the
    key has a tag and, if the tag is the requested one, a pointer as well;
    in every other case one of the two [operator[]] inserts into a map. *)
Theorem get_read_only_iff (typeid_name : Cpp.cpp_type → string) T ctx k :
  (Cpp.get typeid_name T ctx k).2 = ctx ↔
  ∃ tag, Cpp.types ctx !! k = Some tag ∧
         (tag = typeid_name T → is_Some (Cpp.data ctx !! k)).
Proof.
  unfold Cpp.get, Cpp.subscript. destruct ctx as [da ty]. simpl.
  destruct (ty !! k) as [tag|] eqn:Ht.
  - destruct (String.eqb_spec tag (typeid_name T)) as [E|E]; simpl.
    + destruct (da !! k) as [p|] eqn:Hp; simpl.
      * split; [|done]. intros _. exists tag. split; [done|]. by eexists.
      * split.
        -- intros [= H]. apply (f_equal (λ m, m !! k)) in H.
           rewrite lookup_insert_eq, Hp in H. done.
        -- intros (tag' & [= <-] & H). by destruct (H E).
    + split; [|done]. intros _. exists tag. by split.
  - assert (∀ b (x y : (pointer + Cpp.exception) * Cpp.MemoryContext),
              Cpp.types (if b : bool then x else y).2 =
              if b then Cpp.types x.2 else Cpp.types y.2) as Hif by (by intros []).
    split.
    + intros H. apply (f_equal Cpp.types) in H. rewrite Hif in H. simpl in H.
      assert (<[k:=""]> ty = ty) as H'.
      { destruct (negb _); [done|]. by destruct (da !! k). }
      apply (f_equal (λ m, m !! k)) in H'.
      rewrite lookup_insert_eq, Ht in H'. done.
    + by intros (tag & [=] & _).
Qed.

Lemma get_read_only_iff_witness :
  (Cpp.get itanium_name Cpp.T_Triangle Cpp_example_context "input_triangle").2 =
    Cpp_example_context ∧
  (Cpp.get itanium_name Cpp.T_bool Cpp_example_context "input_triangle").2 =
    Cpp_example_context.
Proof.
  split.
  - apply (proj2 (get_read_only_iff itanium_name Cpp.T_Triangle Cpp_example_context
                    "input_triangle")).
    exists "8Triangle". split; [reflexivity|]. intros _. by exists (Addr 0).
  - apply (proj2 (get_read_only_iff itanium_name Cpp.T_bool Cpp_example_context
                    "input_triangle")).
    exists "8Triangle". split; [reflexivity|]. done.
Defined.

Section Cpp_consistent.
Import Cpp.
Variable typeid_name : cpp_type → string.

Lemma consistent_empty : consistent empty_context.
Proof.
  split.
  - intros k [p H]. simpl in H. by rewrite lookup_empty in H.
  - intros k tag H. simpl in H. by rewrite lookup_empty in H.
Qed.

Lemma consistent_store T c k v :
  consistent c → consistent (store typeid_name T c k v).
Proof.
  intros [H1 H2]. split; simpl.
  - intros k'. destruct (decide (k = k')) as [->|Hne].
    + by rewrite !lookup_insert_eq.
    + rewrite !lookup_insert_ne by done. apply H1.
  - intros k' tag. destruct (decide (k = k')) as [->|Hne].
    + by rewrite !lookup_insert_eq.
    + rewrite !lookup_insert_ne by done. apply H2.
Qed.

Lemma consistent_get T c k :
  consistent c → consistent (get typeid_name T c k).2.
Proof.
  intros [H1 H2]. unfold get, subscript.
  destruct (types c !! k) as [tag|] eqn:Ht.
  - destruct (negb _); simpl; [done|].
    destruct (data c !! k) as [p|] eqn:Hp; simpl; [done|].
    split; simpl.
    + intros k'. destruct (decide (k = k')) as [->|Hne].
      * by rewrite Ht.
      * rewrite lookup_insert_ne by done. apply H1.
    + intros k' tag' Hk' Hne'. destruct (decide (k = k')) as [->|Hne].
      * by rewrite lookup_insert_eq.
      * rewrite lookup_insert_ne by done. by eapply H2.
  - assert (consistent {| data := data c; types := <[k := ""]> (types c) |}) as Hc.
    { split; simpl.
      - intros k' Hk'. destruct (decide (k = k')) as [->|Hne].
        + by rewrite lookup_insert_eq.
        + rewrite lookup_insert_ne by done. by apply H1.
      - intros k' tag'. destruct (decide (k = k')) as [->|Hne].
        + rewrite lookup_insert_eq. by intros [= <-].
        + rewrite lookup_insert_ne by done. apply H2. }
    destruct (negb _); simpl; [done|].
    destruct (data c !! k) as [p|] eqn:Hp; simpl; [done|].
    destruct Hc as [Hc1 Hc2]. split; simpl.
    + intros k' Hk'. destruct (decide (k = k')) as [->|Hne].
      * by rewrite lookup_insert_eq.
      * rewrite lookup_insert_ne in Hk' by done. by apply Hc1.
    + intros k' tag' Hk' Hne'. destruct (decide (k = k')) as [->|Hne].
      * by rewrite lookup_insert_eq.
      * rewrite lookup_insert_ne by done. by eapply Hc2.
Qed.

End Cpp_consistent.

(** X8. The two maps of a C++ context stay consistent under [store] and
    [get], starting from the empty context: every key with a pointer has a
    tag, and every key with a tag other than the empty one has a pointer. *)
Theorem store_and_get_keep_consistent (typeid_name : Cpp.cpp_type → string) :
  Cpp.consistent empty_context ∧
  (∀ T ctx k v,
     Cpp.consistent ctx → Cpp.consistent (Cpp.store typeid_name T ctx k v)) ∧
  (∀ T ctx k,
     Cpp.consistent ctx → Cpp.consistent (Cpp.get typeid_name T ctx k).2).
Proof.
  split; [apply consistent_empty|].
  split; [apply consistent_store|apply consistent_get].
Qed.

Lemma store_and_get_keep_consistent_witness :
  Cpp.consistent
    (Cpp.get itanium_name Cpp.T_bool
       (Cpp.store itanium_name Cpp.T_Triangle empty_context "input_triangle"
          (Addr 0)) "is_right_triangle").2.
Proof.
  destruct (store_and_get_keep_consistent itanium_name) as (H0 & H1 & H2).
  apply H2, H1, H0.
Defined.

(** ** The pipeline after the two steps *)

(** X9. The pipeline never gets to its verdict in a defined way: whenever
    the completion step returns success (as it does on every stored
    triangle with exactly one unknown angle; in C++ with the rule set
    stored), the classification step leaves the address of its dead local
    [is_right] under the classification key, or writes past the array of
    the C store, and the pipeline dereferences that pointer to choose its
    last message and return: it has no defined behaviour. *)
Theorem pipeline_reads_a_dangling_pointer (typeid_name : Cpp.cpp_type → string) :
  (∀ s s1 out,
     C.calculate_angles_agent_execute s = Returns C.SC_RESULT_OK s1 out →
     C.triangle_processing_agent_execute s = Undefined) ∧
  (∀ s t,
     C.input_triangle s = Some t → C.count_unknown t = 1 →
     C.triangle_processing_agent_execute s = Undefined) ∧
  (∀ s s1 out,
     Cpp.CalculateAnglesAgent_execute typeid_name s = Returns Cpp.Ok s1 out →
     Cpp.TriangleProcessingAgent_execute typeid_name s = Undefined) ∧
  (∀ s t,
     Cpp.triangle_at typeid_name s = Some t → Cpp.rules_stored typeid_name s →
     Cpp.count_unknown t = 1 →
     Cpp.TriangleProcessingAgent_execute typeid_name s = Undefined).
Proof.
  split; [|split; [|split]].
  - apply pipeline_after_completion.
  - intros s t Ht Hc. apply input_triangle_Some in Ht as (p & Hget & Hload).
    pose proof (calculate_angles_run s p t Hget Hload) as Hrun.
    pose proof (completion_loops t) as H.
    destruct (let '(_, _) := C.tally_angles t in _) as [[t' v]|]; [|done].
    by eapply pipeline_after_completion.
  - apply Pipeline_after_completion.
  - intros s t Ht Hr Hc.
    apply triangle_at_Some in Ht as (p & Htag & Hp & Hload).
    pose proof (Calculate_run typeid_name s p t Htag Hp Hload Hr) as Hrun.
    pose proof (Cpp_completion_loops t) as H.
    destruct (let '(_, _) := Cpp.tally_angles t in _) as [[t' v]|]; [|done].
    by eapply Pipeline_after_completion.
Qed.

Lemma pipeline_reads_a_dangling_pointer_witness :
  C.triangle_processing_agent_execute C_scenario_A = Undefined ∧
  C.triangle_processing_agent_execute C_scenario_B = Undefined ∧
  Cpp.TriangleProcessingAgent_execute itanium_name Cpp_scenario_A = Undefined ∧
  Cpp.TriangleProcessingAgent_execute itanium_name Cpp_scenario_B = Undefined.
Proof.
  destruct (pipeline_reads_a_dangling_pointer itanium_name) as (H1 & H2 & H3 & H4).
  split; [|split; [|split]].
  - eapply (H1 C_scenario_A). reflexivity.
  - eapply (H2 C_scenario_B); reflexivity.
  - eapply (H3 Cpp_scenario_A). reflexivity.
  - eapply (H4 Cpp_scenario_B); [reflexivity| |reflexivity].
    split; [reflexivity|]. eexists. reflexivity.
Defined.

(** ** What the classification step decides *)

(** X21. The classification step on a stored triangle (in C with the array
    of the store within its capacity, in C++ with the rule set stored)
    returns success, prints that it detected a right angle exactly when
    some angle that is marked known has a value within 0.001 of 90.0, and
    prints nothing otherwise; the triangle is as before, and the pointer it
    leaves under the classification key dangles, so that a reader of the
    key finds no truth value. *)
Theorem classification_step_decides_and_dangles
    (typeid_name : Cpp.cpp_type → string) :
  (∀ s t,
     C.input_triangle s = Some t → C.within_capacity (C.memory s) →
     ∃ s1 out,
       C.check_right_angle_agent_execute s = Returns C.SC_RESULT_OK s1 out ∧
       (out = [sc_log (Text "Right angle detected (90°)")] ∨ out = []) ∧
       (out = [sc_log (Text "Right angle detected (90°)")] ↔
        ∃ i, i < 3 ∧ C.known (C.nth_angle t i) ∧
             near_90 (C.value (C.nth_angle t i)) = true) ∧
       C.input_triangle s1 = Some t ∧
       C.is_right_triangle s1 = None) ∧
  (∀ s t,
     Cpp.triangle_at typeid_name s = Some t → Cpp.rules_stored typeid_name s →
     ∃ s1 out,
       Cpp.CheckRightAngleAgent_execute typeid_name s = Returns Cpp.Ok s1 out ∧
       (out = [sc_log (Text "Right angle detected (90°)")] ∨ out = []) ∧
       (out = [sc_log (Text "Right angle detected (90°)")] ↔
        ∃ i, i < 3 ∧ Cpp.is_known (Cpp.nth_angle t i) = true ∧
             near_90 (Cpp.value (Cpp.nth_angle t i)) = true) ∧
       Cpp.triangle_at typeid_name s1 = Some t ∧
       Cpp.classification_at typeid_name s1 = None).
Proof.
  split.
  - intros s t Ht [Hc Hs]. pose proof Ht as Ht'.
    apply input_triangle_Some in Ht' as (p & Hget & Hload).
    pose proof (check_right_angle_run s p t Hget Hload) as Hrun. cbv zeta in Hrun.
    destruct (sc_memory_store_capacity (C.memory s) "is_right_triangle"
                (Addr (length (C.heap s))) "int" Hc Hs) as (m & Hm & _).
    rewrite Hm in Hrun. eexists _, _. split; [exact Hrun|].
    pose proof (C_existsb_right_angle t) as Hb. unfold near_90.
    split; [by destruct (existsb _ _); auto|]. split.
    + rewrite <- Hb. by destruct (existsb _ _).
    + split.
      * rewrite (input_triangle_after_check s m _ _ None ltac:(by rewrite Ht) Hm).
        done.
      * by apply is_right_triangle_after_check.
  - intros s t Ht Hr. pose proof Ht as Ht'.
    apply triangle_at_Some in Ht' as (p & Htag & Hp & Hload).
    pose proof (Check_run typeid_name s p t Htag Hp Hload Hr) as Hrun.
    cbv zeta in Hrun. eexists _, _. split; [exact Hrun|].
    pose proof (Cpp_existsb_right_angle t) as Hb. unfold near_90.
    split; [by destruct (existsb _ _); auto|]. split.
    + rewrite <- Hb. by destruct (existsb _ _).
    + split.
      * rewrite triangle_at_after_Check; [done|by rewrite Ht].
      * apply classification_at_after_Check.
Qed.

Lemma classification_step_decides_and_dangles_witness :
  (∃ s1 out,
     C.check_right_angle_agent_execute C_two_unknown =
       Returns C.SC_RESULT_OK s1 out ∧
     (out = [sc_log (Text "Right angle detected (90°)")] ∨ out = []) ∧
     (out = [sc_log (Text "Right angle detected (90°)")] ↔
      ∃ i, i < 3 ∧
        C.known
          (C.nth_angle
             (C_triangle (90%float, 1%Z) (0%float, 0%Z) (0%float, 0%Z)) i) ∧
        near_90
          (C.value
             (C.nth_angle
                (C_triangle (90%float, 1%Z) (0%float, 0%Z) (0%float, 0%Z)) i))
        = true) ∧
     C.input_triangle s1 =
       Some (C_triangle (90%float, 1%Z) (0%float, 0%Z) (0%float, 0%Z)) ∧
     C.is_right_triangle s1 = None) ∧
  (∃ s1 out,
     Cpp.CheckRightAngleAgent_execute itanium_name Cpp_scenario_B =
       Returns Cpp.Ok s1 out ∧
     (out = [sc_log (Text "Right angle detected (90°)")] ∨ out = []) ∧
     (out = [sc_log (Text "Right angle detected (90°)")] ↔
      ∃ i, i < 3 ∧
        Cpp.is_known
          (Cpp.nth_angle
             (Cpp_triangle (60%float, true) (60%float, true) (0%float, false)) i)
        = true ∧
        near_90
          (Cpp.value
             (Cpp.nth_angle
                (Cpp_triangle (60%float, true) (60%float, true)
                   (0%float, false)) i)) = true) ∧
     Cpp.triangle_at itanium_name s1 =
       Some (Cpp_triangle (60%float, true) (60%float, true) (0%float, false)) ∧
     Cpp.classification_at itanium_name s1 = None).
Proof.
  destruct (classification_step_decides_and_dangles itanium_name) as (H1 & H2).
  split.
  - apply (H1 C_two_unknown); [done|]. split; [simpl; lia|].
    unfold C.size. simpl. lia.
  - apply (H2 Cpp_scenario_B); [done|]. split; [done|]. by eexists.
Defined.

(** ** The value of an unknown angle *)

Lemma stale_value t i v' :
  i < 3 → ¬ C.known (C.nth_angle t i) →
  let t' := C.set_angle t i
              {| C.value := v'; C.is_known := C.is_known (C.nth_angle t i) |} in
  C.count_unknown t' = C.count_unknown t ∧
  ¬ C.known (C.nth_angle t' i) ∧
  C.completed_value t' i = C.completed_value t i ∧
  ∀ a, C.set_angle t' i a = C.set_angle t i a.
Proof.
  intros Hi Hu. destruct t as [a b c].
  destruct i as [|[|[|i]]]; [| | |lia]; cbn in *; repeat split;
    try done;
    by destruct (negb (C.truthy (C.is_known a))),
         (negb (C.truthy (C.is_known b))), (negb (C.truthy (C.is_known c))).
Qed.

Lemma Cpp_stale_value t i v' :
  i < 3 → Cpp.is_known (Cpp.nth_angle t i) = false →
  let t' := Cpp.set_angle t i
              {| Cpp.value := v';
                 Cpp.is_known := Cpp.is_known (Cpp.nth_angle t i) |} in
  Cpp.count_unknown t' = Cpp.count_unknown t ∧
  Cpp.is_known (Cpp.nth_angle t' i) = false ∧
  Cpp.completed_value t' i = Cpp.completed_value t i ∧
  ∀ a, Cpp.set_angle t' i a = Cpp.set_angle t i a.
Proof.
  intros Hi Hu. destruct t as [a b c].
  destruct i as [|[|[|i]]]; [| | |lia]; cbn in *; repeat split;
    try done;
    by destruct (negb (Cpp.is_known a)), (negb (Cpp.is_known b)),
         (negb (Cpp.is_known c)).
Qed.

Lemma write_write {object : Type} (h : list (option object)) p o o' :
  write (write h p o) p o' = write h p o'.
Proof. destruct p; simpl; [done|apply list_insert_insert_eq]. Qed.

(** X10. The value of an angle that is not known is never read.  Take a
    state that holds a triangle and put another value at an angle that is
    not known.  When exactly one angle is unknown, the completion step
    does on the new state exactly what it does on the old one: it returns
    success with the same message and leaves the same state.  The
    classification step (in C with the array of the store within its
    capacity, in C++ with the rule set stored) returns success on both
    states with the same messages and leaves the same store. *)
Theorem unknown_value_is_never_read (typeid_name : Cpp.cpp_type → string) :
  (∀ s p t i v',
     C.sc_memory_get (C.memory s) "input_triangle" "triangle" = inl p →
     load (C.heap s) p = Some (C.OTriangle t) →
     i < 3 → ¬ C.known (C.nth_angle t i) →
     let t' := C.set_angle t i
                 {| C.value := v'; C.is_known := C.is_known (C.nth_angle t i) |} in
     let s' := {| C.memory := C.memory s;
                  C.heap := write (C.heap s) p (C.OTriangle t') |} in
     (C.count_unknown t = 1 →
      ∃ s1 out,
        C.calculate_angles_agent_execute s = Returns C.SC_RESULT_OK s1 out ∧
        C.calculate_angles_agent_execute s' = Returns C.SC_RESULT_OK s1 out) ∧
     (C.within_capacity (C.memory s) →
      ∃ s1 s1' out,
        C.check_right_angle_agent_execute s = Returns C.SC_RESULT_OK s1 out ∧
        C.check_right_angle_agent_execute s' = Returns C.SC_RESULT_OK s1' out ∧
        C.memory s1' = C.memory s1)) ∧
  (∀ s p t i v',
     Cpp.types (Cpp.ctx s) !! "input_triangle" = Some (typeid_name Cpp.T_Triangle) →
     Cpp.data (Cpp.ctx s) !! "input_triangle" = Some p →
     load (Cpp.heap s) p = Some (Cpp.OTriangle t) →
     Cpp.rules_stored typeid_name s →
     i < 3 → Cpp.is_known (Cpp.nth_angle t i) = false →
     let t' := Cpp.set_angle t i
                 {| Cpp.value := v';
                    Cpp.is_known := Cpp.is_known (Cpp.nth_angle t i) |} in
     let s' := {| Cpp.ctx := Cpp.ctx s;
                  Cpp.heap := write (Cpp.heap s) p (Cpp.OTriangle t') |} in
     (Cpp.count_unknown t = 1 →
      ∃ s1 out,
        Cpp.CalculateAnglesAgent_execute typeid_name s = Returns Cpp.Ok s1 out ∧
        Cpp.CalculateAnglesAgent_execute typeid_name s' = Returns Cpp.Ok s1 out) ∧
     (∃ s1 s1' out,
        Cpp.CheckRightAngleAgent_execute typeid_name s = Returns Cpp.Ok s1 out ∧
        Cpp.CheckRightAngleAgent_execute typeid_name s' = Returns Cpp.Ok s1' out ∧
        Cpp.ctx s1' = Cpp.ctx s1)).
Proof.
  split.
  - intros s p t i v' Hget Hload Hi Hu t' s'.
    destruct (stale_value t i v' Hi Hu) as (Hc' & Hu' & Hv & Hset).
    fold t' in Hc', Hu', Hv, Hset.
    assert (load (C.heap s') p = Some (C.OTriangle t')) as Hload'.
    { apply load_write_eq. by rewrite Hload. }
    assert (existsb C.is_right_angle (C.angles t') =
            existsb C.is_right_angle (C.angles t)) as Hb.
    { apply truthy_unknown in Hu. subst t'. destruct t as [a b c].
      destruct i as [|[|[|i]]]; [| | |lia]; unfold C.angles, C.is_right_angle;
        simpl in *; by rewrite Hu. }
    split.
    + intros Hc.
      rewrite (calculate_angles_run s p t Hget Hload).
      rewrite (calculate_angles_run s' p t' Hget Hload').
      pose proof (completion_loops t) as H. pose proof (completion_loops t') as H'.
      destruct (let '(_, _) := C.tally_angles t in _) as [[t1 v1]|];
        [|done].
      destruct (let '(_, _) := C.tally_angles t' in _) as [[t1' v1']|];
        [|by rewrite Hc' in H'].
      destruct H as (_ & j & Hj & Huj & -> & ->).
      destruct H' as (_ & j' & Hj' & Huj' & -> & ->).
      assert (j = i) as ->.
      { destruct (decide (j = i)) as [|Hne]; [done|]. exfalso. apply Huj.
        by apply (count_unknown_others t i j). }
      assert (j' = i) as ->.
      { destruct (decide (j' = i)) as [|Hne]; [done|]. exfalso. apply Huj'.
        apply (count_unknown_others t' i j'); try done. by rewrite Hc'. }
      eexists _, _. split; [done|]. subst s'. cbn [C.memory C.heap].
      by rewrite write_write, Hv, Hset.
    + intros [Hc Hs].
      rewrite (check_right_angle_run s p t Hget Hload).
      rewrite (check_right_angle_run s' p t' Hget Hload'). cbv zeta.
      subst s'. cbn [C.memory C.heap]. rewrite length_write, Hb.
      destruct (sc_memory_store_capacity (C.memory s) "is_right_triangle"
                  (Addr (length (C.heap s))) "int" Hc Hs) as (m & -> & _).
      by eexists _, _, _.
  - intros s p t i v' Htag Hp Hload Hr Hi Hu t' s'.
    destruct (Cpp_stale_value t i v' Hi Hu) as (Hc' & Hu' & Hv & Hset).
    fold t' in Hc', Hu', Hv, Hset.
    assert (load (Cpp.heap s') p = Some (Cpp.OTriangle t')) as Hload'.
    { apply load_write_eq. by rewrite Hload. }
    assert (existsb Cpp.is_right_angle (Cpp.angles t') =
            existsb Cpp.is_right_angle (Cpp.angles t)) as Hb.
    { subst t'. destruct t as [a b c].
      destruct i as [|[|[|i]]]; [| | |lia]; unfold Cpp.angles, Cpp.is_right_angle;
        simpl in *; by rewrite Hu. }
    split.
    + intros Hc.
      rewrite (Calculate_run typeid_name s p t Htag Hp Hload Hr).
      rewrite (Calculate_run typeid_name s' p t' Htag Hp Hload' Hr).
      pose proof (Cpp_completion_loops t) as H.
      pose proof (Cpp_completion_loops t') as H'.
      destruct (let '(_, _) := Cpp.tally_angles t in _) as [[t1 v1]|];
        [|done].
      destruct (let '(_, _) := Cpp.tally_angles t' in _) as [[t1' v1']|];
        [|by rewrite Hc' in H'].
      destruct H as (_ & j & Hj & Huj & -> & ->).
      destruct H' as (_ & j' & Hj' & Huj' & -> & ->).
      assert (j = i) as ->.
      { destruct (decide (j = i)) as [|Hne]; [done|].
        pose proof (Cpp_count_unknown_others t i j Hc Hi Hu Hj Hne). congruence. }
      assert (j' = i) as ->.
      { destruct (decide (j' = i)) as [|Hne]; [done|].
        pose proof (Cpp_count_unknown_others t' i j' (eq_trans Hc' Hc) Hi Hu' Hj' Hne).
        congruence. }
      eexists _, _. split; [done|]. subst s'. cbn [Cpp.ctx Cpp.heap].
      by rewrite write_write, Hv, Hset.
    + rewrite (Check_run typeid_name s p t Htag Hp Hload Hr).
      rewrite (Check_run typeid_name s' p t' Htag Hp Hload' Hr). cbv zeta.
      subst s'. cbn [Cpp.ctx Cpp.heap]. rewrite length_write, Hb.
      by eexists _, _, _.
Qed.

Lemma unknown_value_is_never_read_witness :
  (∃ s1 out,
     C.calculate_angles_agent_execute C_scenario_A =
       Returns C.SC_RESULT_OK s1 out ∧
     C.calculate_angles_agent_execute
       (C_state_of (C_triangle (90%float, 1%Z) (45%float, 1%Z) (123%float, 0%Z))) =
       Returns C.SC_RESULT_OK s1 out) ∧
  (∃ s1 s1' out,
     Cpp.CheckRightAngleAgent_execute itanium_name Cpp_scenario_A =
       Returns Cpp.Ok s1 out ∧
     Cpp.CheckRightAngleAgent_execute itanium_name
       (Cpp_state_of
          (Cpp_triangle (90%float, true) (45%float, true) (123%float, false))) =
       Returns Cpp.Ok s1' out ∧
     Cpp.ctx s1' = Cpp.ctx s1).
Proof.
  destruct (unknown_value_is_never_read itanium_name) as [H1 H2]. split.
  - refine (proj1 (H1 C_scenario_A (Addr 0)
                     (C_triangle (90%float, 1%Z) (45%float, 1%Z) (0%float, 0%Z)) 2
                     123%float _ _ _ _) _).
    + reflexivity.
    + reflexivity.
    + lia.
    + intros H. apply H. reflexivity.
    + reflexivity.
  - refine (proj2 (H2 Cpp_scenario_A (Addr 0)
                     (Cpp_triangle (90%float, true) (45%float, true)
                        (0%float, false)) 2 123%float _ _ _ _ _ _)).
    + reflexivity.
    + reflexivity.
    + reflexivity.
    + split; [reflexivity|]. eexists. reflexivity.
    + lia.
    + reflexivity.
Defined.

(** ** The steps on a store without a triangle *)

(** X11. On a store that has no triangle key the C steps and the pipeline
    dereference the null pointer [sc_memory_get] returned, which has no
    defined behaviour; the C++ steps and the pipeline throw the mismatch
    error, and leave the empty tag at the triangle key. *)
Theorem steps_without_triangle (typeid_name : Cpp.cpp_type → string) :
  (∀ s,
     "input_triangle" ∉ C.keys (C.memory s) →
     C.calculate_angles_agent_execute s = Undefined ∧
     C.check_right_angle_agent_execute s = Undefined ∧
     C.triangle_processing_agent_execute s = Undefined) ∧
  (∀ s,
     Cpp.types (Cpp.ctx s) !! "input_triangle" = None →
     typeid_name Cpp.T_Triangle ≠ "" →
     let e := Cpp.runtime_error "Type mismatch for SC element: input_triangle" in
     let s' := {| Cpp.ctx := {| Cpp.data := Cpp.data (Cpp.ctx s);
                                Cpp.types := <["input_triangle" := ""]>
                                               (Cpp.types (Cpp.ctx s)) |};
                  Cpp.heap := Cpp.heap s |} in
     Cpp.CalculateAnglesAgent_execute typeid_name s = Aborts e s' [] ∧
     Cpp.CheckRightAngleAgent_execute typeid_name s = Aborts e s' [] ∧
     Cpp.TriangleProcessingAgent_execute typeid_name s =
       Aborts e s' [sc_log (Text "Starting triangle processing")]).
Proof.
  split.
  - intros s Hk. apply find_entry_None_keys in Hk.
    assert (C.calculate_angles_agent_execute s = Undefined) as Hcalc.
    { unfold C.calculate_angles_agent_execute, mbind, M_bind, bind, C.memory_get,
        C.sc_memory_get. by rewrite Hk. }
    split; [done|]. split.
    + unfold C.check_right_angle_agent_execute, mbind, M_bind, bind, C.memory_get,
        C.sc_memory_get. by rewrite Hk.
    + by rewrite pipeline_after_calculate, Hcalc.
  - intros s Hk HT e s'.
    assert (Cpp.CalculateAnglesAgent_execute typeid_name s = Aborts e s' []) as Hcalc.
    { unfold Cpp.CalculateAnglesAgent_execute, mbind, M_bind, bind, Cpp.ctx_get.
      by rewrite (get_absent typeid_name _ _ _ Hk HT). }
    split; [done|]. split.
    + unfold Cpp.CheckRightAngleAgent_execute, mbind, M_bind, bind, Cpp.ctx_get.
      by rewrite (get_absent typeid_name _ _ _ Hk HT).
    + by rewrite Pipeline_after_Calculate, Hcalc.
Qed.

Lemma steps_without_triangle_witness :
  (C.calculate_angles_agent_execute
     {| C.memory := C.sc_memory_init 10; C.heap := [] |} = Undefined ∧
   C.check_right_angle_agent_execute
     {| C.memory := C.sc_memory_init 10; C.heap := [] |} = Undefined ∧
   C.triangle_processing_agent_execute
     {| C.memory := C.sc_memory_init 10; C.heap := [] |} = Undefined) ∧
  (let e := Cpp.runtime_error "Type mismatch for SC element: input_triangle" in
   let s' := {| Cpp.ctx := {| Cpp.data := ∅;
                              Cpp.types := <["input_triangle" := ""]> ∅ |};
                Cpp.heap := [] |} in
   Cpp.CalculateAnglesAgent_execute itanium_name Cpp_empty = Aborts e s' [] ∧
   Cpp.CheckRightAngleAgent_execute itanium_name Cpp_empty = Aborts e s' [] ∧
   Cpp.TriangleProcessingAgent_execute itanium_name Cpp_empty =
     Aborts e s' [sc_log (Text "Starting triangle processing")]).
Proof.
  destruct (steps_without_triangle itanium_name) as [H1 H2]. split.
  - apply (H1 {| C.memory := C.sc_memory_init 10; C.heap := [] |}).
    apply not_elem_of_nil.
  - apply (H2 Cpp_empty); [reflexivity|done].
Defined.

(** X12. When the triangle key holds an entry of another type, the C steps
    print the mismatch on stderr and stop the process with [EXIT_FAILURE],
    and the C++ steps throw the mismatch error; the state is the one they
    started in, and the pipeline has printed its start message only. *)
Theorem steps_on_mistyped_triangle (typeid_name : Cpp.cpp_type → string) :
  (∀ s e,
     C.find_entry (C.entries (C.memory s)) "input_triangle" = Some e →
     C.type e ≠ "triangle" →
     let msg := stderr "Type mismatch for SC element: input_triangle" in
     C.calculate_angles_agent_execute s = Aborts C.EXIT_FAILURE s [msg] ∧
     C.check_right_angle_agent_execute s = Aborts C.EXIT_FAILURE s [msg] ∧
     C.triangle_processing_agent_execute s =
       Aborts C.EXIT_FAILURE s
         [sc_log (Text "Starting triangle processing"); msg]) ∧
  (∀ s tag,
     Cpp.types (Cpp.ctx s) !! "input_triangle" = Some tag →
     tag ≠ typeid_name Cpp.T_Triangle →
     let e := Cpp.runtime_error "Type mismatch for SC element: input_triangle" in
     Cpp.CalculateAnglesAgent_execute typeid_name s = Aborts e s [] ∧
     Cpp.CheckRightAngleAgent_execute typeid_name s = Aborts e s [] ∧
     Cpp.TriangleProcessingAgent_execute typeid_name s =
       Aborts e s [sc_log (Text "Starting triangle processing")]).
Proof.
  split.
  - intros s e He Hty msg.
    assert (C.sc_memory_get (C.memory s) "input_triangle" "triangle" =
              inr "Type mismatch for SC element: input_triangle") as Hget.
    { unfold C.sc_memory_get. rewrite He.
      destruct (String.eqb_spec (C.type e) "triangle"); [done|reflexivity]. }
    assert (C.calculate_angles_agent_execute s = Aborts C.EXIT_FAILURE s [msg])
      as Hcalc.
    { unfold C.calculate_angles_agent_execute, mbind, M_bind, bind, C.memory_get.
      by rewrite Hget. }
    split; [done|]. split.
    + unfold C.check_right_angle_agent_execute, mbind, M_bind, bind, C.memory_get.
      by rewrite Hget.
    + by rewrite pipeline_after_calculate, Hcalc.
  - intros s tag Hk HT e.
    assert (Cpp.CalculateAnglesAgent_execute typeid_name s = Aborts e s []) as Hcalc.
    { unfold Cpp.CalculateAnglesAgent_execute, mbind, M_bind, bind, Cpp.ctx_get.
      rewrite (get_mismatch typeid_name _ _ _ _ Hk HT). by destruct s. }
    split; [done|]. split.
    + unfold Cpp.CheckRightAngleAgent_execute, mbind, M_bind, bind, Cpp.ctx_get.
      rewrite (get_mismatch typeid_name _ _ _ _ Hk HT). by destruct s.
    + by rewrite Pipeline_after_Calculate, Hcalc.
Qed.

Lemma steps_on_mistyped_triangle_witness :
  (let msg := stderr "Type mismatch for SC element: input_triangle" in
   C.calculate_angles_agent_execute C_mistyped =
     Aborts C.EXIT_FAILURE C_mistyped [msg] ∧
   C.check_right_angle_agent_execute C_mistyped =
     Aborts C.EXIT_FAILURE C_mistyped [msg] ∧
   C.triangle_processing_agent_execute C_mistyped =
     Aborts C.EXIT_FAILURE C_mistyped
       [sc_log (Text "Starting triangle processing"); msg]) ∧
  (let s := {| Cpp.ctx := Cpp.store itanium_name Cpp.T_bool empty_context
                            "input_triangle" (Addr 0);
               Cpp.heap := [Some (Cpp.OBool true)] |} in
   let e := Cpp.runtime_error "Type mismatch for SC element: input_triangle" in
   Cpp.CalculateAnglesAgent_execute itanium_name s = Aborts e s [] ∧
   Cpp.CheckRightAngleAgent_execute itanium_name s = Aborts e s [] ∧
   Cpp.TriangleProcessingAgent_execute itanium_name s =
     Aborts e s [sc_log (Text "Starting triangle processing")]).
Proof.
  destruct (steps_on_mistyped_triangle itanium_name) as [H1 H2]. split.
  - apply (H1 C_mistyped {| C.addr := "input_triangle"; C.data := Addr 0;
                            C.type := "int" |}); [reflexivity|done].
  - apply (H2 {| Cpp.ctx := Cpp.store itanium_name Cpp.T_bool empty_context
                              "input_triangle" (Addr 0);
                 Cpp.heap := [Some (Cpp.OBool true)] |} "b"); [reflexivity|done].
Defined.

(** X13. The C++ steps fetch the rule set before they look at the
    triangle: on every state that holds a triangle and no rule-set key they
    throw the mismatch error for that key, as does the pipeline after its
    start message; the triangle and the classification a reader finds are
    as before, and the rule-set key is left with the empty tag. *)
Theorem Cpp_steps_fetch_the_rule_set (typeid_name : Cpp.cpp_type → string) s t :
  Cpp.triangle_at typeid_name s = Some t →
  Cpp.types (Cpp.ctx s) !! "rules_set" = None →
  typeid_name Cpp.T_rules ≠ "" →
  let e := Cpp.runtime_error "Type mismatch for SC element: rules_set" in
  let s' := {| Cpp.ctx := {| Cpp.data := Cpp.data (Cpp.ctx s);
                             Cpp.types := <["rules_set" := ""]>
                                            (Cpp.types (Cpp.ctx s)) |};
               Cpp.heap := Cpp.heap s |} in
  Cpp.CalculateAnglesAgent_execute typeid_name s = Aborts e s' [] ∧
  Cpp.CheckRightAngleAgent_execute typeid_name s = Aborts e s' [] ∧
  Cpp.TriangleProcessingAgent_execute typeid_name s =
    Aborts e s' [sc_log (Text "Starting triangle processing")] ∧
  Cpp.triangle_at typeid_name s' = Some t ∧
  Cpp.classification_at typeid_name s' = Cpp.classification_at typeid_name s.
Proof.
  intros Ht Hk HT e s'.
  pose proof Ht as Ht0.
  apply triangle_at_Some in Ht as (p & Htag & Hp & Hload).
  assert (Cpp.CalculateAnglesAgent_execute typeid_name s = Aborts e s' []) as Hcalc.
  { rewrite (Calculate_run_triangle typeid_name s p t Htag Hp Hload).
    by rewrite (get_absent typeid_name _ _ _ Hk HT). }
  split; [done|]. split.
  { rewrite (Check_run_triangle typeid_name s p t Htag Hp Hload).
    by rewrite (get_absent typeid_name _ _ _ Hk HT). }
  split.
  { by rewrite Pipeline_after_Calculate, Hcalc. }
  split.
  - apply triangle_at_Some. exists p. simpl.
    rewrite lookup_insert_ne by done. done.
  - unfold Cpp.classification_at. simpl. by rewrite lookup_insert_ne by done.
Qed.

Lemma Cpp_steps_fetch_the_rule_set_witness :
  let s := {| Cpp.ctx := Cpp.store itanium_name Cpp.T_Triangle empty_context
                           "input_triangle" (Addr 0);
              Cpp.heap := [Some (Cpp.OTriangle
                                   (Cpp_triangle (90%float, true) (45%float, true)
                                      (0%float, false)))] |} in
  let e := Cpp.runtime_error "Type mismatch for SC element: rules_set" in
  let s' := {| Cpp.ctx := {| Cpp.data := Cpp.data (Cpp.ctx s);
                             Cpp.types := <["rules_set" := ""]>
                                            (Cpp.types (Cpp.ctx s)) |};
               Cpp.heap := Cpp.heap s |} in
  Cpp.CalculateAnglesAgent_execute itanium_name s = Aborts e s' [] ∧
  Cpp.CheckRightAngleAgent_execute itanium_name s = Aborts e s' [] ∧
  Cpp.TriangleProcessingAgent_execute itanium_name s =
    Aborts e s' [sc_log (Text "Starting triangle processing")] ∧
  Cpp.triangle_at itanium_name s' =
    Some (Cpp_triangle (90%float, true) (45%float, true) (0%float, false)) ∧
  Cpp.classification_at itanium_name s' = Cpp.classification_at itanium_name s.
Proof.
  intros s.
  apply (Cpp_steps_fetch_the_rule_set itanium_name s
           (Cpp_triangle (90%float, true) (45%float, true) (0%float, false)));
    [reflexivity|reflexivity|done].
Defined.

(** ** What the pipeline leaves alone *)

Section C_pipeline_frame.
Import C.
Implicit Types (s : state) (t : triangle) (p : pointer).

(** The state the pipeline ends in, when it ends in one: it only ends when
    the completion step fails, and then nothing was written. *)
Lemma pipeline_final s s1 :
  final_state (triangle_processing_agent_execute s) = Some s1 → s1 = s.
Proof.
  pose proof (calculate_angles_frame s) as Hf.
  pose proof (pipeline_after_completion s) as Hok.
  rewrite pipeline_after_calculate.
  destruct (calculate_angles_agent_execute s) as [[] s' out1|e s' out1|] eqn:Hcalc;
    simpl; [| |intros [= <-]; done|done].
  - rewrite pipeline_after_calculate, Hcalc in Hok.
    by rewrite (Hok s' out1 eq_refl).
  - destruct Hf as (-> & _ & _). by intros [= <-].
Qed.

End C_pipeline_frame.

Section Cpp_pipeline_frame.
Import Cpp.
Variable typeid_name : cpp_type → string.
Variable k : string.
Hypothesis k_triangle : k ≠ "input_triangle".
Hypothesis k_rules : k ≠ "rules_set".
Hypothesis k_classification : k ≠ "is_right_triangle".

Local Abbreviation frame := (keeps (abort := exception) (event := event) (same_entry k)).

Lemma keeps_ret {A} (a : A) : frame (mret a).
Proof. by intros s. Qed.

Lemma keeps_bind {A B} (m : M state exception event A)
    (f : A → M state exception event B) :
  frame m → (∀ a, frame (f a)) → frame (m ≫= f).
Proof.
  intros Hm Hf s. unfold mbind, M_bind, bind. specialize (Hm s).
  destruct (m s) as [a s1 out1|e s1 out1|]; [|done..].
  specialize (Hf a s1). destruct (f a s1) as [b s2 out2|e s2 out2|]; [| |done].
  - unfold same_entry in *. destruct Hm, Hf. split; congruence.
  - unfold same_entry in *. destruct Hm, Hf. split; congruence.
Qed.

Lemma keeps_log m : frame (log_sc_event m).
Proof. by intros s. Qed.

Lemma keeps_ctx_get T k' : k' ≠ k → frame (ctx_get typeid_name T k').
Proof.
  intros Hne s. unfold ctx_get.
  pose proof (get_other typeid_name T (ctx s) k' k Hne) as H.
  by destruct (get typeid_name T (ctx s) k') as [[p|e] c].
Qed.

Lemma keeps_ctx_store T k' v : k' ≠ k → frame (ctx_store typeid_name T k' v).
Proof.
  intros Hne s. unfold ctx_store, same_entry, store. simpl.
  by rewrite !lookup_insert_ne.
Qed.

Lemma keeps_load_triangle p : frame (load_triangle p).
Proof. intros s. unfold load_triangle. by destruct (load (heap s) p) as [[]|]. Qed.

Lemma keeps_load_bool p : frame (load_bool p).
Proof. intros s. unfold load_bool. by destruct (load (heap s) p) as [[]|]. Qed.

Lemma keeps_write_triangle p t : frame (write_triangle p t).
Proof. by intros s. Qed.

Lemma keeps_local_bool b : frame (local_bool b).
Proof. by intros s. Qed.

Lemma keeps_end_of_lifetime p : frame (end_of_lifetime p).
Proof. by intros s. Qed.

Lemma keeps_Calculate : frame (CalculateAnglesAgent_execute typeid_name).
Proof using k_triangle k_rules.
  unfold CalculateAnglesAgent_execute.
  apply keeps_bind; [by apply keeps_ctx_get|intros tri].
  apply keeps_bind; [by apply keeps_ctx_get|intros rules].
  apply keeps_bind; [by apply keeps_load_triangle|intros t].
  destruct (tally_angles t) as [n sum].
  destruct (if (n =? 1)%Z then _ else _) as [[t' v]|].
  - apply keeps_bind; [apply keeps_write_triangle|intros _].
    apply keeps_bind; [apply keeps_log|intros _]. apply keeps_ret.
  - apply keeps_bind; [apply keeps_log|intros _]. apply keeps_ret.
Qed.

Lemma keeps_check_from t todo : frame (check_from typeid_name t todo).
Proof using k_classification.
  induction todo as [|i todo IH]; simpl.
  - apply keeps_bind; [apply keeps_local_bool|intros p].
    apply keeps_bind; [by apply keeps_ctx_store|intros _].
    apply keeps_bind; [apply keeps_end_of_lifetime|intros _]. apply keeps_ret.
  - destruct (is_right_angle (nth_angle t i)); [|done].
    apply keeps_bind; [apply keeps_local_bool|intros p].
    apply keeps_bind; [by apply keeps_ctx_store|intros _].
    apply keeps_bind; [apply keeps_log|intros _].
    apply keeps_bind; [apply keeps_end_of_lifetime|intros _]. apply keeps_ret.
Qed.

Lemma keeps_Check : frame (CheckRightAngleAgent_execute typeid_name).
Proof using k_triangle k_rules k_classification.
  unfold CheckRightAngleAgent_execute.
  apply keeps_bind; [by apply keeps_ctx_get|intros tri].
  apply keeps_bind; [by apply keeps_ctx_get|intros rules].
  apply keeps_bind; [by apply keeps_load_triangle|intros t].
  apply keeps_check_from.
Qed.

Lemma keeps_Pipeline : frame (TriangleProcessingAgent_execute typeid_name).
Proof using k_triangle k_rules k_classification.
  unfold TriangleProcessingAgent_execute.
  apply keeps_bind; [apply keeps_log|intros _].
  apply keeps_bind; [apply keeps_Calculate|intros [|]]; [|apply keeps_ret].
  apply keeps_bind; [apply keeps_Check|intros [|]]; [|apply keeps_ret].
  apply keeps_bind; [by apply keeps_ctx_get|intros p].
  apply keeps_bind; [by apply keeps_load_bool|intros b].
  apply keeps_bind; [apply keeps_log|intros _]. apply keeps_ret.
Qed.

End Cpp_pipeline_frame.

(** X14. What the pipeline leaves alone, however it ends (it ends in a
    state only when the completion step fails or the program stops before
    the classification is read).  In C every key other than the
    classification key keeps its entry, the list of keys is unchanged or
    has the classification key appended, and every object other than the
    triangle keeps its value.  In C++ every key other than the three the
    pipeline names keeps its tag and its pointer. *)
Theorem pipeline_leaves_the_rest (typeid_name : Cpp.cpp_type → string) :
  (∀ s s1,
     final_state (C.triangle_processing_agent_execute s) = Some s1 →
     (∀ k, k ≠ "is_right_triangle" →
        C.find_entry (C.entries (C.memory s1)) k =
        C.find_entry (C.entries (C.memory s)) k) ∧
     (C.keys (C.memory s1) = C.keys (C.memory s) ∨
      C.keys (C.memory s1) = C.keys (C.memory s) ++ ["is_right_triangle"]) ∧
     (∀ q, C.sc_memory_get (C.memory s) "input_triangle" "triangle" ≠ inl q →
           is_Some (load (C.heap s) q) →
           load (C.heap s1) q = load (C.heap s) q)) ∧
  (∀ s s1 k,
     final_state (Cpp.TriangleProcessingAgent_execute typeid_name s) = Some s1 →
     k ≠ "input_triangle" → k ≠ "rules_set" → k ≠ "is_right_triangle" →
     Cpp.types (Cpp.ctx s1) !! k = Cpp.types (Cpp.ctx s) !! k ∧
     Cpp.data (Cpp.ctx s1) !! k = Cpp.data (Cpp.ctx s) !! k).
Proof.
  split.
  - intros s s1 H. apply pipeline_final in H as ->.
    split; [done|]. split; [by left|done].
  - intros s s1 k H Hk1 Hk2 Hk3.
    pose proof (keeps_Pipeline typeid_name k Hk1 Hk2 Hk3 s) as Hf.
    destruct (Cpp.TriangleProcessingAgent_execute typeid_name s)
      as [r s' out|e s' out|]; [| |done]; simpl in H; injection H as <-; exact Hf.
Qed.

Lemma pipeline_leaves_the_rest_witness :
  (∃ s1,
     final_state (C.triangle_processing_agent_execute C_two_unknown) = Some s1 ∧
     C.find_entry (C.entries (C.memory s1)) "rules_set" =
     C.find_entry (C.entries (C.memory C_two_unknown)) "rules_set") ∧
  (∃ s1,
     final_state
       (Cpp.TriangleProcessingAgent_execute itanium_name
          (Cpp_without_rules
             (Cpp_triangle (90%float, true) (45%float, true) (0%float, false)))) =
       Some s1 ∧
     Cpp.types (Cpp.ctx s1) !! "k" =
     Cpp.types
       (Cpp.ctx
          (Cpp_without_rules
             (Cpp_triangle (90%float, true) (45%float, true) (0%float, false))))
       !! "k").
Proof.
  destruct (pipeline_leaves_the_rest itanium_name) as [H1 H2]. split.
  - eexists. split; [reflexivity|].
    refine (proj1 (H1 C_two_unknown _ _) "rules_set" _); [reflexivity|done].
  - eexists. split; [reflexivity|].
    refine (proj1 (H2 (Cpp_without_rules _) _ "k" _ _ _ _)); [reflexivity|done..].
Defined.

(** ** The dump of the C store *)

Section C_dump.
Import C.
Implicit Types (s : state) (e : sc_memory_entry) (h : list (option object)).

Lemma dump_entry_is_Some h e :
  is_Some (dump_entry h e) ↔
  (type e = "triangle" → ∃ t, load h (data e) = Some (OTriangle t)) ∧
  (type e = "int" → ∃ n, load h (data e) = Some (OInt n)).
Proof.
  unfold dump_entry.
  destruct (String.eqb_spec (type e) "triangle") as [E|E].
  - rewrite E. destruct (load h (data e)) as [[t|n]|]; split.
    + intros _. split; [by eauto|done].
    + by eauto.
    + by intros [? ?].
    + intros [H _]. by destruct (H eq_refl).
    + by intros [? ?].
    + intros [H _]. by destruct (H eq_refl).
  - destruct (String.eqb_spec (type e) "int") as [E'|E'].
    + destruct (load h (data e)) as [[t|n]|]; split.
      * by intros [? ?].
      * intros [_ H]. by destruct (H E').
      * intros _. split; [done|by eauto].
      * by eauto.
      * by intros [? ?].
      * intros [_ H]. by destruct (H E').
    + split; [done|]. intros _.
      by destruct (String.eqb (type e) "rules_set").
Qed.

Lemma dump_entry_key h e line :
  dump_entry h e = Some line → ∃ v, line = Dump_entry (addr e) v.
Proof.
  unfold dump_entry. intros H.
  repeat match type of H with
         | (if ?b then _ else _) = _ => destruct b
         | match ?x with _ => _ end = _ => destruct x
         end; try done; injection H as <-; by eauto.
Qed.

Lemma dump_lines_keys h es lines :
  mapM (dump_entry h) es = Some lines →
  ∃ vs, lines = zip_with Dump_entry (map addr es) vs ∧ length vs = length es.
Proof.
  intros H. apply mapM_Some in H.
  induction H as [|e line es lines He _ IH]; [by exists []|].
  destruct IH as (vs & -> & Hl). apply dump_entry_key in He as [v ->].
  exists (v :: vs). simpl. by rewrite Hl.
Qed.

Lemma dump_line_of_entry h es lines e :
  mapM (dump_entry h) es = Some lines → e ∈ es →
  ∃ line, dump_entry h e = Some line ∧ line ∈ lines.
Proof.
  intros H He. apply mapM_Some in H.
  apply list_elem_of_lookup in He as [i Hi].
  destruct (Forall2_lookup_l _ _ _ _ _ H Hi) as (line & Hline & Heq).
  exists line. split; [done|]. by eapply list_elem_of_lookup_2.
Qed.

Lemma print_sc_memory_Some s ls :
  print_sc_memory s = Some ls ↔
  ∃ lines, mapM (dump_entry (heap s)) (entries (memory s)) = Some lines ∧
           ls = Dump_header :: lines ++ [Dump_footer].
Proof.
  unfold print_sc_memory.
  destruct (mapM _ _) as [lines|]; simpl; split.
  - intros [= <-]. by eauto.
  - by intros (? & [= <-] & ->).
  - done.
  - by intros (? & ? & _).
Qed.

End C_dump.

Lemma C_state_of_well_typed t : C.well_typed (C_state_of t).
Proof.
  intros e He. simpl in He.
  apply elem_of_cons in He as [->|He]; [|apply elem_of_cons in He as [->|He]].
  - split; [|done]. intros _. by eexists.
  - split; done.
  - by apply elem_of_nil in He.
Qed.

Lemma print_sc_memory_defined_iff s :
  is_Some (C.print_sc_memory s) ↔ C.well_typed s.
Proof.
  unfold C.print_sc_memory, C.well_typed.
  transitivity (is_Some (mapM (C.dump_entry (C.heap s)) (C.entries (C.memory s)))).
  { by destruct (mapM _ _). }
  rewrite mapM_is_Some, Forall_forall.
  split; intros H e He; by apply dump_entry_is_Some, H.
Qed.

(** X15. The C dump has a defined behaviour exactly on the stores whose
    entries tagged as a triangle or as an [int] point to an object of that
    type; it then prints the header, one line for each entry, with the keys
    in the order of the array, and the footer. *)
Theorem print_sc_memory_defined s :
  (is_Some (C.print_sc_memory s) ↔ C.well_typed s) ∧
  (∀ ls, C.print_sc_memory s = Some ls →
     ∃ vs, length vs = length (C.keys (C.memory s)) ∧
           ls = Dump_header ::
                zip_with Dump_entry (C.keys (C.memory s)) vs ++ [Dump_footer]).
Proof.
  split.
  - apply print_sc_memory_defined_iff.
  - intros ls (lines & H & ->)%print_sc_memory_Some.
    apply dump_lines_keys in H as (vs & -> & Hl).
    exists vs. unfold C.keys. by rewrite length_map.
Qed.

Lemma print_sc_memory_defined_witness :
  is_Some (C.print_sc_memory C_scenario_A) ∧
  ∃ vs, length vs = length (C.keys (C.memory C_scenario_A)) ∧
        [Dump_header;
         Dump_entry "input_triangle"
           (Dump_triangle [Some 90%float; Some 45%float; None]);
         Dump_entry "rules_set" Dump_rules;
         Dump_footer] =
        Dump_header ::
        zip_with Dump_entry (C.keys (C.memory C_scenario_A)) vs ++ [Dump_footer].
Proof.
  destruct (print_sc_memory_defined C_scenario_A) as [H1 H2]. split.
  - apply H1, C_state_of_well_typed.
  - apply H2. reflexivity.
Defined.

(** X16. Once the classification step has returned, the C store is not
    well typed and the dump [main] prints next has no defined behaviour:
    the classification key is tagged as an [int], the dump dereferences
    its pointer, and that pointer is the address of the local [is_right]
    of the step, whose lifetime has ended. *)
Theorem classification_breaks_well_typed s r s1 out :
  C.check_right_angle_agent_execute s = Returns r s1 out →
  ¬ C.well_typed s1 ∧ C.print_sc_memory s1 = None.
Proof.
  intros H. apply check_leaves_dangling in H as (_ & Hget & Hload & _).
  assert (¬ C.well_typed s1) as Hwt.
  { intros Hwt. unfold C.sc_memory_get in Hget.
    destruct (C.find_entry (C.entries (C.memory s1)) "is_right_triangle")
      as [e|] eqn:He; [|done].
    destruct (String.eqb_spec (C.type e) "int") as [Hty|]; [|done].
    injection Hget as Hd.
    destruct (proj2 (Hwt e (find_entry_elem _ _ _ He)) Hty) as [n Hn].
    rewrite Hd, Hload in Hn. done. }
  split; [done|].
  destruct (C.print_sc_memory s1) as [ls|] eqn:E; [|done].
  destruct Hwt. apply print_sc_memory_defined_iff. by rewrite E.
Qed.

Lemma classification_breaks_well_typed_witness :
  ∃ s1 out,
    C.check_right_angle_agent_execute C_complete = Returns C.SC_RESULT_OK s1 out ∧
    ¬ C.well_typed s1 ∧ C.print_sc_memory s1 = None.
Proof.
  eexists _, _. split; [reflexivity|].
  eapply (classification_breaks_well_typed C_complete). reflexivity.
Defined.

Section C_dump_readers.
Import C.

(** The line of the entry a retrieval finds is among those printed. *)
Lemma dump_line_of_key s lines k ty p line :
  mapM (dump_entry (heap s)) (entries (memory s)) = Some lines →
  sc_memory_get (memory s) k ty = inl p →
  is_Some (load (heap s) p) →
  (∀ e, addr e = k → type e = ty → data e = p →
        dump_entry (heap s) e = Some line) →
  line ∈ Dump_header :: lines ++ [Dump_footer].
Proof.
  intros H Hget [o Hload] Hd. unfold sc_memory_get in Hget.
  destruct (find_entry (entries (memory s)) k) as [e|] eqn:He.
  - destruct (String.eqb_spec (type e) ty) as [Hty|]; [|done].
    injection Hget as Hp.
    destruct (dump_line_of_entry _ _ _ e H) as (line' & Hl & Hin).
    { by eapply find_entry_elem. }
    rewrite (Hd e) in Hl; [|by eapply find_entry_addr|done..].
    injection Hl as <-. apply elem_of_cons. right. apply elem_of_app. by left.
  - injection Hget as <-. done.
Qed.

Lemma dump_line_triangle s lines t :
  mapM (dump_entry (heap s)) (entries (memory s)) = Some lines →
  input_triangle s = Some t →
  Dump_entry "input_triangle" (Dump_triangle (dump_angle <$> angles t))
    ∈ Dump_header :: lines ++ [Dump_footer].
Proof.
  intros H (p & Hget & Hload)%input_triangle_Some.
  apply (dump_line_of_key s lines _ _ p _ H Hget); [by rewrite Hload|].
  intros e <- Hty <-. unfold dump_entry. by rewrite Hty, Hload.
Qed.

Lemma dump_line_classification s lines b :
  mapM (dump_entry (heap s)) (entries (memory s)) = Some lines →
  is_right_triangle s = Some b →
  Dump_entry "is_right_triangle" (Dump_bool b)
    ∈ Dump_header :: lines ++ [Dump_footer].
Proof.
  intros H Hb. unfold is_right_triangle in Hb.
  destruct (sc_memory_get (memory s) "is_right_triangle" "int") as [p|] eqn:Hget;
    [|done].
  destruct (load (heap s) p) as [[t|n]|] eqn:Hload; try done.
  injection Hb as <-.
  apply (dump_line_of_key s lines _ _ p _ H Hget); [by rewrite Hload|].
  intros e <- Hty <-. unfold dump_entry. by rewrite Hty, Hload.
Qed.

End C_dump_readers.

(** X17. The C dump shows what the readers find: the line of the triangle
    key shows the value of every known angle of the triangle a reader
    finds and a question mark for every other, and the line of the
    classification key shows the classification a reader finds. *)
Theorem dump_shows_what_readers_find s ls :
  C.print_sc_memory s = Some ls →
  (∀ t, C.input_triangle s = Some t →
        Dump_entry "input_triangle" (Dump_triangle (C.dump_angle <$> C.angles t))
          ∈ ls) ∧
  (∀ b, C.is_right_triangle s = Some b →
        Dump_entry "is_right_triangle" (Dump_bool b) ∈ ls).
Proof.
  intros (lines & H & ->)%print_sc_memory_Some. split.
  - intros t. by apply dump_line_triangle.
  - intros b. by apply dump_line_classification.
Qed.

Lemma dump_shows_what_readers_find_witness :
  Dump_entry "input_triangle" (Dump_triangle [Some 90%float; Some 45%float; None])
    ∈ [Dump_header;
       Dump_entry "input_triangle"
         (Dump_triangle [Some 90%float; Some 45%float; None]);
       Dump_entry "rules_set" Dump_rules;
       Dump_footer].
Proof.
  refine (proj1 (dump_shows_what_readers_find C_scenario_A _ _)
            (C_triangle (90%float, 1%Z) (45%float, 1%Z) (0%float, 0%Z)) _);
    reflexivity.
Defined.

(** ** The dump of the C++ store *)

Section Cpp_dump.
Import Cpp.
Variable typeid_name : cpp_type → string.
Implicit Types (c : MemoryContext) (h : list (option object)) (l : list (string * string)).

Local Abbreviation dump_entry := (dump_entry typeid_name).
Local Abbreviation dump_entries := (dump_entries typeid_name).
Local Abbreviation print_sc_memory := (print_sc_memory typeid_name).

Lemma dump_entries_inl c h l lines :
  dump_entries c h l = inl lines ↔
  Forall2 (λ kt line, dump_entry c h kt = inl line) l lines.
Proof.
  revert lines. induction l as [|kt l IH]; intros lines; simpl.
  - split; [intros [= <-]; constructor|by intros ->%Forall2_nil_inv_l].
  - destruct (dump_entry c h kt) as [line|f] eqn:E.
    + destruct (Cpp.dump_entries typeid_name c h l) as [lines'|f] eqn:E'.
      * split.
        -- intros [= <-]. constructor; [done|]. by apply IH.
        -- intros (line' & lines'' & H1 & H2 & ->)%Forall2_cons_inv_l.
           apply IH in H2. congruence.
      * split; [done|].
        intros (line' & lines'' & H1 & H2 & ->)%Forall2_cons_inv_l.
        apply IH in H2. congruence.
    + split; [done|].
      intros (line' & lines'' & H1 & H2 & ->)%Forall2_cons_inv_l. congruence.
Qed.

Lemma dump_entries_inr c h l f :
  dump_entries c h l = inr f → ∃ kt, kt ∈ l ∧ dump_entry c h kt = inr f.
Proof.
  induction l as [|kt l IH]; simpl; [done|].
  destruct (dump_entry c h kt) as [line|f'] eqn:E.
  - destruct (Cpp.dump_entries typeid_name c h l) as [lines'|f'] eqn:E'; [done|].
    intros [= ->]. destruct (IH eq_refl) as (kt' & Hin & Hkt').
    exists kt'. split; [by apply elem_of_cons; right|done].
  - intros [= ->]. exists kt. split; [by apply elem_of_cons; left|done].
Qed.

Lemma elem_of_in_key_order (m : gmap string string) k tag :
  (k, tag) ∈ in_key_order m ↔ m !! k = Some tag.
Proof.
  unfold in_key_order. rewrite merge_sort_Permutation.
  apply elem_of_map_to_list.
Qed.

Lemma length_in_key_order (m : gmap string string) :
  length (in_key_order m) = size m.
Proof.
  unfold in_key_order. rewrite merge_sort_Permutation.
  apply length_map_to_list.
Qed.

Lemma dump_entry_not_out_of_range c h k tag :
  consistent c → typeid_name T_Triangle ≠ "" → typeid_name T_bool ≠ "" →
  types c !! k = Some tag →
  dump_entry c h (k, tag) ≠ inr out_of_range.
Proof.
  intros [_ Hc] HT Hb Hk. unfold Cpp.dump_entry.
  destruct (String.eqb_spec tag (typeid_name T_Triangle)) as [E|E].
  { destruct (Hc k tag Hk) as [p ->]; [congruence|].
    by destruct (load h p) as [[]|]. }
  destruct (String.eqb_spec tag (typeid_name T_bool)) as [E'|E'].
  { destruct (Hc k tag Hk) as [p ->]; [congruence|].
    by destruct (load h p) as [[]|]. }
  by destruct (String.eqb tag (typeid_name T_rules)).
Qed.

Lemma dump_entry_data c c' h kt :
  data c' = data c → dump_entry c' h kt = dump_entry c h kt.
Proof. intros H. unfold Cpp.dump_entry. by rewrite H. Qed.

Lemma dump_entry_empty_tag c h k :
  (∀ T, typeid_name T ≠ "") →
  dump_entry c h (k, "") = inl (Dump_entry k Dump_nothing).
Proof.
  intros Hn. unfold Cpp.dump_entry.
  destruct (String.eqb_spec "" (typeid_name T_Triangle)) as [E|_];
    [by destruct (Hn T_Triangle)|].
  destruct (String.eqb_spec "" (typeid_name T_bool)) as [E|_];
    [by destruct (Hn T_bool)|].
  destruct (String.eqb_spec "" (typeid_name T_rules)) as [E|_];
    [by destruct (Hn T_rules)|done].
Qed.

Lemma print_sc_memory_inl s ls :
  print_sc_memory s = inl ls ↔
  ∃ lines,
    Forall2 (λ kt line, dump_entry (ctx s) (heap s) kt = inl line)
      (in_key_order (types (ctx s))) lines ∧
    ls = Dump_header :: lines ++ [Dump_footer].
Proof.
  unfold Cpp.print_sc_memory.
  destruct (Cpp.dump_entries _ _ _ _) as [lines|f] eqn:E; split.
  - intros [= <-]. exists lines. split; [by apply dump_entries_inl|done].
  - intros (lines' & H%dump_entries_inl & ->). congruence.
  - done.
  - intros (lines' & H%dump_entries_inl & ->). congruence.
Qed.

End Cpp_dump.

(** X18. Once the C++ classification step has returned, the dump [main]
    prints next does not complete: the classification key is tagged as a
    [bool], the loop of the dump reaches it or fails before, and the
    pointer it dereferences there is the address of the local [is_right]
    of the step, whose lifetime has ended. *)
Theorem Cpp_dump_after_classification (typeid_name : Cpp.cpp_type → string)
    s r s1 out :
  Cpp.CheckRightAngleAgent_execute typeid_name s = Returns r s1 out →
  Cpp.dump_entry typeid_name (Cpp.ctx s1) (Cpp.heap s1)
    ("is_right_triangle", typeid_name Cpp.T_bool) = inr Cpp.invalid_dereference ∧
  ∃ f, Cpp.print_sc_memory typeid_name s1 = inr f.
Proof.
  intros H.
  apply Check_leaves_dangling in H as (_ & [c Hc] & _ & Hload & _).
  assert (Cpp.dump_entry typeid_name (Cpp.ctx s1) (Cpp.heap s1)
            ("is_right_triangle", typeid_name Cpp.T_bool)
          = inr Cpp.invalid_dereference) as Hd.
  { unfold Cpp.dump_entry. rewrite Hc. unfold Cpp.store.
    cbn [Cpp.data]. rewrite !lookup_insert_eq, Hload, String.eqb_refl.
    by destruct (String.eqb _ _). }
  split; [done|].
  destruct (Cpp.print_sc_memory typeid_name s1) as [ls|f] eqn:E; [|by eexists].
  apply print_sc_memory_inl in E as (lines & HF & _).
  assert (("is_right_triangle", typeid_name Cpp.T_bool)
          ∈ Cpp.in_key_order (Cpp.types (Cpp.ctx s1))) as Hin.
  { apply elem_of_in_key_order. rewrite Hc. unfold Cpp.store. cbn [Cpp.types].
    apply lookup_insert_eq. }
  apply list_elem_of_lookup in Hin as [i Hi].
  destruct (Forall2_lookup_l _ _ _ _ _ HF Hi) as (line & _ & Hline).
  congruence.
Qed.

Lemma Cpp_dump_after_classification_witness :
  ∃ s1 out,
    Cpp.CheckRightAngleAgent_execute itanium_name Cpp_complete =
      Returns Cpp.Ok s1 out ∧
    Cpp.dump_entry itanium_name (Cpp.ctx s1) (Cpp.heap s1)
      ("is_right_triangle", itanium_name Cpp.T_bool) =
      inr Cpp.invalid_dereference ∧
    ∃ f, Cpp.print_sc_memory itanium_name s1 = inr f.
Proof.
  eexists _, _. split; [reflexivity|].
  eapply (Cpp_dump_after_classification itanium_name Cpp_complete). reflexivity.
Defined.

(** X19. On a consistent context the C++ dump never throws
    [std::out_of_range]: [data.at(key)] is reached for the keys tagged as a
    triangle or as a [bool] only, and those have a pointer.  When the dump
    completes it prints one line for each key besides the header and the
    footer. *)
Theorem Cpp_dump_is_never_out_of_range (typeid_name : Cpp.cpp_type → string) s :
  Cpp.consistent (Cpp.ctx s) →
  typeid_name Cpp.T_Triangle ≠ "" → typeid_name Cpp.T_bool ≠ "" →
  Cpp.print_sc_memory typeid_name s ≠ inr Cpp.out_of_range ∧
  (∀ ls, Cpp.print_sc_memory typeid_name s = inl ls →
         length ls = size (Cpp.types (Cpp.ctx s)) + 2).
Proof.
  intros Hc HT Hb. split.
  - unfold Cpp.print_sc_memory.
    destruct (Cpp.dump_entries _ _ _ _) as [lines|f] eqn:E; [done|].
    intros [= ->]. apply dump_entries_inr in E as ([k tag] & Hin & Hf).
    apply elem_of_in_key_order in Hin.
    by apply (dump_entry_not_out_of_range typeid_name _ (Cpp.heap s) k tag Hc HT Hb).
  - intros ls (lines & H & ->)%print_sc_memory_inl.
    apply Forall2_length in H. rewrite length_in_key_order in H.
    simpl. rewrite length_app. simpl. lia.
Qed.

Lemma Cpp_dump_is_never_out_of_range_witness :
  Cpp.print_sc_memory itanium_name Cpp_scenario_A ≠ inr Cpp.out_of_range ∧
  (∀ ls, Cpp.print_sc_memory itanium_name Cpp_scenario_A = inl ls →
         length ls = size (Cpp.types (Cpp.ctx Cpp_scenario_A)) + 2).
Proof.
  apply (Cpp_dump_is_never_out_of_range itanium_name Cpp_scenario_A).
  - apply consistent_store, consistent_store, consistent_empty.
  - done.
  - done.
Defined.

(** X20. A failed retrieval at an absent key shows in every later C++
    dump: the key has got the empty tag, so the dump prints the lines it
    printed before and one more, which carries the key and no value. *)
Theorem failed_get_shows_in_dump (typeid_name : Cpp.cpp_type → string) T s k ls :
  Cpp.types (Cpp.ctx s) !! k = None →
  (∀ T', typeid_name T' ≠ "") →
  Cpp.print_sc_memory typeid_name s = inl ls →
  ∃ ls',
    Cpp.print_sc_memory typeid_name
      {| Cpp.ctx := (Cpp.get typeid_name T (Cpp.ctx s) k).2;
         Cpp.heap := Cpp.heap s |} = inl ls' ∧
    ls' ≡ₚ Dump_entry k Dump_nothing :: ls.
Proof.
  intros Hk Hn (lines & H & ->)%print_sc_memory_inl.
  rewrite (get_absent typeid_name T _ _ Hk (Hn T)). cbn [snd].
  set (c' := {| Cpp.data := _; Cpp.types := _ |}).
  assert (Cpp.in_key_order (<[k := ""]> (Cpp.types (Cpp.ctx s))) ≡ₚ
          (k, "") :: Cpp.in_key_order (Cpp.types (Cpp.ctx s))) as Hperm.
  { unfold Cpp.in_key_order. rewrite !merge_sort_Permutation.
    by apply map_to_list_insert. }
  assert (Forall2 (λ kt line, Cpp.dump_entry typeid_name c' (Cpp.heap s) kt = inl line)
            ((k, "") :: Cpp.in_key_order (Cpp.types (Cpp.ctx s)))
            (Dump_entry k Dump_nothing :: lines)) as H'.
  { constructor; [by apply dump_entry_empty_tag|].
    eapply Forall2_impl; [exact H|]. intros kt line Hkt.
    by rewrite (dump_entry_data typeid_name (Cpp.ctx s) c'). }
  symmetry in Hperm.
  destruct (Permutation_Forall2 Hperm H') as (lines' & Hp & HF).
  exists (Dump_header :: lines' ++ [Dump_footer]). split.
  - apply print_sc_memory_inl. by exists lines'.
  - rewrite <-Hp. simpl. apply perm_swap.
Qed.

Lemma failed_get_shows_in_dump_witness :
  ∃ ls',
    Cpp.print_sc_memory itanium_name
      {| Cpp.ctx := (Cpp.get itanium_name Cpp.T_bool (Cpp.ctx Cpp_scenario_A)
                       "is_right_triangle").2;
         Cpp.heap := Cpp.heap Cpp_scenario_A |} = inl ls' ∧
    ls' ≡ₚ Dump_entry "is_right_triangle" Dump_nothing ::
           [Dump_header;
            Dump_entry "input_triangle"
              (Dump_triangle [Some 90%float; Some 45%float; None]);
            Dump_entry "rules_set" Dump_rules;
            Dump_footer].
Proof.
  apply (failed_get_shows_in_dump itanium_name Cpp.T_bool Cpp_scenario_A).
  - reflexivity.
  - by intros [].
  - reflexivity.
Defined.

